(** * Site tree exporter (metadata-driven variant) of r91-juke-box

    A shallow embedding of the exporter script that walks the project
    directory, keeps the [.html] pages carrying
    [<meta name='sitemap' content='include'>] and writes the pruned tree to
    [assets/data/tree.json].

    - JavaScript strings are sequences of UTF-16 code units: [jstr].
    - The two regular expressions of the script are kept as syntax
      ([regex]) and run by a backtracking matcher that follows the
      continuation-passing matcher of the ECMAScript specification.
    - The directory tree read by [fs.readdirSync]/[fs.readFileSync] is an
      inductive tree of entries; an unreadable directory or file is an entry
      whose payload is [None], and reading it throws.
    - [console.*] output and thrown exceptions are threaded explicitly
      through [buildTree] and [run]. *)

From Stdlib Require Import String Ascii List NArith Bool Arith Lia.
Import ListNotations.
Local Open Scope N_scope.
Local Open Scope list_scope.

Set Implicit Arguments.
Set Warnings "-register-all".

(* ================================================================== *)
(** ** JavaScript strings *)

(** A code unit.  Values are below 65536 in a real string; nothing below
    depends on that bound. *)
Definition cu := N.
Definition jstr := list cu.

(** An ASCII literal as a JavaScript string. *)
Definition lit (s : string) : jstr := map N_of_ascii (list_ascii_of_string s).

Definition QUOTE : cu := 34.      (* the double quote *)
Definition APOS : cu := 39.       (* ' *)
Definition SLASH : cu := 47.      (* / *)
Definition BACKSLASH : cu := 92.
Definition DOT : cu := 46.

Fixpoint jstr_eqb (a b : jstr) : bool :=
  match a, b with
  | [], [] => true
  | x :: a', y :: b' => (x =? y) && jstr_eqb a' b'
  | _, _ => false
  end.

(** LineTerminator of ECMAScript: LF, CR, LS, PS. *)
Definition is_line_terminator (c : cu) : bool :=
  (c =? 10) || (c =? 13) || (c =? 8232) || (c =? 8233).

(** WhiteSpace of ECMAScript: TAB, VT, FF, SP, NBSP, ZWNBSP and the
    Unicode space separators. *)
Definition is_white_space (c : cu) : bool :=
  (c =? 9) || (c =? 11) || (c =? 12) || (c =? 32) || (c =? 160)
  || (c =? 5760) || ((8192 <=? c) && (c <=? 8202))
  || (c =? 8239) || (c =? 8287) || (c =? 12288) || (c =? 65279).

(** What [\s] matches and what [String.prototype.trim] strips:
    WhiteSpace and LineTerminator. *)
Definition is_space (c : cu) : bool := is_white_space c || is_line_terminator c.

Fixpoint trim_start (s : jstr) : jstr :=
  match s with
  | c :: s' => if is_space c then trim_start s' else s
  | [] => []
  end.

Definition trim_end (s : jstr) : jstr := rev (trim_start (rev s)).

(** [String.prototype.trim]. *)
Definition trim (s : jstr) : jstr := trim_end (trim_start s).

(** [String.prototype.endsWith]. *)
Definition endsWith (s suffix : jstr) : bool :=
  (length suffix <=? length s)%nat
  && jstr_eqb (skipn (length s - length suffix) s) suffix.

(** [s.replace(/\\/g, '/')]: every backslash becomes a slash. *)
Definition replace_backslashes (s : jstr) : jstr :=
  map (fun c => if c =? BACKSLASH then SLASH else c) s.

(* ================================================================== *)
(** ** Regular expressions *)

(** The fragment of the pattern syntax the script uses.  [RPlus] ([r+]) is
    [r] followed by greedy [r*]. *)
Inductive regex : Type :=
| REmpty
| RChar (c : cu)                      (* a pattern character *)
| RDot                                (* .   *)
| RSpace                              (* \s  *)
| RSet (cs : list cu)                 (* [...] *)
| RSeq (r1 r2 : regex)
| RStar (greedy : bool) (r : regex)   (* r*  and  r*? *)
| ROpt (greedy : bool) (r : regex)    (* r?  and  r?? *)
| RGroup (i : nat) (r : regex).       (* the i-th capturing group *)

Definition RPlus (r : regex) : regex := RSeq r (RStar true r).

(** A literal run of pattern characters. *)
Fixpoint RLit (w : jstr) : regex :=
  match w with
  | [] => REmpty
  | c :: w' => RSeq (RChar c) (RLit w')
  end.

(** Captures: group number and captured substring, most recent first. *)
Definition caps := list (nat * jstr).

Fixpoint capture (i : nat) (c : caps) : option jstr :=
  match c with
  | [] => None
  | (j, s) :: c' => if Nat.eqb i j then Some s else capture i c'
  end.

(** Canonicalize of the specification without the [u] flag, for the
    comparisons this script makes: every pattern character is ASCII, an
    ASCII input character is upper-cased, and a character at or above 128
    never canonicalizes to an ASCII one, so it is left as it is. *)
Definition canonicalize (ignoreCase : bool) (c : cu) : cu :=
  if ignoreCase && (97 <=? c) && (c <=? 122) then c - 32 else c.

Definition char_matches (ignoreCase : bool) (p x : cu) : bool :=
  canonicalize ignoreCase p =? canonicalize ignoreCase x.

Section Matcher.

Variable ignoreCase : bool.   (* the [i] flag *)

Definition cont := jstr -> caps -> option caps.

Definition one (p : cu -> bool) (s : jstr) (c : caps) (k : cont) : option caps :=
  match s with
  | x :: s' => if p x then k s' c else None
  | [] => None
  end.

(** RepeatMatcher for [r*] and [r*?], [mr] being the matcher of [r]: an
    iteration that consumes nothing is rejected, so the length of the
    input is enough fuel [n]. *)
Definition RepeatMatcher
  (mr : jstr -> caps -> cont -> option caps) (greedy : bool) (k : cont)
  : nat -> jstr -> caps -> option caps :=
  fix loop (n : nat) (s : jstr) (c : caps) {struct n} : option caps :=
    match n with
    | O => k s c
    | S n' =>
        let again :=
          fun _ : unit =>
            mr s c (fun s' c' =>
              if (length s' <? length s)%nat then loop n' s' c' else None) in
        if greedy then
          match again tt with Some x => Some x | None => k s c end
        else
          match k s c with Some x => Some x | None => again tt end
    end.

(** [m r s c k]: match [r] at the front of [s] with captures [c], then
    run the continuation [k] on what is left; [None] is failure, and the
    first alternative that lets the continuation succeed wins. *)
Fixpoint m (r : regex) (s : jstr) (c : caps) (k : cont) {struct r} : option caps :=
  match r with
  | REmpty => k s c
  | RChar p => one (char_matches ignoreCase p) s c k
  | RDot => one (fun x => negb (is_line_terminator x)) s c k
  | RSpace => one is_space s c k
  | RSet cs => one (fun x => existsb (fun p => char_matches ignoreCase p x) cs) s c k
  | RSeq r1 r2 => m r1 s c (fun s' c' => m r2 s' c' k)
  | RStar greedy r1 => RepeatMatcher (m r1) greedy k (length s) s c
  | ROpt greedy r1 =>
      let once :=
        fun _ : unit =>
          m r1 s c (fun s' c' =>
            if (length s' <? length s)%nat then k s' c' else None) in
      if greedy then
        match once tt with Some x => Some x | None => k s c end
      else
        match k s c with Some x => Some x | None => once tt end
  | RGroup i r1 =>
      m r1 s c (fun s' c' => k s' ((i, firstn (length s - length s') s) :: c'))
  end.

(** Match at the front of [s]; the whole match is capture 0. *)
Definition match_here (r : regex) (s : jstr) : option caps :=
  m (RGroup 0 r) s [] (fun _ c => Some c).

(** [RegExp.prototype.exec] without [g]/[y]: the leftmost start index at
    which the pattern matches. *)
Fixpoint exec (r : regex) (s : jstr) : option caps :=
  match match_here r s with
  | Some c => Some c
  | None => match s with
            | [] => None
            | _ :: s' => exec r s'
            end
  end.

(** [RegExp.prototype.test]. *)
Definition test (r : regex) (s : jstr) : bool :=
  match exec r s with Some _ => true | None => false end.

End Matcher.

(* ================================================================== *)
(** ** Title extractor and sitemap classifier *)

(** [/<title>(.*?)<\/title>/i] *)
Definition title_re : regex :=
  RSeq (RLit (lit "<title>"))
       (RSeq (RGroup 1 (RStar false RDot)) (RLit (lit "</title>"))).

(** [html.match(re)] then [match[1].trim()], or [null]. *)
Definition extractTitle (html : jstr) : option jstr :=
  match exec true title_re html with
  | Some c => match capture 1 c with
              | Some t => Some (trim t)
              | None => None
              end
  | None => None
  end.

(** The class of the two quote characters. *)
Definition quote_set : regex := RSet [QUOTE; APOS].

(** [name=Qsitemap Q], with [Q] the quote class. *)
Definition name_attr_re : regex :=
  RSeq (RLit (lit "name="))
    (RSeq quote_set (RSeq (RLit (lit "sitemap")) quote_set)).

(** [content=QVALUE Q]. *)
Definition content_attr_re (value : jstr) : regex :=
  RSeq (RLit (lit "content="))
    (RSeq quote_set (RSeq (RLit value) quote_set)).

(** [\s*\/?>] *)
Definition tag_end_re : regex :=
  RSeq (RStar true RSpace) (RSeq (ROpt true (RChar SLASH)) (RChar 62)).

(** [/<meta\s+name=Qsitemap Q\s+content=QVALUE Q\s*\/?>/i], with [Q] the
    quote class and VALUE one of [include] and [exclude]. *)
Definition sitemap_re (value : jstr) : regex :=
  RSeq (RLit (lit "<meta"))
    (RSeq (RPlus RSpace)
       (RSeq name_attr_re
          (RSeq (RPlus RSpace)
             (RSeq (content_attr_re value) tag_end_re)))).

Record SitemapMeta : Type := { include : bool; exclude : bool }.

Definition checkSitemapMeta (html : jstr) : SitemapMeta :=
  {| include := test true (sitemap_re (lit "include")) html;
     exclude := test true (sitemap_re (lit "exclude")) html |}.

(* ================================================================== *)
(** ** Paths: [path.basename] and [path.join] of Node.js (POSIX) *)

Fixpoint intercalate (sep : jstr) (l : list jstr) : jstr :=
  match l with
  | [] => []
  | [x] => x
  | x :: l' => x ++ sep ++ intercalate sep l'
  end.

(** [s.split(sep)] for a one-character separator. *)
Fixpoint split_on (sep : cu) (s : jstr) : list jstr :=
  match s with
  | [] => [[]]
  | c :: s' =>
      if c =? sep then [] :: split_on sep s'
      else match split_on sep s' with
           | seg :: segs => (c :: seg) :: segs
           | [] => [[c]]
           end
  end.

Definition is_empty (s : jstr) : bool := match s with [] => true | _ => false end.

(** [path.basename(p)]: trailing slashes are skipped, then everything after
    the last remaining slash is returned. *)
Fixpoint drop_slashes (s : jstr) : jstr :=
  match s with
  | c :: s' => if c =? SLASH then drop_slashes s' else s
  | [] => []
  end.

Fixpoint take_segment (s : jstr) : jstr :=
  match s with
  | c :: s' => if c =? SLASH then [] else c :: take_segment s'
  | [] => []
  end.

Definition basename (p : jstr) : jstr :=
  rev (take_segment (drop_slashes (rev p))).

(** normalizeString: the segments of a path with empty and [.] segments
    dropped and [..] resolved against the segment before it; [acc] is the
    result so far, last segment first. *)
Fixpoint normalize_segments (allowAboveRoot : bool) (acc segs : list jstr) : list jstr :=
  match segs with
  | [] => rev acc
  | seg :: rest =>
      if is_empty seg || jstr_eqb seg [DOT] then
        normalize_segments allowAboveRoot acc rest
      else if jstr_eqb seg [DOT; DOT] then
        match acc with
        | last :: acc' =>
            if jstr_eqb last [DOT; DOT] then
              normalize_segments allowAboveRoot
                (if allowAboveRoot then seg :: acc else acc) rest
            else normalize_segments allowAboveRoot acc' rest
        | [] =>
            normalize_segments allowAboveRoot
              (if allowAboveRoot then [seg] else []) rest
        end
      else normalize_segments allowAboveRoot (seg :: acc) rest
  end.

(** [path.normalize]. *)
Definition normalize (p : jstr) : jstr :=
  match p with
  | [] => [DOT]
  | c0 :: _ =>
      let isAbsolute := c0 =? SLASH in
      let trailingSeparator := last p 0 =? SLASH in
      let q := intercalate [SLASH]
                 (normalize_segments (negb isAbsolute) [] (split_on SLASH p)) in
      if is_empty q then
        if isAbsolute then [SLASH]
        else if trailingSeparator then [DOT; SLASH] else [DOT]
      else
        let q' := if trailingSeparator then q ++ [SLASH] else q in
        if isAbsolute then SLASH :: q' else q'
  end.

(** [path.join(...args)]: the non-empty arguments joined by slashes and
    normalized; [.] when there is none. *)
Definition join (args : list jstr) : jstr :=
  match filter (fun a => negb (is_empty a)) args with
  | [] => [DOT]
  | parts => normalize (intercalate [SLASH] parts)
  end.

(* ================================================================== *)
(** ** The file system *)

(** A directory as [readdirSync(p, {withFileTypes: true})] sees it, and
    its entries.  [Unreadable] is a directory that cannot be listed
    (missing, or no permission); a file with content [None] cannot be
    read; [EOther] is an entry that is neither a regular file nor a
    directory (a symbolic link, a socket, ...). *)
Inductive dir : Type :=
| Unreadable
| Readable (entries : list entry)
with entry : Type :=
| EDir (name : jstr) (d : dir)
| EFile (name : jstr) (content : option jstr)
| EOther (name : jstr).

Definition entry_name (e : entry) : jstr :=
  match e with
  | EDir n _ => n
  | EFile n _ => n
  | EOther n => n
  end.

(** The directories named by an absolute path, from the root down. *)
Definition segments (p : jstr) : list jstr :=
  filter (fun a => negb (is_empty a)) (split_on SLASH p).

Fixpoint find_entry (n : jstr) (es : list entry) : option entry :=
  match es with
  | [] => None
  | e :: es' => if jstr_eqb (entry_name e) n then Some e else find_entry n es'
  end.

(** The directory at a path; [Unreadable] when there is none. *)
Fixpoint dir_at (fs : dir) (segs : list jstr) : dir :=
  match segs with
  | [] => fs
  | seg :: rest =>
      match fs with
      | Readable es =>
          match find_entry seg es with
          | Some (EDir _ sub) => dir_at sub rest
          | _ => Unreadable
          end
      | Unreadable => Unreadable
      end
  end.

(** The content of the file at a path, when there is a readable one. *)
Definition file_at (fs : dir) (segs : list jstr) : option jstr :=
  match dir_at fs (removelast segs) with
  | Readable es =>
      match find_entry (last segs []) es with
      | Some (EFile _ content) => content
      | _ => None
      end
  | Unreadable => None
  end.

(** Replace the first entry called [n], or add one at the end. *)
Fixpoint put_entry (n : jstr) (e : entry) (es : list entry) : list entry :=
  match es with
  | [] => [e]
  | e0 :: es' =>
      if jstr_eqb (entry_name e0) n then e :: es' else e0 :: put_entry n e es'
  end.

(** [fs.writeFileSync] on the file system: the parent directory has to be
    there ([None] is the thrown ENOENT/ENOTDIR), an existing regular file is
    overwritten, a missing one is created, and writing over something that
    is not a regular file throws. *)
Fixpoint write_at (segs : list jstr) (data : jstr) (fs : dir) : option dir :=
  match segs, fs with
  | [], _ => None
  | _, Unreadable => None
  | [n], Readable es =>
      match find_entry n es with
      | Some (EFile _ _) | None => Some (Readable (put_entry n (EFile n (Some data)) es))
      | Some _ => None
      end
  | seg :: rest, Readable es =>
      match find_entry seg es with
      | Some (EDir _ sub) =>
          match write_at rest data sub with
          | Some sub' => Some (Readable (put_entry seg (EDir seg sub') es))
          | None => None
          end
      | _ => None
      end
  end.

Definition writeFileSync (fs : dir) (file data : jstr) : option dir :=
  write_at (segments file) data fs.

(* ================================================================== *)
(** ** Tree nodes, console output, exceptions *)

(** A tree node: [{name, path, title, sitemap}] for a page and
    [{name, children}] for a directory. *)
Inductive node : Type :=
| Page (name path title : jstr) (sitemap : bool)
| Folder (name : jstr) (children : list node).

(** What a file-system call throws. *)
Inductive error : Type :=
| ReaddirFailed (p : jstr)
| ReadFileFailed (p : jstr)
| WriteFileFailed (p : jstr).

(** One line of console output. *)
Inductive event : Type :=
| LogScanning                          (* console.log, start of the run *)
| WarnTitleMissing (entryPath : jstr)  (* console.warn *)
| LogExcluded (entryPath : jstr)       (* console.log *)
| WarnSitemapTagMissing (entryPath : jstr)  (* console.warn *)
| LogExportComplete (outputFile : jstr)     (* console.log *)
| ErrorExportFailed (err : error).          (* console.error *)

Inductive outcome (A : Type) : Type :=
| Returned (a : A)
| Thrown (e : error).
Arguments Thrown {A} e.

(** [title || entry.name]: [null] and the empty string are falsy. *)
Definition title_or (title : option jstr) (fallback : jstr) : jstr :=
  match title with
  | Some ((_ :: _) as t) => t
  | _ => fallback
  end.

Definition falsy (title : option jstr) : bool :=
  match title with
  | Some (_ :: _) => false
  | _ => true
  end.

(* ================================================================== *)
(** ** The tree builder *)

Definition walked := (list event * outcome (list node))%type.
Definition built := (list event * outcome (option node))%type.

Section Walk.

(** The recursive call [buildTree(entryPath, ...)] on a subdirectory. *)
Variable recur : jstr -> jstr -> dir -> built.

(** The loop [for (const entry of entries)] of one call: [children] is
    the array built so far and [out] the console output so far. *)
Fixpoint walk (currentPath relativePath : jstr) (es : list entry)
  (children : list node) (out : list event) {struct es} : walked :=
  let name := basename currentPath in
  match es with
  | [] => (out, Returned children)
  | entry :: es' =>
      let entryPath := join [currentPath; entry_name entry] in
      let entryRelPath :=
        replace_backslashes (join [relativePath; name; entry_name entry]) in
      match entry with
      | EDir _ sub =>
          match recur entryPath (join [relativePath; name]) sub with
          | (o, Returned (Some child)) =>
              walk currentPath relativePath es' (children ++ [child]) (out ++ o)
          | (o, Returned None) =>
              walk currentPath relativePath es' children (out ++ o)
          | (o, Thrown e) => (out ++ o, Thrown e)
          end
      | EFile ename content =>
          if endsWith ename (lit ".html") then
            match content with
            | None => (out, Thrown (ReadFileFailed entryPath))
            | Some html =>
                let title := extractTitle html in
                let meta := checkSitemapMeta html in
                if include meta then
                  walk currentPath relativePath es'
                    (children ++
                       [Page ename entryRelPath (title_or title ename) true])
                    (if falsy title then out ++ [WarnTitleMissing entryPath]
                     else out)
                else if exclude meta then
                  walk currentPath relativePath es' children
                    (out ++ [LogExcluded entryPath])
                else
                  walk currentPath relativePath es' children
                    (out ++ [WarnSitemapTagMissing entryPath])
            end
          else walk currentPath relativePath es' children out
      | EOther _ => walk currentPath relativePath es' children out
      end
  end.

End Walk.

(** [buildTree(currentPath, relativePath)], where [d] is what
    [readdirSync(currentPath)] finds.  The result is the console output of
    the call and either the returned node ([None] is [null]) or the
    exception that ended it. *)
Fixpoint buildTree (currentPath relativePath : jstr) (d : dir) {struct d} : built :=
  let name := basename currentPath in
  match d with
  | Unreadable => ([], Thrown (ReaddirFailed currentPath))
  | Readable entries =>
      match walk buildTree currentPath relativePath entries [] [] with
      | (out, Returned children) =>
          if (0 <? length children)%nat
          then (out, Returned (Some (Folder name children)))
          else (out, Returned None)
      | (out, Thrown e) => (out, Thrown e)
      end
  end.

(* ================================================================== *)
(** ** The serializer: [JSON.stringify(tree, null, 2)] *)

Definition NL : cu := 10.

Definition hex_digit (d : N) : cu := if d <? 10 then 48 + d else 87 + d.

(** [\uXXXX] with lower-case digits. *)
Definition unicode_escape (c : cu) : jstr :=
  [BACKSLASH; 117; hex_digit (c / 4096 mod 16); hex_digit (c / 256 mod 16);
   hex_digit (c / 16 mod 16); hex_digit (c mod 16)].

Definition is_high_surrogate (c : cu) : bool := (55296 <=? c) && (c <=? 56319).
Definition is_low_surrogate (c : cu) : bool := (56320 <=? c) && (c <=? 57343).

(** QuoteJSONString, without the surrounding quotes: the short escapes,
    [\uXXXX] for the other control characters and for a surrogate that is
    not part of a pair, everything else as it is. *)
Fixpoint quote_chars (s : jstr) : jstr :=
  match s with
  | [] => []
  | c :: s' =>
      if is_high_surrogate c then
        match s' with
        | d :: s'' =>
            if is_low_surrogate d then c :: d :: quote_chars s''
            else unicode_escape c ++ quote_chars s'
        | [] => unicode_escape c
        end
      else if is_low_surrogate c then unicode_escape c ++ quote_chars s'
      else if c =? 8 then BACKSLASH :: 98 :: quote_chars s'
      else if c =? 9 then BACKSLASH :: 116 :: quote_chars s'
      else if c =? 10 then BACKSLASH :: 110 :: quote_chars s'
      else if c =? 12 then BACKSLASH :: 102 :: quote_chars s'
      else if c =? 13 then BACKSLASH :: 114 :: quote_chars s'
      else if c =? QUOTE then BACKSLASH :: QUOTE :: quote_chars s'
      else if c =? BACKSLASH then BACKSLASH :: BACKSLASH :: quote_chars s'
      else if c <? 32 then unicode_escape c ++ quote_chars s'
      else c :: quote_chars s'
  end.

Definition quoteJSON (s : jstr) : jstr := QUOTE :: quote_chars s ++ [QUOTE].

(** A property line: indentation, quoted key, colon, space, value. *)
Definition property (indent : jstr) (key : string) (value : jstr) : jstr :=
  indent ++ quoteJSON (lit key) ++ lit ": " ++ value.

(** SerializeJSONObject / SerializeJSONArray with a gap of two spaces;
    the properties come in the order they were created. *)
Fixpoint serialize (indent : jstr) (n : node) {struct n} : jstr :=
  let stepback := indent in
  let indent := indent ++ lit "  " in
  match n with
  | Page name path title sitemap =>
      lit "{" ++ [NL]
      ++ property indent "name" (quoteJSON name) ++ lit "," ++ [NL]
      ++ property indent "path" (quoteJSON path) ++ lit "," ++ [NL]
      ++ property indent "title" (quoteJSON title) ++ lit "," ++ [NL]
      ++ property indent "sitemap" (if sitemap then lit "true" else lit "false")
      ++ [NL] ++ stepback ++ lit "}"
  | Folder name children =>
      let items :=
        match children with
        | [] => lit "[]"
        | _ =>
            let inner := indent ++ lit "  " in
            lit "[" ++ [NL]
            ++ (fix elems (l : list node) : jstr :=
                  match l with
                  | [] => []
                  | [x] => inner ++ serialize inner x
                  | x :: l' => inner ++ serialize inner x ++ lit "," ++ [NL] ++ elems l'
                  end) children
            ++ [NL] ++ indent ++ lit "]"
        end in
      lit "{" ++ [NL]
      ++ property indent "name" (quoteJSON name) ++ lit "," ++ [NL]
      ++ property indent "children" items
      ++ [NL] ++ stepback ++ lit "}"
  end.

Definition JSON_stringify (tree : option node) : jstr :=
  match tree with
  | None => lit "null"
  | Some n => serialize [] n
  end.

(* ================================================================== *)
(** ** The run *)

(** The execution block of the script.  [cwd] is [process.cwd()] and [fs]
    the file system from its root; the result is the console output and
    the file system the run leaves behind. *)
Definition outputFile (rootDir : jstr) : jstr :=
  join [rootDir; lit "assets"; lit "data"; lit "tree.json"].

Definition run (cwd : jstr) (fs : dir) : list event * dir :=
  let rootDir := cwd in
  let outputFile := outputFile rootDir in
  match buildTree rootDir [] (dir_at fs (segments rootDir)) with
  | (out, Returned tree) =>
      match writeFileSync fs outputFile (JSON_stringify tree) with
      | Some fs' => (LogScanning :: out ++ [LogExportComplete outputFile], fs')
      | None =>
          (LogScanning :: out ++ [ErrorExportFailed (WriteFileFailed outputFile)], fs)
      end
  | (out, Thrown e) => (LogScanning :: out ++ [ErrorExportFailed e], fs)
  end.

(* ================================================================== *)
(** ** Vocabulary of the specification *)

(** The verdict of the classifier, as the builder's decision chain reads
    the two flags: [if (include) ... else if (exclude) ... else ...]. *)
Inductive verdict : Type := Include | Exclude | Unspecified.

Definition classify (html : jstr) : verdict :=
  let meta := checkSitemapMeta html in
  if include meta then Include
  else if exclude meta then Exclude
  else Unspecified.

Definition is_Include (v : verdict) : bool :=
  match v with Include => true | _ => false end.

(** A page file met by the walk: a regular file whose name ends in
    [.html], with the arguments of the [buildTree] call that meets it. *)
Record page_file : Type := {
  pf_currentPath : jstr;
  pf_relativePath : jstr;
  pf_name : jstr;
  pf_html : jstr
}.

(** The readable page files below a directory, in the order of the walk. *)
Fixpoint pages (currentPath relativePath : jstr) (d : dir) {struct d} : list page_file :=
  match d with
  | Unreadable => []
  | Readable entries =>
      flat_map (fun e =>
        match e with
        | EDir n sub =>
            pages (join [currentPath; n])
                  (join [relativePath; basename currentPath]) sub
        | EFile n (Some html) =>
            if endsWith n (lit ".html")
            then [{| pf_currentPath := currentPath; pf_relativePath := relativePath;
                     pf_name := n; pf_html := html |}]
            else []
        | _ => []
        end) entries
  end.

Definition included (pf : page_file) : bool := is_Include (classify (pf_html pf)).

(** The path the builder gives a page. *)
Definition page_path (pf : page_file) : jstr :=
  replace_backslashes
    (join [pf_relativePath pf; basename (pf_currentPath pf); pf_name pf]).

(** The leaf node the builder makes for a page. *)
Definition leaf_of (pf : page_file) : node :=
  Page (pf_name pf) (page_path pf)
       (title_or (extractTitle (pf_html pf)) (pf_name pf)) true.

(** A call of [buildTree] made during the walk: its two arguments and the
    directory it lists. *)
Record call : Type := {
  call_currentPath : jstr;
  call_relativePath : jstr;
  call_dir : dir
}.

(** The call on a directory and the calls on every directory below it. *)
Fixpoint calls (currentPath relativePath : jstr) (d : dir) {struct d} : list call :=
  {| call_currentPath := currentPath; call_relativePath := relativePath;
     call_dir := d |} ::
  match d with
  | Unreadable => []
  | Readable entries =>
      flat_map (fun e =>
        match e with
        | EDir n sub =>
            calls (join [currentPath; n])
                  (join [relativePath; basename currentPath]) sub
        | _ => []
        end) entries
  end.


Definition call_result (c : call) : built :=
  buildTree (call_currentPath c) (call_relativePath c) (call_dir c).

(** All nodes of a tree, the root first. *)
Fixpoint nodes (n : node) : list node :=
  n :: match n with
       | Page _ _ _ _ => []
       | Folder _ children => flat_map nodes children
       end.

(** The page nodes of a tree, in order. *)
Fixpoint leaves (n : node) : list node :=
  match n with
  | Page _ _ _ _ => [n]
  | Folder _ children => flat_map leaves children
  end.

Definition tree_nodes (t : option node) : list node :=
  match t with Some n => nodes n | None => [] end.

Definition tree_leaves (t : option node) : list node :=
  match t with Some n => leaves n | None => [] end.

(** What one entry adds to [children]; [None] when handling it throws. *)
Definition entry_nodes (currentPath relativePath : jstr) (e : entry)
  : option (list node) :=
  match e with
  | EDir n sub =>
      match snd (buildTree (join [currentPath; n])
                   (join [relativePath; basename currentPath]) sub) with
      | Returned (Some child) => Some [child]
      | Returned None => Some []
      | Thrown _ => None
      end
  | EFile n content =>
      if endsWith n (lit ".html") then
        match content with
        | None => None
        | Some html =>
            let pf := {| pf_currentPath := currentPath;
                         pf_relativePath := relativePath;
                         pf_name := n; pf_html := html |} in
            Some (if included pf then [leaf_of pf] else [])
        end
      else Some []
  | EOther _ => Some []
  end.


(* ================================================================== *)
(** ** The page grammar of the specification *)

(** [s] is [a] followed by [b], with [a] in [P] and [b] in [Q]. *)
Definition cat (P Q : jstr -> Prop) (s : jstr) : Prop :=
  exists a b, s = a ++ b /\ P a /\ Q b.

(** [s] is the word [w] up to letter case. *)
Definition ci (w : jstr) (s : jstr) : Prop :=
  Forall2 (fun p x => char_matches true p x = true) w s.

Definition quote_mark (s : jstr) : Prop := s = [QUOTE] \/ s = [APOS].
Definition spaces (s : jstr) : Prop := Forall (fun c => is_space c = true) s.
Definition spaces1 (s : jstr) : Prop := s <> [] /\ spaces s.

Definition name_attr : jstr -> Prop :=
  cat (ci (lit "name=")) (cat quote_mark (cat (ci (lit "sitemap")) quote_mark)).

Definition content_attr (value : jstr) : jstr -> Prop :=
  cat (ci (lit "content=")) (cat quote_mark (cat (ci value) quote_mark)).

(** Optional whitespace, an optional self-closing slash, [>]. *)
Definition tag_end : jstr -> Prop :=
  cat spaces (cat (fun s => s = [] \/ s = [SLASH]) (fun s => s = [62])).

(** A sitemap directive with the given content value: a meta declaration
    with the two attributes, the name first or the content first. *)
Definition directive (name_first : bool) (value : jstr) : jstr -> Prop :=
  cat (ci (lit "<meta"))
    (cat spaces1
       (if name_first
        then cat name_attr (cat spaces1 (cat (content_attr value) tag_end))
        else cat (content_attr value) (cat spaces1 (cat name_attr tag_end)))).

Definition no_line_terminator (t : jstr) : Prop :=
  Forall (fun c => is_line_terminator c = false) t.

(** A title pair in [html]: an opening delimiter right after [pre], the
    content [t] free of line terminators, a closing delimiter, then
    [post]; the delimiters in any letter case. *)
Definition title_at (html pre t post : jstr) : Prop :=
  exists o c,
    html = pre ++ o ++ t ++ c ++ post /\
    ci (lit "<title>") o /\ ci (lit "</title>") c /\ no_line_terminator t.

(** The first title pair: no pair opens earlier, and none that opens at
    the same place closes earlier. *)
Definition first_title (html pre t post : jstr) : Prop :=
  title_at html pre t post /\
  forall pre' t' post',
    title_at html pre' t' post' ->
    (length pre < length pre')%nat \/
    (length pre = length pre' /\ (length t <= length t')%nat).

(** The text contains a piece in [P]. *)
Definition contains (P : jstr -> Prop) (html : jstr) : Prop :=
  exists pre mid post, html = pre ++ mid ++ post /\ P mid.

(** The language of a pattern. *)
Inductive star (P : jstr -> Prop) : jstr -> Prop :=
| star_nil : star P []
| star_app a b : P a -> star P b -> star P (a ++ b).

Definition single (p : cu -> bool) (s : jstr) : Prop :=
  exists x, s = [x] /\ p x = true.

Fixpoint Lang (ignoreCase : bool) (r : regex) : jstr -> Prop :=
  match r with
  | REmpty => fun s => s = []
  | RChar p => single (char_matches ignoreCase p)
  | RDot => single (fun x => negb (is_line_terminator x))
  | RSpace => single is_space
  | RSet cs => single (fun x => existsb (fun p => char_matches ignoreCase p x) cs)
  | RSeq r1 r2 => cat (Lang ignoreCase r1) (Lang ignoreCase r2)
  | RStar _ r1 => star (Lang ignoreCase r1)
  | ROpt _ r1 => fun s => s = [] \/ Lang ignoreCase r1 s
  | RGroup _ r1 => Lang ignoreCase r1
  end.

(** What is left of [s] after the pattern word [w] at its front. *)
Fixpoint lit_prefix (ignoreCase : bool) (w s : jstr) : option jstr :=
  match w with
  | [] => Some s
  | p :: w' =>
      match s with
      | x :: s' => if char_matches ignoreCase p x then lit_prefix ignoreCase w' s' else None
      | [] => None
      end
  end.

(** A page with the directive written content first. *)
Definition page_content_first : jstr :=
  lit "<meta content='include' name='sitemap'>".

(** Some access of the walk fails: a directory that cannot be listed or a
    page file that cannot be read, at any depth.  Files that are not page
    files are never opened. *)
Fixpoint unreadable_inside (d : dir) : bool :=
  match d with
  | Unreadable => true
  | Readable entries =>
      existsb (fun e =>
        match e with
        | EDir _ sub => unreadable_inside sub
        | EFile n None => endsWith n (lit ".html")
        | _ => false
        end) entries
  end.

Definition is_read_error (e : error) : Prop :=
  match e with
  | ReaddirFailed _ | ReadFileFailed _ => True
  | WriteFileFailed _ => False
  end.

(* ================================================================== *)
(** ** Sample inputs *)

Definition tag (name value : string) : jstr :=
  lit "<meta name='" ++ lit name ++ lit "' content='" ++ lit value ++ lit "'>".

Definition page_include : jstr :=
  lit "<html><head><title> A </title>" ++ tag "sitemap" "include" ++ lit "</head></html>".
Definition page_exclude : jstr :=
  lit "<html><head><title>B</title>" ++ tag "sitemap" "exclude" ++ lit "</head></html>".
Definition page_unmarked : jstr := lit "<html><head><title>C</title></head></html>".
Definition page_both : jstr :=
  lit "<title>Both</title>" ++ tag "sitemap" "exclude" ++ tag "sitemap" "include".
Definition page_blank_title : jstr :=
  lit "<TITLE>   </TITLE><META NAME='sitemap' CONTENT='include' />".

Definition sample_y : dir :=
  Readable
    [EFile (lit "z.html") (Some page_blank_title);
     EFile (lit "both.html") (Some page_both)].

Definition sample_x : dir := Readable [EDir (lit "y") sample_y].

(** The project of the first two scenarios of the specification, with an
    output directory. *)
Definition sample_project : dir :=
  Readable
    [EFile (lit "a.html") (Some page_include);
     EFile (lit "notes.txt") None;
     EDir (lit "sub") (Readable
       [EFile (lit "b.html") (Some page_exclude);
        EFile (lit "c.html") (Some page_unmarked)]);
     EDir (lit "x") sample_x;
     EDir (lit "assets") (Readable
       [EDir (lit "data") (Readable [EFile (lit "tree.json") (Some (lit "old"))])])].

Definition in_home (project : dir) : dir :=
  Readable [EDir (lit "home") (Readable [EDir (lit "proj") project])].

Definition sample_cwd : jstr := lit "/home/proj".

(** A project without any included page. *)
Definition empty_project : dir :=
  Readable
    [EFile (lit "b.html") (Some page_exclude);
     EDir (lit "assets") (Readable [EDir (lit "data") (Readable [])])].

(** A project with an included page and no [assets/data] directory. *)
Definition project_without_output_dir : dir :=
  Readable [EFile (lit "a.html") (Some page_include)].

(** A project with a page that cannot be read. *)
Definition project_unreadable : dir :=
  Readable
    [EFile (lit "a.html") (Some page_include);
     EDir (lit "sub") (Readable [EFile (lit "locked.html") None]);
     EDir (lit "assets") (Readable
       [EDir (lit "data") (Readable [EFile (lit "tree.json") (Some (lit "old"))])])].

Definition sample_result : built :=
  Eval vm_compute in buildTree sample_cwd [] sample_project.

Definition sample_out : list event := fst sample_result.

Definition sample_tree : option node :=
  match snd sample_result with
  | Returned t => t
  | Thrown _ => None
  end.


(** Pages of the sample project, as the walk meets them. *)
Definition sample_page (dirPath rel name : string) (html : jstr) : page_file :=
  {| pf_currentPath := lit dirPath; pf_relativePath := lit rel;
     pf_name := lit name; pf_html := html |}.

Definition blank_title_page : page_file :=
  sample_page "/home/proj/x/y" "proj/x" "z.html" page_blank_title.

(** The file system the run leaves for the project without included pages. *)
Definition empty_project_written : dir :=
  Eval vm_compute in snd (run sample_cwd (in_home empty_project)).

(* ================================================================== *)
(** ** Vocabulary for the page paths *)

Definition no_slash (s : jstr) : bool := forallb (fun c => negb (c =? SLASH)) s.

(** A name [readdirSync] can return, or a component of [process.cwd()]:
    not empty, without a slash, and neither [.] nor [..]. *)
Definition valid_name (s : jstr) : bool :=
  negb (is_empty s) && no_slash s
  && negb (jstr_eqb s [DOT]) && negb (jstr_eqb s [DOT; DOT]).

(** The absolute path with the given components; [/] when there is none. *)
Definition abs_path (segs : list jstr) : jstr := SLASH :: intercalate [SLASH] segs.

(** A page file below a directory: the names of the directories that lead
    to it, its name and its text. *)
Inductive page_at : dir -> list jstr -> jstr -> jstr -> Prop :=
| page_here es n html :
    In (EFile n (Some html)) es -> endsWith n (lit ".html") = true ->
    page_at (Readable es) [] n html
| page_below es dn sub dirs n html :
    In (EDir dn sub) es -> page_at sub dirs n html ->
    page_at (Readable es) (dn :: dirs) n html.

(** The slash join of the base name of the scan root, the directory names
    and the file name, as it stands. *)
Definition joined_names (cwd : jstr) (dirs : list jstr) (n : jstr) : jstr :=
  intercalate [SLASH] (basename cwd :: dirs ++ [n]).

(** The same join without an empty base name (the scan root [/]). *)
Definition joined_nonempty_names (cwd : jstr) (dirs : list jstr) (n : jstr) : jstr :=
  intercalate [SLASH]
    (filter (fun a => negb (is_empty a)) (basename cwd :: dirs ++ [n])).

(** The arguments of the call reached from [(cur, rel)] through the
    directories [dirs]. *)
Fixpoint descend (cur : jstr) (dirs : list jstr) : jstr :=
  match dirs with
  | [] => cur
  | dn :: dirs' => descend (join [cur; dn]) dirs'
  end.

Fixpoint descend_rel (cur rel : jstr) (dirs : list jstr) : jstr :=
  match dirs with
  | [] => rel
  | dn :: dirs' => descend_rel (join [cur; dn]) (join [rel; basename cur]) dirs'
  end.

(** A project with an included page whose name holds a backslash. *)
Definition backslash_project : dir :=
  Readable [EFile (lit "a\b.html") (Some page_include)].

(** A path segment that normalization keeps: not empty and not [.]. *)
Definition kept (s : jstr) : bool := negb (is_empty s) && negb (jstr_eqb s [DOT]).

(** A segment of a relative path as the walk builds them: a valid name or
    a single dot. *)
Definition segment_ok (s : jstr) : Prop :=
  s <> [] /\ no_slash s = true /\ jstr_eqb s [DOT; DOT] = false.

(** [x] as a list of names, or no name when it is empty. *)
Definition nonempty_only (x : jstr) : list jstr := if is_empty x then [] else [x].

(** The relative path handed down by the walk, against the names it
    stands for: empty at the scan root, a single dot while no name was not
    empty, their slash join otherwise. *)
Definition rel_ok (rel : jstr) (crumbs : list jstr) : Prop :=
  (crumbs = [] /\ (rel = [] \/ rel = [DOT])) \/
  (crumbs <> [] /\ rel = intercalate [SLASH] crumbs).

(* ================================================================== *)
(** ** Console output of the walk *)

(** What the walk prints for a page file: a warning for an included page
    whose title is missing or empty, a note for an excluded page, a warning
    for a page without a directive. *)
Definition page_events (pf : page_file) : list event :=
  let entryPath := join [pf_currentPath pf; pf_name pf] in
  match classify (pf_html pf) with
  | Include =>
      if falsy (extractTitle (pf_html pf)) then [WarnTitleMissing entryPath] else []
  | Exclude => [LogExcluded entryPath]
  | Unspecified => [WarnSitemapTagMissing entryPath]
  end.

(** An entry the walk passes over: neither a directory nor a page file. *)
Definition passed_over (e : entry) : bool :=
  match e with
  | EDir _ _ => false
  | EFile n _ => negb (endsWith n (lit ".html"))
  | EOther _ => true
  end.

(** The loop of [buildTree] on a listing, from empty accumulators. *)
Definition walk_from_start (cur rel : jstr) (es : list entry) : walked :=
  walk buildTree cur rel es [] [].

(** The first two entries of the project with a page that cannot be read,
    and the entry after them. *)
Definition unreadable_front : list entry :=
  [EFile (lit "a.html") (Some page_include);
   EDir (lit "sub") (Readable [EFile (lit "locked.html") None])].

Definition unreadable_back : list entry :=
  [EDir (lit "assets") (Readable
     [EDir (lit "data") (Readable [EFile (lit "tree.json") (Some (lit "old"))])])].

(** A directory below another one, with the names that lead to it. *)
Inductive dir_below : dir -> list jstr -> dir -> Prop :=
| dir_itself d : dir_below d [] d
| dir_deeper es dn sub dirs d' :
    In (EDir dn sub) es -> dir_below sub dirs d' ->
    dir_below (Readable es) (dn :: dirs) d'.

(* ================================================================== *)
(** ** The index exporter, [export-index-tree.js] *)

(** A member of a [children] array of the index exporters: the name of a
    file, or the object of a directory with its optional [indexPath],
    [title] and [children] properties ([children] is left out when it
    would be empty). *)
Inductive item : Type :=
| ItemFile (name : jstr)
| ItemDir (name : jstr) (indexPath title : option jstr) (children : list item).

(** [c] lower-cased, for a comparison with an ASCII word: [toLowerCase]
    turns no character at or above 128 into a letter of [index.html]. *)
Definition ascii_lower (c : cu) : cu :=
  if (65 <=? c) && (c <=? 90) then c + 32 else c.

(** [name.toLowerCase() === 'index.html'] *)
Definition is_index_name (n : jstr) : bool :=
  jstr_eqb (map ascii_lower n) (lit "index.html").

(** [e.isFile() && e.name.toLowerCase() === 'index.html'] *)
Definition is_index_file (e : entry) : bool :=
  match e with
  | EFile n _ => is_index_name n
  | _ => false
  end.

Section IndexChildren.

(** The recursive call on a subdirectory. *)
Variable recur : jstr -> jstr -> dir -> outcome item.

(** The loop over the entries: a directory adds the object of the
    recursive call, a regular file its name, anything else nothing. *)
Fixpoint index_children (dirPath relativePath : jstr) (es : list entry)
  (children : list item) {struct es} : outcome (list item) :=
  let name := basename dirPath in
  match es with
  | [] => Returned children
  | entry :: es' =>
      match entry with
      | EDir ename sub =>
          let childDir := join [dirPath; ename] in
          let childRelative := join [relativePath; name] in
          match recur childDir childRelative sub with
          | Returned child =>
              index_children dirPath relativePath es' (children ++ [child])
          | Thrown e => Thrown e
          end
      | EFile ename _ =>
          index_children dirPath relativePath es' (children ++ [ItemFile ename])
      | EOther _ => index_children dirPath relativePath es' children
      end
  end.

End IndexChildren.

(** [buildTree(dirPath, relativePath)] of [export-index-tree.js]. *)
Fixpoint buildIndexTree (dirPath relativePath : jstr) (d : dir) {struct d}
  : outcome item :=
  let name := basename dirPath in
  match d with
  | Unreadable => Thrown (ReaddirFailed dirPath)
  | Readable entries =>
      let hasIndex := existsb is_index_file entries in
      let indexPath :=
        if hasIndex
        then Some (replace_backslashes (join [relativePath; name; lit "index.html"]))
        else None in
      match index_children buildIndexTree dirPath relativePath entries [] with
      | Returned children => Returned (ItemDir name indexPath None children)
      | Thrown e => Thrown e
      end
  end.

(** JSON values and [JSON.stringify(value, null, 2)]. *)
Inductive json : Type :=
| JNull
| JBool (b : bool)
| JString (s : jstr)
| JArray (elements : list json)
| JObject (properties : list (string * json)).

Fixpoint stringify_json (indent : jstr) (v : json) {struct v} : jstr :=
  let stepback := indent in
  let indent := indent ++ lit "  " in
  match v with
  | JNull => lit "null"
  | JBool b => if b then lit "true" else lit "false"
  | JString s => quoteJSON s
  | JArray elements =>
      match elements with
      | [] => lit "[]"
      | _ =>
          lit "[" ++ [NL] ++ indent
          ++ (fix elems (l : list json) : jstr :=
                match l with
                | [] => []
                | [x] => stringify_json indent x
                | x :: l' =>
                    stringify_json indent x ++ lit "," ++ [NL] ++ indent ++ elems l'
                end) elements
          ++ [NL] ++ stepback ++ lit "]"
      end
  | JObject properties =>
      match properties with
      | [] => lit "{}"
      | _ =>
          lit "{" ++ [NL] ++ indent
          ++ (fix props (l : list (string * json)) : jstr :=
                match l with
                | [] => []
                | [(k, x)] => quoteJSON (lit k) ++ lit ": " ++ stringify_json indent x
                | (k, x) :: l' =>
                    quoteJSON (lit k) ++ lit ": " ++ stringify_json indent x
                    ++ lit "," ++ [NL] ++ indent ++ props l'
                end) properties
          ++ [NL] ++ stepback ++ lit "}"
      end
  end.

Definition optional_property (key : string) (value : option jstr)
  : list (string * json) :=
  match value with
  | Some s => [(key, JString s)]
  | None => []
  end.

(** The JSON value of a tree of the index exporters, the properties in
    the order the scripts set them. *)
Fixpoint item_json (t : item) : json :=
  match t with
  | ItemFile name => JString name
  | ItemDir name indexPath title children =>
      JObject
        ([("name"%string, JString name)]
         ++ optional_property "indexPath" indexPath
         ++ optional_property "title" title
         ++ match children with
            | [] => []
            | _ => [("children"%string, JArray (map item_json children))]
            end)
  end.

(** [fs.mkdirSync(p, { recursive: true })]: the missing directories of the
    path are created; a component that is there and is not a directory, or
    a directory on the way that cannot be listed, makes it throw
    ([None]). *)
Fixpoint mkdir_p (segs : list jstr) (fs : dir) : option dir :=
  match segs with
  | [] => Some fs
  | seg :: rest =>
      match fs with
      | Unreadable => None
      | Readable es =>
          match find_entry seg es with
          | Some (EDir _ sub) =>
              match mkdir_p rest sub with
              | Some sub' => Some (Readable (put_entry seg (EDir seg sub') es))
              | None => None
              end
          | None =>
              match mkdir_p rest (Readable []) with
              | Some sub' => Some (Readable (put_entry seg (EDir seg sub') es))
              | None => None
              end
          | Some _ => None
          end
      end
  end.

Definition mkdirSync_recursive (fs : dir) (p : jstr) : option dir :=
  mkdir_p (segments p) fs.

Inductive index_error : Type :=
| WalkOrWriteFailed (e : error)
| MkdirFailed (p : jstr).

(** The console lines of the index exporters. *)
Inductive index_event : Type :=
| IndexScanning
| IndexExported (outputFile : jstr)
| IndexFailed (err : index_error)
| WarnCouldNotRead (indexPath : jstr)
| WarnNoTitle (indexPath : jstr).

Definition outputDir (rootDir : jstr) : jstr :=
  join [rootDir; lit "assets"; lit "data"].

Definition indexOutputFile (rootDir : jstr) : jstr :=
  join [outputDir rootDir; lit "tree.json"].

(** The execution block of [export-index-tree.js]. *)
Definition run_index (cwd : jstr) (fs : dir) : list index_event * dir :=
  let rootDir := cwd in
  match buildIndexTree rootDir [] (dir_at fs (segments rootDir)) with
  | Returned tree =>
      match mkdirSync_recursive fs (outputDir rootDir) with
      | Some fs1 =>
          match writeFileSync fs1 (indexOutputFile rootDir)
                  (stringify_json [] (item_json tree)) with
          | Some fs2 => ([IndexScanning; IndexExported (indexOutputFile rootDir)], fs2)
          | None =>
              ([IndexScanning;
                IndexFailed (WalkOrWriteFailed (WriteFileFailed (indexOutputFile rootDir)))],
               fs1)
          end
      | None => ([IndexScanning; IndexFailed (MkdirFailed (outputDir rootDir))], fs)
      end
  | Thrown e => ([IndexScanning; IndexFailed (WalkOrWriteFailed e)], fs)
  end.

(** All members of a tree of the index exporters, the root first. *)
Fixpoint items (t : item) : list item :=
  t :: match t with
       | ItemFile _ => []
       | ItemDir _ _ _ children => flat_map items children
       end.

(** The file names in a tree, in order. *)
Fixpoint item_files (t : item) : list jstr :=
  match t with
  | ItemFile n => [n]
  | ItemDir _ _ _ children => flat_map item_files children
  end.

(** The number of directory objects in a tree. *)
Fixpoint item_dirs (t : item) : nat :=
  match t with
  | ItemFile _ => 0%nat
  | ItemDir _ _ _ children => S (list_sum (map item_dirs children))
  end.

(** The names of the regular files below a directory, in the order of the
    walk, and the number of directories below it. *)
Fixpoint listed_files (d : dir) : list jstr :=
  match d with
  | Unreadable => []
  | Readable entries =>
      flat_map (fun e =>
        match e with
        | EDir _ sub => listed_files sub
        | EFile n _ => [n]
        | EOther _ => []
        end) entries
  end.

Fixpoint listed_dirs (d : dir) : nat :=
  match d with
  | Unreadable => 0%nat
  | Readable entries =>
      list_sum (map (fun e =>
        match e with
        | EDir _ sub => S (listed_dirs sub)
        | _ => 0%nat
        end) entries)
  end.

(** Some directory, at any depth, cannot be listed. *)
Fixpoint unlistable_inside (d : dir) : bool :=
  match d with
  | Unreadable => true
  | Readable entries =>
      existsb (fun e =>
        match e with
        | EDir _ sub => unlistable_inside sub
        | _ => false
        end) entries
  end.

(** A project whose pages cannot be read and whose index file is written
    in capitals. *)
Definition locked_project : dir :=
  Readable
    [EFile (lit "INDEX.HTML") None;
     EDir (lit "docs") (Readable
       [EFile (lit "index.html") None; EOther (lit "link")])].

(* ================================================================== *)
(** ** The index exporter with page titles *)

(** [extractTitleFromIndex(indexPath)], [content] being what
    [readFileSync(indexPath)] finds ([None]: it throws, which is caught
    here).  The title is returned when the pattern matches and the
    captured text is not empty. *)
Definition extractTitleFromIndex (indexPath : jstr) (content : option jstr)
  : list index_event * option jstr :=
  match content with
  | None => ([WarnCouldNotRead indexPath], None)
  | Some html =>
      match exec true title_re html with
      | Some c =>
          match capture 1 c with
          | Some ((_ :: _) as t) => ([], Some (trim t))
          | _ => ([], None)
          end
      | None => ([], None)
      end
  end.

(** [e.isFile() && e.name === 'index.html'] *)
Definition is_exact_index_file (e : entry) : bool :=
  match e with
  | EFile n _ => jstr_eqb n (lit "index.html")
  | _ => false
  end.

(** What reading [index.html] of a directory gives: the content of the
    entry of that name when it is a file that can be read. *)
Definition index_content (es : list entry) : option jstr :=
  match find_entry (lit "index.html") es with
  | Some (EFile _ content) => content
  | _ => None
  end.

Definition titled := (list index_event * outcome item)%type.

Section TitleChildren.

Variable recur : jstr -> jstr -> dir -> titled.

Fixpoint title_children (currentPath relativePath : jstr) (es : list entry)
  (children : list item) (out : list index_event) {struct es}
  : list index_event * outcome (list item) :=
  let name := basename currentPath in
  match es with
  | [] => (out, Returned children)
  | entry :: es' =>
      let entryPath := join [currentPath; entry_name entry] in
      match entry with
      | EDir _ sub =>
          match recur entryPath (join [relativePath; name]) sub with
          | (o, Returned child) =>
              title_children currentPath relativePath es' (children ++ [child]) (out ++ o)
          | (o, Thrown e) => (out ++ o, Thrown e)
          end
      | EFile ename _ =>
          title_children currentPath relativePath es' (children ++ [ItemFile ename]) out
      | EOther _ => title_children currentPath relativePath es' children out
      end
  end.

End TitleChildren.

(** The [indexPath] and [title] properties of a directory, with the
    warnings printed for them. *)
Definition index_properties (currentPath relativePath : jstr) (entries : list entry)
  : list index_event * option jstr * option jstr :=
  let name := basename currentPath in
  if existsb is_exact_index_file entries then
    let indexPath := join [currentPath; lit "index.html"] in
    let relativeIndexPath :=
      replace_backslashes (join [relativePath; name; lit "index.html"]) in
    match extractTitleFromIndex indexPath (index_content entries) with
    | (o, Some ((_ :: _) as pageTitle)) => (o, Some relativeIndexPath, Some pageTitle)
    | (o, _) => (o ++ [WarnNoTitle indexPath], Some relativeIndexPath, None)
    end
  else ([], None, None).

(** [buildTree(currentPath, relativePath)] of the exporter with titles. *)
Fixpoint buildTitleTree (currentPath relativePath : jstr) (d : dir) {struct d}
  : titled :=
  let name := basename currentPath in
  match d with
  | Unreadable => ([], Thrown (ReaddirFailed currentPath))
  | Readable entries =>
      match index_properties currentPath relativePath entries with
      | (out, indexPath, title) =>
          match title_children buildTitleTree currentPath relativePath entries [] out with
          | (o, Returned children) => (o, Returned (ItemDir name indexPath title children))
          | (o, Thrown e) => (o, Thrown e)
          end
      end
  end.

(** The execution block of the exporter with titles: no directory is
    created before the write. *)
Definition run_title (cwd : jstr) (fs : dir) : list index_event * dir :=
  let rootDir := cwd in
  let outputFile := outputFile rootDir in
  match buildTitleTree rootDir [] (dir_at fs (segments rootDir)) with
  | (out, Returned tree) =>
      match writeFileSync fs outputFile (stringify_json [] (item_json tree)) with
      | Some fs' => (IndexScanning :: out ++ [IndexExported outputFile], fs')
      | None =>
          (IndexScanning :: out
             ++ [IndexFailed (WalkOrWriteFailed (WriteFileFailed outputFile))], fs)
      end
  | (out, Thrown e) =>
      (IndexScanning :: out ++ [IndexFailed (WalkOrWriteFailed e)], fs)
  end.

(** A tree without its [indexPath] and [title] properties. *)
Fixpoint skeleton (t : item) : item :=
  match t with
  | ItemFile n => ItemFile n
  | ItemDir name _ _ children => ItemDir name None None (map skeleton children)
  end.

(** A project with index pages: one titled, one with a blank title, one
    that cannot be read. *)
Definition titled_project : dir :=
  Readable
    [EFile (lit "index.html") (Some (lit "<title> Start </title>"));
     EDir (lit "blank") (Readable
       [EFile (lit "index.html") (Some (lit "<title>   </title>"))]);
     EDir (lit "locked") (Readable [EFile (lit "index.html") None])].

(** Two outcomes of the index exporters agree: the same exception, or
    trees with the same skeleton. *)
Definition same_skeleton (a b : outcome item) : Prop :=
  match a, b with
  | Returned x, Returned y => skeleton x = skeleton y
  | Thrown e, Thrown e' => e = e'
  | _, _ => False
  end.

(* ================================================================== *)
(** ** The text exporter, [export-tree.js] *)

(** The two connectors and the two indentations, four characters each:
    a tee or an elbow followed by two dashes and a space; a bar or a space
    followed by three spaces. *)
Definition TEE : jstr := [9500; 9472; 9472; 32].
Definition ELBOW : jstr := [9492; 9472; 9472; 32].
Definition BAR : jstr := [9474; 32; 32; 32].
Definition BLANK : jstr := lit "    ".

Definition is_nil (A : Type) (l : list A) : bool :=
  match l with [] => true | _ => false end.

Section TextEntries.

(** The recursive call [walk(path.join(dir, entry.name), nextPrefix)],
    from the text gathered so far to the text after it. *)
Variable recur : jstr -> jstr -> dir -> jstr -> outcome jstr.

(** [entries.forEach((entry, i) => ...)]: [output] is the text gathered in
    the variable of that name. *)
Fixpoint text_entries (dirPath prefix : jstr) (es : list entry) (output : jstr)
  {struct es} : outcome jstr :=
  match es with
  | [] => Returned output
  | entry :: es' =>
      let is_last := is_nil es' in
      let connector := if is_last then ELBOW else TEE in
      let output := output ++ prefix ++ connector ++ entry_name entry ++ [NL] in
      match entry with
      | EDir ename sub =>
          let nextPrefix := prefix ++ (if is_last then BLANK else BAR) in
          match recur (join [dirPath; ename]) nextPrefix sub output with
          | Returned output' => text_entries dirPath prefix es' output'
          | Thrown e => Thrown e
          end
      | _ => text_entries dirPath prefix es' output
      end
  end.

End TextEntries.

(** [walk(dir, prefix)] of the text exporter. *)
Fixpoint walk_text (dirPath prefix : jstr) (d : dir) (output : jstr) {struct d}
  : outcome jstr :=
  match d with
  | Unreadable => Thrown (ReaddirFailed dirPath)
  | Readable entries => text_entries walk_text dirPath prefix entries output
  end.

(** The script: the base name of the root, the walk, the write of
    [tree.txt] in the working directory.  Nothing catches an exception. *)
Definition run_text (cwd : jstr) (fs : dir) : outcome unit * dir :=
  let root := cwd in
  let output := basename root ++ [NL] in
  match walk_text root [] (dir_at fs (segments root)) output with
  | Returned output' =>
      match write_at (segments root ++ [lit "tree.txt"]) output' fs with
      | Some fs' => (Returned tt, fs')
      | None => (Thrown (WriteFileFailed (lit "tree.txt")), fs)
      end
  | Thrown e => (Thrown e, fs)
  end.

(** The number of line feeds in a text. *)
Definition count_lines (s : jstr) : nat := count_occ N.eq_dec s NL.

(** The number of entries of every kind below a directory. *)
Fixpoint total_entries (d : dir) : nat :=
  match d with
  | Unreadable => 0%nat
  | Readable entries =>
      list_sum (map (fun e =>
        match e with
        | EDir _ sub => S (total_entries sub)
        | _ => 1%nat
        end) entries)
  end.

(** No entry name below a directory holds a line feed. *)
Fixpoint names_on_one_line (d : dir) : bool :=
  match d with
  | Unreadable => true
  | Readable entries =>
      forallb (fun e =>
        (count_lines (entry_name e) =? 0)%nat
        && match e with
           | EDir _ sub => names_on_one_line sub
           | _ => true
           end) entries
  end.

(** The tree of the exporter with titles for the project with index
    pages, and the children of its root. *)
Definition titled_tree : item :=
  Eval vm_compute in
    match snd (buildTitleTree sample_cwd [] titled_project) with
    | Returned t => t
    | Thrown _ => ItemFile []
    end.

Definition titled_children : list item :=
  match titled_tree with
  | ItemDir _ _ _ children => children
  | ItemFile _ => []
  end.

(** The children of the root of the sample tree. *)
Definition sample_children : list node :=
  match sample_tree with
  | Some (Folder _ children) => children
  | _ => []
  end.
(* ================================================================== *)
(** ** Further sample inputs *)





(* ================================================================== *)
(** ** Structure of the walk *)

Section DirInduction.

Variable P : dir -> Prop.
Hypothesis P_unreadable : P Unreadable.
Hypothesis P_readable :
  forall es,
    (forall n sub, In (EDir n sub) es -> P sub) -> P (Readable es).

Lemma dir_induction : forall d, P d.
Proof.
  fix IH 1. intros [|es]; [exact P_unreadable|].
  apply P_readable.
  induction es as [|e es IHes]; intros n sub H.
  - destruct H.
  - destruct e as [n0 sub0| |].
    + destruct H as [H|H].
      * injection H as _ <-. apply IH.
      * exact (IHes n sub H).
    + destruct H as [H|H]; [discriminate H|exact (IHes n sub H)].
    + destruct H as [H|H]; [discriminate H|exact (IHes n sub H)].
Qed.

End DirInduction.

Lemma included_include pf :
  included pf = include (checkSitemapMeta (pf_html pf)).
Proof.
  unfold included, classify.
  destruct (include _); [reflexivity|]. destruct (exclude _); reflexivity.
Qed.

Lemma walk_children cur rel es : forall ch0 out0 out ch,
  walk buildTree cur rel es ch0 out0 = (out, Returned ch) ->
  exists parts,
    Forall2 (fun e p => entry_nodes cur rel e = Some p) es parts /\
    ch = ch0 ++ concat parts.
Proof.
  induction es as [|e es IH]; intros ch0 out0 out ch H; cbn [walk] in H.
  - injection H as _ <-. exists []. split; [constructor|].
    cbn. now rewrite app_nil_r.
  - destruct e as [n sub|n content|n]; cbv zeta in H; cbn [entry_name] in H.
    + destruct (buildTree (join [cur; n]) (join [rel; basename cur]) sub)
        as [o [[child|]|err]] eqn:E; [| |discriminate H].
      * apply IH in H as (parts & HF & ->). exists ([child] :: parts). split.
        -- constructor; [|exact HF]. cbn [entry_nodes]. now rewrite E.
        -- cbn [concat]. now rewrite <- app_assoc.
      * apply IH in H as (parts & HF & ->). exists ([] :: parts). split.
        -- constructor; [|exact HF]. cbn [entry_nodes]. now rewrite E.
        -- reflexivity.
    + destruct (endsWith n (lit ".html")) eqn:E.
      * destruct content as [html|]; [|discriminate H].
        destruct (include (checkSitemapMeta html)) eqn:Ei.
        -- apply IH in H as (parts & HF & ->).
           eexists (_ :: parts). split.
           ++ constructor; [|exact HF]. cbn [entry_nodes]. rewrite E.
              rewrite included_include. cbn [pf_html]. rewrite Ei. reflexivity.
           ++ cbn [concat]. now rewrite <- app_assoc.
        -- assert (H' : exists o', walk buildTree cur rel es ch0 o' = (out, Returned ch))
             by (destruct (exclude (checkSitemapMeta html)); eauto).
           destruct H' as (o' & H'). apply IH in H' as (parts & HF & ->).
           exists ([] :: parts). split; [|reflexivity].
           constructor; [|exact HF]. cbn [entry_nodes]. rewrite E.
           rewrite included_include. cbn [pf_html]. now rewrite Ei.
      * apply IH in H as (parts & HF & ->). exists ([] :: parts).
        split; [|reflexivity]. constructor; [|exact HF].
        cbn [entry_nodes]. now rewrite E.
    + apply IH in H as (parts & HF & ->). exists ([] :: parts).
      split; [|reflexivity]. constructor; [|exact HF]. reflexivity.
Qed.

Lemma walk_thrown cur rel es : forall ch0 out0 out err,
  walk buildTree cur rel es ch0 out0 = (out, Thrown err) ->
  exists e, In e es /\ entry_nodes cur rel e = None.
Proof.
  induction es as [|e es IH]; intros ch0 out0 out err H; cbn [walk] in H.
  - discriminate H.
  - destruct e as [n sub|n content|n]; cbv zeta in H; cbn [entry_name] in H.
    + destruct (buildTree (join [cur; n]) (join [rel; basename cur]) sub)
        as [o [[child|]|err']] eqn:E.
      * apply IH in H as (e & Hin & He). exists e. split; [now right|exact He].
      * apply IH in H as (e & Hin & He). exists e. split; [now right|exact He].
      * exists (EDir n sub). split; [now left|]. cbn [entry_nodes]. now rewrite E.
    + destruct (endsWith n (lit ".html")) eqn:E.
      * destruct content as [html|].
        -- assert (H' : exists c' o', walk buildTree cur rel es c' o' = (out, Thrown err)).
           { destruct (include (checkSitemapMeta html)); [eauto|].
             destruct (exclude (checkSitemapMeta html)); eauto. }
           destruct H' as (c' & o' & H').
           apply IH in H' as (e & Hin & He). exists e. split; [now right|exact He].
        -- exists (EFile n None). split; [now left|]. cbn [entry_nodes]. now rewrite E.
      * apply IH in H as (e & Hin & He). exists e. split; [now right|exact He].
    + apply IH in H as (e & Hin & He). exists e. split; [now right|exact He].
Qed.

(** The result of a call on a listable directory, from its loop. *)
Lemma buildTree_returned cur rel es out t :
  buildTree cur rel (Readable es) = (out, Returned t) ->
  exists parts,
    Forall2 (fun e p => entry_nodes cur rel e = Some p) es parts /\
    t = match concat parts with
        | [] => None
        | ch => Some (Folder (basename cur) ch)
        end.
Proof.
  cbn [buildTree].
  destruct (walk buildTree cur rel es [] []) as [o [ch|err]] eqn:E; [|discriminate].
  apply walk_children in E as (parts & HF & ->). cbn [app].
  intros H. exists parts. split; [exact HF|].
  destruct (concat parts); cbn in H; now injection H as _ <-.
Qed.

(** The leaves of the returned tree are the leaves of the included pages,
    one each and in the order of the walk. *)
Lemma buildTree_leaves : forall d cur rel out t,
  buildTree cur rel d = (out, Returned t) ->
  tree_leaves t = map leaf_of (filter included (pages cur rel d)).
Proof.
  induction d as [|es IH] using dir_induction; intros cur rel out t H.
  - discriminate H.
  - apply buildTree_returned in H as (parts & HF & ->).
    assert (E : tree_leaves
                  match concat parts with
                  | [] => None
                  | ch => Some (Folder (basename cur) ch)
                  end = flat_map leaves (concat parts))
      by (destruct (concat parts); reflexivity).
    rewrite E. clear E. cbn [pages].
    induction HF as [|e p es parts He HF IHF]; [reflexivity|].
    cbn [concat flat_map]. rewrite flat_map_app, filter_app, map_app.
    rewrite IHF by (intros n sub Hin; apply (IH n sub); now right).
    f_equal. clear IHF HF.
    destruct e as [n sub|n content|n]; cbn [entry_nodes] in He.
    + destruct (buildTree (join [cur; n]) (join [rel; basename cur]) sub)
        as [o [t'|err]] eqn:E; cbn [snd] in He; [|discriminate He].
      apply (IH n sub (or_introl eq_refl)) in E. rewrite <- E.
      destruct t' as [child|]; injection He as <-; cbn; now rewrite ?app_nil_r.
    + destruct (endsWith n (lit ".html"));
        [|injection He as <-; now destruct content].
      destruct content as [html|]; [|discriminate He].
      injection He as <-. cbn [filter].
      destruct (included _); reflexivity.
    + now injection He as <-.
Qed.

(** A returned node is never an empty branch. *)
Lemma buildTree_node_has_leaf : forall d cur rel out n,
  buildTree cur rel d = (out, Returned (Some n)) -> leaves n <> [].
Proof.
  induction d as [|es IH] using dir_induction; intros cur rel out n0 H.
  - discriminate H.
  - apply buildTree_returned in H as (parts & HF & H).
    destruct (concat parts) as [|c ch] eqn:E; [discriminate H|].
    injection H as ->. cbn [leaves flat_map].
    assert (Hc : leaves c <> []).
    { assert (Hin : In c (concat parts)) by (rewrite E; now left).
      clear E. induction HF as [|e p es parts He HF IHF]; [destruct Hin|].
      cbn [concat] in Hin. apply in_app_or in Hin as [Hin|Hin].
      - destruct e as [n sub|n content|n]; cbn [entry_nodes] in He.
        + destruct (buildTree (join [cur; n]) (join [rel; basename cur]) sub)
            as [o [[child|]|err]] eqn:E; cbn [snd] in He.
          * injection He as <-. destruct Hin as [<-|[]].
            exact (IH n sub (or_introl eq_refl) _ _ _ _ E).
          * injection He as <-. destruct Hin.
          * discriminate He.
        + destruct (endsWith n (lit ".html")); [|injection He as <-; destruct Hin].
          destruct content as [html|]; [|discriminate He].
          injection He as <-.
          destruct (included _); [|destruct Hin].
          destruct Hin as [<-|[]]. discriminate.
        + injection He as <-. destruct Hin.
      - apply IHF; [|exact Hin]. intros n sub H'. apply (IH n sub). now right. }
    destruct (leaves c); [congruence|discriminate].
Qed.


(** When the call on a directory returns, so did every call below it, and
    each node returned below is a node of the returned tree. *)
Lemma calls_returned : forall d cur rel out t,
  buildTree cur rel d = (out, Returned t) ->
  forall c, In c (calls cur rel d) ->
  exists out' t',
    call_result c = (out', Returned t') /\
    (forall n, t' = Some n -> In n (tree_nodes t)).
Proof.
  induction d as [|es IH] using dir_induction; intros cur rel out t H c Hc.
  - discriminate H.
  - cbn [calls] in Hc. destruct Hc as [<-|Hc].
    + exists out, t. split; [exact H|]. intros n ->. destruct n; cbn; now left.
    + apply buildTree_returned in H as (parts & HF & ->).
      assert (G : exists out' t', call_result c = (out', Returned t') /\
                  forall n, t' = Some n -> exists ch, In ch (concat parts) /\ In n (nodes ch)).
      { induction HF as [|e p es parts He HF IHF]; [destruct Hc|].
        cbn [flat_map] in Hc. apply in_app_or in Hc as [Hc|Hc].
        - destruct e as [n sub|n content|n]; [|now cbn in Hc|now cbn in Hc].
          cbn [entry_nodes] in He.
          destruct (buildTree (join [cur; n]) (join [rel; basename cur]) sub)
            as [o [t'|err]] eqn:E; cbn [snd] in He; [|discriminate He].
          destruct (IH n sub (or_introl eq_refl) _ _ _ _ E c Hc) as (o' & t'' & Hr & Hn).
          exists o', t''. split; [exact Hr|]. intros n0 ->.
          specialize (Hn n0 eq_refl).
          destruct t' as [child|]; [|destruct Hn]. injection He as <-.
          exists child. split; [|exact Hn]. cbn [concat]. now left.
        - destruct IHF as (o' & t' & Hr & Hn); [|exact Hc|].
          { intros n sub H'. apply (IH n sub). now right. }
          exists o', t'. split; [exact Hr|]. intros n0 Hn0.
          destruct (Hn n0 Hn0) as (ch & Hch & Hin). exists ch. split; [|exact Hin].
          cbn [concat]. apply in_or_app. now right. }
      destruct G as (o' & t' & Hr & Hn). exists o', t'. split; [exact Hr|].
      intros n0 Hn0. destruct (Hn n0 Hn0) as (ch & Hch & Hin).
      destruct (concat parts) as [|c0 l] eqn:E; [destruct Hch|].
      cbn [tree_nodes nodes]. right. apply in_flat_map. exists ch. now split.
Qed.

Lemma pages_are_html : forall d cur rel pf,
  In pf (pages cur rel d) -> endsWith (pf_name pf) (lit ".html") = true.
Proof.
  induction d as [|es IH] using dir_induction; intros cur rel pf H.
  - destruct H.
  - cbn [pages] in H. apply in_flat_map in H as (e & He & H).
    destruct e as [n sub|n [html|]|n]; try destruct H.
    + exact (IH n sub He _ _ _ H).
    + destruct (endsWith n (lit ".html")) eqn:E; [|destruct H].
      destruct H as [<-|[]]. exact E.
Qed.

Lemma endsWith_nonempty s suffix :
  endsWith s suffix = true -> suffix <> [] -> s <> [].
Proof.
  unfold endsWith. intros H Hs ->. destruct suffix; [congruence|discriminate H].
Qed.


Lemma included_true pf : included pf = true <-> classify (pf_html pf) = Include.
Proof.
  unfold included. destruct (classify _); cbn; split; congruence.
Qed.

Section NodeInduction.

Variable P : node -> Prop.
Hypothesis P_page : forall name path title sitemap, P (Page name path title sitemap).
Hypothesis P_folder :
  forall name children, (forall c, In c children -> P c) -> P (Folder name children).

Lemma node_induction : forall n, P n.
Proof.
  fix IH 1. intros [name path title sitemap|name children]; [apply P_page|].
  apply P_folder.
  induction children as [|c children IHc]; intros c' H.
  - destruct H.
  - destruct H as [<-|H]; [apply IH|exact (IHc c' H)].
Qed.

End NodeInduction.

(** The page nodes of a tree are its leaves. *)
Lemma page_node_is_leaf : forall n name path title sitemap,
  In (Page name path title sitemap) (nodes n) ->
  In (Page name path title sitemap) (leaves n).
Proof.
  induction n as [|name0 children IH] using node_induction;
    intros name' path' title' sitemap' H.
  - destruct H as [H|[]]. now left.
  - cbn [nodes] in H. destruct H as [H|H]; [discriminate H|].
    cbn [leaves]. apply in_flat_map in H as (c & Hc & H).
    apply in_flat_map. exists c. split; [exact Hc|]. now apply IH.
Qed.

(* ================================================================== *)
(** ** Pruning and inclusion *)


Ltac pick_member := vm_compute; repeat (first [left; reflexivity | right]).

Lemma sample_returns :
  buildTree sample_cwd [] sample_project = (sample_out, Returned sample_tree).
Proof. vm_compute. reflexivity. Qed.


(** C4.  Every page classified Include has a leaf in the tree, with
    [sitemap] true and a title that is not empty: the extracted title when
    there is a non-empty one, the file name when there is none or when it
    trims to the empty string. *)
Theorem C4_included_page_leaf cur rel d out t pf :
  buildTree cur rel d = (out, Returned t) ->
  In pf (pages cur rel d) ->
  classify (pf_html pf) = Include ->
  exists title,
    In (Page (pf_name pf) (page_path pf) title true) (tree_leaves t) /\
    title <> [] /\
    (forall x, extractTitle (pf_html pf) = Some x -> x <> [] -> title = x) /\
    (extractTitle (pf_html pf) = None \/ extractTitle (pf_html pf) = Some [] ->
     title = pf_name pf).
Proof.
  intros H Hin Hc.
  exists (title_or (extractTitle (pf_html pf)) (pf_name pf)).
  split; [|split; [|split]].
  - rewrite (buildTree_leaves _ _ _ H).
    change (Page _ _ _ true) with (leaf_of pf).
    apply in_map. apply filter_In. split; [exact Hin|]. now apply included_true.
  - assert (Hn : pf_name pf <> []).
    { apply (@endsWith_nonempty _ (lit ".html")); [|discriminate].
      exact (pages_are_html _ _ _ _ Hin). }
    destruct (extractTitle (pf_html pf)) as [[|c x]|]; cbn; [exact Hn|discriminate|exact Hn].
  - intros x -> Hx. destruct x; [congruence|reflexivity].
  - intros [->| ->]; reflexivity.
Qed.

Lemma C4_witness :
  exists title,
    In (Page (pf_name blank_title_page) (page_path blank_title_page) title true)
       (tree_leaves sample_tree) /\
    title <> [] /\
    (forall x, extractTitle (pf_html blank_title_page) = Some x -> x <> [] -> title = x) /\
    (extractTitle (pf_html blank_title_page) = None \/
     extractTitle (pf_html blank_title_page) = Some [] ->
     title = pf_name blank_title_page).
Proof.
  apply (@C4_included_page_leaf
           sample_cwd [] sample_project sample_out sample_tree blank_title_page).
  - vm_compute. reflexivity.
  - pick_member.
  - vm_compute. reflexivity.
Defined.

(** C5.  The page nodes of the tree are the leaves of the pages classified
    Include, one for each and in the order of the walk; a page classified
    Exclude or Unspecified adds none, so every page node anywhere in the
    tree is the leaf of an Include page. *)
Theorem C5_file_node_iff_include cur rel d out t :
  buildTree cur rel d = (out, Returned t) ->
  tree_leaves t
  = map leaf_of
      (filter (fun pf => is_Include (classify (pf_html pf))) (pages cur rel d)) /\
  (forall name path title sitemap,
     In (Page name path title sitemap) (tree_nodes t) ->
     exists pf,
       In pf (pages cur rel d) /\ classify (pf_html pf) = Include /\
       Page name path title sitemap = leaf_of pf).
Proof.
  intros H. pose proof (buildTree_leaves _ _ _ H) as HL.
  split; [exact HL|].
  intros name path title sitemap Hin.
  assert (Hl : In (Page name path title sitemap) (tree_leaves t)).
  { destruct t as [n|]; [|destruct Hin]. now apply page_node_is_leaf. }
  rewrite HL in Hl. apply in_map_iff in Hl as (pf & Heq & Hpf).
  apply filter_In in Hpf as (Hpf & Hi).
  exists pf. split; [exact Hpf|]. split; [now apply included_true|now symmetry].
Qed.

Lemma C5_witness :
  tree_leaves sample_tree
  = map leaf_of
      (filter (fun pf => is_Include (classify (pf_html pf)))
         (pages sample_cwd [] sample_project)) /\
  (forall name path title sitemap,
     In (Page name path title sitemap) (tree_nodes sample_tree) ->
     exists pf,
       In pf (pages sample_cwd [] sample_project) /\
       classify (pf_html pf) = Include /\
       Page name path title sitemap = leaf_of pf).
Proof.
  apply (@C5_file_node_iff_include sample_cwd [] sample_project sample_out).
  vm_compute. reflexivity.
Defined.

(* ================================================================== *)
(** ** Failures of the walk *)

Lemma entry_nodes_None cur rel e :
  entry_nodes cur rel e = None ->
  match e with
  | EDir n sub =>
      exists out err,
        buildTree (join [cur; n]) (join [rel; basename cur]) sub = (out, Thrown err)
  | EFile n content => endsWith n (lit ".html") = true /\ content = None
  | EOther _ => False
  end.
Proof.
  destruct e as [n sub|n content|n]; cbn [entry_nodes].
  - destruct (buildTree _ _ sub) as [o [[c|]|err]]; cbn [snd]; try discriminate.
    intros _. now exists o, err.
  - destruct (endsWith n (lit ".html")); [|discriminate].
    destruct content; [discriminate|]. now split.
  - discriminate.
Qed.

(** The walk throws exactly when some access below the directory fails,
    and what it throws is the failure of a read. *)
Lemma buildTree_outcome : forall d cur rel,
  (unreadable_inside d = true ->
   exists out err, buildTree cur rel d = (out, Thrown err) /\ is_read_error err) /\
  (unreadable_inside d = false ->
   exists out t, buildTree cur rel d = (out, Returned t)).
Proof.
  induction d as [|es IH] using dir_induction; intros cur rel.
  - split; [|discriminate]. intros _. eexists _, _. split; [reflexivity|exact I].
  - cbn [unreadable_inside].
    destruct (buildTree cur rel (Readable es)) as [out [t|err]] eqn:E.
    + split; [|intros _; now exists out, t].
      intros Hu. exfalso. apply existsb_exists in Hu as (e & Hin & He).
      apply buildTree_returned in E as (parts & HF & _).
      assert (Hs : exists p, entry_nodes cur rel e = Some p).
      { clear -HF Hin. induction HF as [|e0 p es parts H0 HF IHF]; [destruct Hin|].
        destruct Hin as [<-|Hin]; [now exists p|now apply IHF]. }
      destruct Hs as (p & Hs).
      destruct e as [n sub|n [html|]|n]; try discriminate He.
      * cbn [entry_nodes] in Hs.
        destruct (proj1 (IH n sub Hin (join [cur; n]) (join [rel; basename cur])) He)
          as (o & err & Hb & _).
        rewrite Hb in Hs. discriminate Hs.
      * cbn [entry_nodes] in Hs. rewrite He in Hs. discriminate Hs.
    + assert (Hex : exists e, In e es /\ entry_nodes cur rel e = None).
      { cbn [buildTree] in E.
        destruct (walk buildTree cur rel es [] []) as [o [ch|err']] eqn:W.
        - destruct (0 <? length ch)%nat; discriminate E.
        - now apply walk_thrown in W. }
      destruct Hex as (e & Hin & He). apply entry_nodes_None in He.
      assert (Hu : existsb
                (fun e0 => match e0 with
                           | EDir _ sub => unreadable_inside sub
                           | EFile n None => endsWith n (lit ".html")
                           | _ => false
                           end) es = true).
      { apply existsb_exists. exists e. split; [exact Hin|].
        destruct e as [n sub|n content|n]; [| |destruct He].
        - destruct He as (o & err' & Hb).
          destruct (unreadable_inside sub) eqn:U; [reflexivity|].
          destruct (proj2 (IH n sub Hin (join [cur; n]) (join [rel; basename cur])) U)
            as (o' & t' & Hb').
          rewrite Hb in Hb'. discriminate Hb'.
        - destruct He as (He & ->). exact He. }
      rewrite Hu. split; [|discriminate]. intros _. exists out, err.
      split; [reflexivity|].
      (* what is thrown *)
      clear Hu He Hin e.
      cbn [buildTree] in E.
      destruct (walk buildTree cur rel es [] []) as [o [ch|err']] eqn:W;
        [destruct (0 <? length ch)%nat; discriminate E|].
      injection E as _ <-.
      revert W. generalize (@nil node) (@nil event). revert o.
      induction es as [|e es IHes]; intros o ch0 out0 W; cbn [walk] in W;
        [discriminate W|].
      assert (IH' : forall n sub, In (EDir n sub) es ->
                forall cur rel,
                  (unreadable_inside sub = true ->
                   exists out err, buildTree cur rel sub = (out, Thrown err)
                                   /\ is_read_error err) /\
                  (unreadable_inside sub = false ->
                   exists out t, buildTree cur rel sub = (out, Returned t)))
        by (intros n sub H; apply (IH n sub); now right).
      destruct e as [n sub|n content|n]; cbv zeta in W; cbn [entry_name] in W.
      * destruct (buildTree (join [cur; n]) (join [rel; basename cur]) sub)
          as [o' [[child|]|err'']] eqn:B; try (eapply IHes; eassumption).
        injection W as _ <-.
        destruct (IH n sub (or_introl eq_refl) (join [cur; n]) (join [rel; basename cur]))
          as [Ht Hr].
        destruct (unreadable_inside sub).
        -- destruct (Ht eq_refl) as (o2 & e2 & Hb & He2).
           rewrite B in Hb. injection Hb as _ <-. exact He2.
        -- destruct (Hr eq_refl) as (o2 & t2 & Hb). rewrite B in Hb. discriminate Hb.
      * destruct (endsWith n (lit ".html")); [|eapply IHes; eassumption].
        destruct content as [html|]; [|injection W as _ <-; exact I].
        destruct (include (checkSitemapMeta html)); [eapply IHes; eassumption|].
        destruct (exclude (checkSitemapMeta html)); eapply IHes; eassumption.
      * eapply IHes; eassumption.
Qed.

Lemma jstr_eqb_refl s : jstr_eqb s s = true.
Proof. induction s as [|c s IH]; cbn; [reflexivity|]. now rewrite N.eqb_refl. Qed.

Lemma find_put_entry n e es :
  entry_name e = n -> find_entry n (put_entry n e es) = Some e.
Proof.
  intros <-. induction es as [|e0 es IH]; cbn [put_entry find_entry].
  - now rewrite jstr_eqb_refl.
  - destruct (jstr_eqb (entry_name e0) (entry_name e)) eqn:E; cbn [find_entry].
    + now rewrite jstr_eqb_refl.
    + now rewrite E.
Qed.

Lemma write_at_below seg seg' rest data es :
  write_at (seg :: seg' :: rest) data (Readable es) =
  match find_entry seg es with
  | Some (EDir _ sub) =>
      match write_at (seg' :: rest) data sub with
      | Some sub' => Some (Readable (put_entry seg (EDir seg sub') es))
      | None => None
      end
  | _ => None
  end.
Proof. reflexivity. Qed.

(** After a write that did not throw, the file holds what was written. *)
Lemma write_then_read : forall segs data fs fs',
  write_at segs data fs = Some fs' -> file_at fs' segs = Some data.
Proof.
  induction segs as [|seg rest IH]; intros data fs fs' H; [discriminate H|].
  destruct fs as [|es]; [destruct rest; discriminate H|].
  destruct rest as [|seg' rest'].
  - cbn [write_at] in H. unfold file_at. cbn [removelast dir_at last].
    assert (fs' = Readable (put_entry seg (EFile seg (Some data)) es)) as ->
      by (destruct (find_entry seg es) as [[| |]|]; congruence).
    now rewrite find_put_entry.
  - rewrite write_at_below in H.
    destruct (find_entry seg es) as [[n sub| |]|]; try discriminate H.
    destruct (write_at (seg' :: rest') data sub) as [sub'|] eqn:W; [|discriminate H].
    injection H as <-. apply IH in W.
    unfold file_at in *.
    change (removelast (seg :: seg' :: rest')) with (seg :: removelast (seg' :: rest')).
    change (last (seg :: seg' :: rest') []) with (last (seg' :: rest') (@nil cu)).
    cbn [dir_at]. rewrite find_put_entry by reflexivity. exact W.
Qed.

(* ================================================================== *)
(** ** The run and the output file *)

(** C8.  When some access of the walk fails (a directory below the scan
    root cannot be listed, or a page file cannot be read), the run ends in
    the [catch] branch: the failure of that read is printed with
    [console.error], nothing is written, and the file system, the old
    output file with it, is left as it was. *)
Theorem C8_failed_walk_writes_nothing cwd fs :
  unreadable_inside (dir_at fs (segments cwd)) = true ->
  exists out err,
    is_read_error err /\
    run cwd fs = (LogScanning :: out ++ [ErrorExportFailed err], fs) /\
    file_at (snd (run cwd fs)) (segments (outputFile cwd))
    = file_at fs (segments (outputFile cwd)).
Proof.
  intros Hu.
  destruct (proj1 (buildTree_outcome (dir_at fs (segments cwd)) cwd []) Hu)
    as (out & err & Hb & He).
  exists out, err. split; [exact He|].
  assert (Hr : run cwd fs = (LogScanning :: out ++ [ErrorExportFailed err], fs))
    by (unfold run; now rewrite Hb).
  split; [exact Hr|]. now rewrite Hr.
Qed.

Lemma C8_witness :
  exists out err,
    is_read_error err /\
    run sample_cwd (in_home project_unreadable)
    = (LogScanning :: out ++ [ErrorExportFailed err], in_home project_unreadable) /\
    file_at (snd (run sample_cwd (in_home project_unreadable)))
      (segments (outputFile sample_cwd))
    = file_at (in_home project_unreadable) (segments (outputFile sample_cwd)).
Proof.
  apply (@C8_failed_walk_writes_nothing sample_cwd (in_home project_unreadable)).
  vm_compute. reflexivity.
Defined.

(** C7.  The script does not create the output directory: in a project
    with an included page and no [assets/data], the walk returns a tree,
    [writeFileSync] throws, the run prints the failure and nothing is
    written. *)
Theorem C7_missing_output_directory :
  (exists out tree,
     buildTree sample_cwd []
       (dir_at (in_home project_without_output_dir) (segments sample_cwd))
     = (out, Returned (Some tree)) /\
     run sample_cwd (in_home project_without_output_dir)
     = (LogScanning :: out
          ++ [ErrorExportFailed (WriteFileFailed (outputFile sample_cwd))],
        in_home project_without_output_dir)) /\
  file_at (snd (run sample_cwd (in_home project_without_output_dir)))
    (segments (outputFile sample_cwd)) = None.
Proof.
  split; [|vm_compute; reflexivity].
  eexists _, _. split; vm_compute; reflexivity.
Qed.

(* ================================================================== *)
(** ** The matcher and the language of a pattern *)

Section MatcherLanguage.

Variable ic : bool.

Lemma one_Some p s c k x :
  one p s c k = Some x ->
  exists a s', s = a :: s' /\ p a = true /\ k s' c = Some x.
Proof.
  destruct s as [|a s']; cbn; [discriminate|].
  destruct (p a) eqn:E; [|discriminate]. intros H. now exists a, s'.
Qed.

Lemma one_sound p s c (k : cont) x :
  one p s c k = Some x ->
  exists s1 s2 c', s = s1 ++ s2 /\ single p s1 /\ k s2 c' = Some x.
Proof.
  intros H. apply one_Some in H as (a & s' & -> & Hp & Hk).
  exists [a], s', c. split; [reflexivity|]. split; [now exists a|exact Hk].
Qed.

Lemma one_complete p s1 s2 c (k : cont) :
  single p s1 -> (forall c', k s2 c' <> None) -> one p (s1 ++ s2) c k <> None.
Proof.
  intros (a & -> & Hp) Hk. cbn. rewrite Hp. apply Hk.
Qed.

Section Repeat.

Variable mr : jstr -> caps -> cont -> option caps.
Variable P : jstr -> Prop.
Variable greedy : bool.
Variable k : cont.

Hypothesis mr_sound : forall s c k' x,
  mr s c k' = Some x ->
  exists s1 s2 c', s = s1 ++ s2 /\ P s1 /\ k' s2 c' = Some x.

Hypothesis mr_complete : forall s1 s2 c (k' : cont),
  P s1 -> (forall c', k' s2 c' <> None) -> mr (s1 ++ s2) c k' <> None.

Lemma repeat_sound : forall n s c x,
  RepeatMatcher mr greedy k n s c = Some x ->
  exists s1 s2 c', s = s1 ++ s2 /\ star P s1 /\ k s2 c' = Some x.
Proof.
  induction n as [|n IH]; intros s c x H; cbn [RepeatMatcher] in H.
  - exists [], s, c. split; [reflexivity|]. split; [constructor|exact H].
  - assert (Hagain : forall y,
      mr s c (fun s' c' =>
        if (length s' <? length s)%nat
        then RepeatMatcher mr greedy k n s' c' else None) = Some y ->
      exists s1 s2 c', s = s1 ++ s2 /\ star P s1 /\ k s2 c' = Some y).
    { intros y Hy. apply mr_sound in Hy as (a & s' & c' & -> & Ha & Hy).
      destruct (length s' <? length (a ++ s'))%nat; [|discriminate Hy].
      apply IH in Hy as (s1 & s2 & c'' & -> & Hs & Hk).
      exists (a ++ s1), s2, c''. split; [now rewrite app_assoc|].
      split; [now constructor|exact Hk]. }
    assert (Hstop : forall y, k s c = Some y ->
      exists s1 s2 c', s = s1 ++ s2 /\ star P s1 /\ k s2 c' = Some y).
    { intros y Hy. exists [], s, c. split; [reflexivity|].
      split; [constructor|exact Hy]. }
    cbv zeta in H. destruct greedy.
    + destruct (mr s c _) as [y|] eqn:E.
      * injection H as ->. now apply Hagain.
      * now apply Hstop.
    + destruct (k s c) as [y|] eqn:E.
      * injection H as ->. now apply Hstop.
      * now apply Hagain.
Qed.

Lemma repeat_complete : forall s1,
  star P s1 ->
  forall n s2 c,
    (forall c', k s2 c' <> None) ->
    (length (s1 ++ s2) <= n)%nat ->
    RepeatMatcher mr greedy k n (s1 ++ s2) c <> None.
Proof.
  induction 1 as [|a b Ha Hb IH]; intros n s2 c Hk Hn.
  - cbn [app]. destruct n as [|n]; cbn [RepeatMatcher]; [apply Hk|].
    cbv zeta. destruct greedy.
    + destruct (mr s2 c _); [discriminate|apply Hk].
    + destruct (k s2 c) eqn:E; [discriminate|]. now apply Hk in E.
  - destruct a as [|x a]; [now apply IH|].
    destruct n as [|n]; [cbn in Hn; lia|]. cbn [RepeatMatcher]. cbv zeta.
    assert (Hagain :
      mr (((x :: a) ++ b) ++ s2) c (fun s' c' =>
        if (length s' <? length (((x :: a) ++ b) ++ s2))%nat
        then RepeatMatcher mr greedy k n s' c' else None) <> None).
    { rewrite <- app_assoc. apply mr_complete; [exact Ha|].
      intros c'.
      assert (Hlt : (length (b ++ s2) <? length ((x :: a) ++ b ++ s2))%nat = true).
      { apply Nat.ltb_lt. rewrite !length_app. cbn [length]. lia. }
      rewrite Hlt. apply IH; [exact Hk|].
      rewrite <- app_assoc in Hn. rewrite !length_app in *. cbn [length] in Hn. lia. }
    destruct greedy.
    + destruct (mr _ c _); [discriminate|congruence].
    + destruct (k _ c); [discriminate|exact Hagain].
Qed.

End Repeat.

Lemma m_sound : forall r s c k x,
  m ic r s c k = Some x ->
  exists s1 s2 c', s = s1 ++ s2 /\ Lang ic r s1 /\ k s2 c' = Some x.
Proof.
  induction r as [|p| | |cs|r1 IH1 r2 IH2|g r1 IH1|g r1 IH1|i r1 IH1];
    intros s c k x H; cbn [m] in H; cbn [Lang].
  - exists [], s, c. now split.
  - exact (one_sound _ _ _ _ H).
  - exact (one_sound _ _ _ _ H).
  - exact (one_sound _ _ _ _ H).
  - exact (one_sound _ _ _ _ H).
  - apply IH1 in H as (a & s' & c' & -> & Ha & H).
    apply IH2 in H as (b & s2 & c'' & -> & Hb & H).
    exists (a ++ b), s2, c''. split; [now rewrite app_assoc|].
    split; [now exists a, b|exact H].
  - eapply repeat_sound; [|exact H]. exact IH1.
  - cbv zeta in H.
    assert (Honce : forall y,
      m ic r1 s c (fun s' c' =>
        if (length s' <? length s)%nat then k s' c' else None) = Some y ->
      exists s1 s2 c', s = s1 ++ s2 /\ (s1 = [] \/ Lang ic r1 s1) /\ k s2 c' = Some y).
    { intros y Hy. apply IH1 in Hy as (a & s' & c' & -> & Ha & Hy).
      destruct (length s' <? length (a ++ s'))%nat; [|discriminate Hy].
      exists a, s', c'. split; [reflexivity|]. split; [now right|exact Hy]. }
    assert (Hskip : forall y, k s c = Some y ->
      exists s1 s2 c', s = s1 ++ s2 /\ (s1 = [] \/ Lang ic r1 s1) /\ k s2 c' = Some y).
    { intros y Hy. exists [], s, c. split; [reflexivity|]. split; [now left|exact Hy]. }
    destruct g.
    + destruct (m ic r1 s c _) as [y|] eqn:E.
      * injection H as ->. now apply Honce.
      * now apply Hskip.
    + destruct (k s c) as [y|] eqn:E.
      * injection H as ->. now apply Hskip.
      * now apply Honce.
  - apply IH1 in H as (a & s' & c' & -> & Ha & H).
    exists a, s', ((i, firstn (length (a ++ s') - length s') (a ++ s')) :: c').
    now split.
Qed.

Lemma m_complete : forall r s1 s2 c (k : cont),
  Lang ic r s1 -> (forall c', k s2 c' <> None) -> m ic r (s1 ++ s2) c k <> None.
Proof.
  induction r as [|p| | |cs|r1 IH1 r2 IH2|g r1 IH1|g r1 IH1|i r1 IH1];
    intros s1 s2 c k HL Hk; cbn [m]; cbn [Lang] in HL.
  - subst s1. apply Hk.
  - now apply one_complete.
  - now apply one_complete.
  - now apply one_complete.
  - now apply one_complete.
  - destruct HL as (a & b & -> & Ha & Hb). rewrite <- app_assoc.
    apply IH1; [exact Ha|]. intros c'. now apply IH2.
  - apply repeat_complete with (P := Lang ic r1); [exact IH1|exact HL|exact Hk|lia].
  - cbv zeta.
    assert (Hskip : s1 = [] ->
      (if g
       then match m ic r1 (s1 ++ s2) c (fun s' c' =>
                    if (length s' <? length (s1 ++ s2))%nat then k s' c' else None)
            with Some x => Some x | None => k (s1 ++ s2) c end
       else match k (s1 ++ s2) c with
            | Some x => Some x
            | None => m ic r1 (s1 ++ s2) c (fun s' c' =>
                        if (length s' <? length (s1 ++ s2))%nat then k s' c' else None)
            end) <> None).
    { intros ->. cbn [app]. destruct g.
      - destruct (m ic r1 s2 c _); [discriminate|apply Hk].
      - destruct (k s2 c) eqn:E; [discriminate|]. now apply Hk in E. }
    destruct s1 as [|x s1]; [now apply Hskip|].
    destruct HL as [HL|HL]; [discriminate HL|].
    assert (Honce :
      m ic r1 ((x :: s1) ++ s2) c (fun s' c' =>
        if (length s' <? length ((x :: s1) ++ s2))%nat then k s' c' else None)
      <> None).
    { apply IH1; [exact HL|]. intros c'.
      assert (Hlt : (length s2 <? length ((x :: s1) ++ s2))%nat = true)
        by (apply Nat.ltb_lt; rewrite length_app; cbn [length]; lia).
      rewrite Hlt. apply Hk. }
    destruct g.
    + destruct (m ic r1 _ c _); [discriminate|congruence].
    + destruct (k _ c); [discriminate|exact Honce].
  - apply IH1; [exact HL|]. intros c'. apply Hk.
Qed.

Lemma exec_sound r : forall s c, exec ic r s = Some c -> contains (Lang ic r) s.
Proof.
  induction s as [|x s IH]; intros c H; cbn [exec] in H.
  - destruct (match_here ic r []) as [c0|] eqn:E; [|discriminate H].
    apply m_sound in E as (s1 & s2 & c' & Hs & HL & _).
    exists [], s1, s2. now split.
  - destruct (match_here ic r (x :: s)) as [c0|] eqn:E.
    + apply m_sound in E as (s1 & s2 & c' & Hs & HL & _).
      exists [], s1, s2. now split.
    + apply IH in H as (pre & mid & post & -> & HL).
      exists (x :: pre), mid, post. now split.
Qed.

Lemma exec_complete r : forall s, contains (Lang ic r) s -> exec ic r s <> None.
Proof.
  intros s (pre & mid & post & -> & HL).
  induction pre as [|x pre IH].
  - assert (Hm : match_here ic r (mid ++ post) <> None)
      by (apply m_complete; [exact HL|discriminate]).
    cbn [app]. destruct (mid ++ post); cbn [exec];
      destruct (match_here ic r _); congruence.
  - cbn [app exec]. destruct (match_here ic r _); [discriminate|exact IH].
Qed.

(** [test] decides whether the text contains a word of the pattern. *)
Lemma test_iff r s : test ic r s = true <-> contains (Lang ic r) s.
Proof.
  unfold test. split.
  - destruct (exec ic r s) as [c|] eqn:E; [|discriminate].
    intros _. exact (exec_sound _ _ E).
  - intros H. apply exec_complete in H. destruct (exec ic r s); congruence.
Qed.

End MatcherLanguage.

(* ================================================================== *)
(** ** The sitemap classifier *)

Lemma cat_iff (P P' Q Q' : jstr -> Prop) :
  (forall s, P s <-> P' s) -> (forall s, Q s <-> Q' s) ->
  forall s, cat P Q s <-> cat P' Q' s.
Proof.
  intros HP HQ s. split; intros (a & b & -> & Ha & Hb); exists a, b;
    (split; [reflexivity|]); split; try apply HP; try apply HQ; assumption.
Qed.

Lemma Lang_RLit ic w : forall s,
  Lang ic (RLit w) s <-> Forall2 (fun p x => char_matches ic p x = true) w s.
Proof.
  induction w as [|p w IH]; intros s; cbn [RLit Lang].
  - split; [intros ->; constructor|now inversion 1].
  - split.
    + intros (a & b & -> & (x & -> & Hx) & Hb). constructor; [exact Hx|now apply IH].
    + inversion 1 as [|p' x w' s' Hx Hs]; subst.
      exists [x], s'. split; [reflexivity|]. split; [now exists x|now apply IH].
Qed.

Lemma star_single p s : star (single p) s <-> Forall (fun c => p c = true) s.
Proof.
  split.
  - induction 1 as [|a b (x & -> & Hx) Hb IH]; [constructor|].
    now constructor.
  - induction 1 as [|x s Hx Hs IH]; [constructor|].
    change (x :: s) with ([x] ++ s). constructor; [now exists x|exact IH].
Qed.

Lemma Lang_spaces ic g s : Lang ic (RStar g RSpace) s <-> spaces s.
Proof. cbn [Lang]. apply star_single. Qed.

Lemma Lang_spaces1 ic s : Lang ic (RPlus RSpace) s <-> spaces1 s.
Proof.
  unfold RPlus, spaces1. cbn [Lang]. split.
  - intros (a & b & -> & (x & -> & Hx) & Hb). split; [discriminate|].
    constructor; [exact Hx|now apply star_single].
  - intros (Hne & Hs). destruct s as [|x s]; [congruence|].
    inversion Hs as [|x' s' Hx Hs']; subst.
    exists [x], s. split; [reflexivity|]. split; [now exists x|now apply star_single].
Qed.

(** A pattern character below the letters matches itself only. *)
Lemma char_matches_plain p x :
  p < 65 -> (char_matches true p x = true <-> x = p).
Proof.
  intros Hp. unfold char_matches, canonicalize. cbn [andb].
  assert (E : (97 <=? p) = false) by (apply N.leb_gt; lia).
  rewrite E. cbn [andb]. rewrite N.eqb_eq.
  destruct (97 <=? x) eqn:E1; cbn [andb].
  - destruct (x <=? 122) eqn:E2.
    + apply N.leb_le in E1. split; intros H; lia.
    + split; congruence.
  - split; congruence.
Qed.

Lemma Lang_quote_set s : Lang true quote_set s <-> quote_mark s.
Proof.
  unfold quote_set, quote_mark. cbn [Lang]. split.
  - intros (x & -> & Hx). cbn [existsb] in Hx.
    rewrite orb_false_r in Hx. apply orb_true_iff in Hx as [Hx|Hx];
      apply char_matches_plain in Hx; try (unfold QUOTE, APOS; lia); subst; auto.
  - intros [-> | ->]; eexists; split; reflexivity.
Qed.

Lemma Lang_opt_slash s :
  Lang true (ROpt true (RChar SLASH)) s <-> (s = [] \/ s = [SLASH]).
Proof.
  cbn [Lang]. split; (intros [H|H]; [now left|right]).
  - destruct H as (x & -> & Hx). apply char_matches_plain in Hx;
      [now subst|unfold SLASH; lia].
  - subst. eexists. split; reflexivity.
Qed.

Lemma Lang_gt s : Lang true (RChar 62) s <-> s = [62].
Proof.
  cbn [Lang]. split.
  - intros (x & -> & Hx). apply char_matches_plain in Hx; [now subst|lia].
  - intros ->. eexists. split; reflexivity.
Qed.

Lemma Lang_name_attr s : Lang true name_attr_re s <-> name_attr s.
Proof.
  unfold name_attr_re, name_attr. cbn [Lang].
  repeat (apply cat_iff; intros); first [apply Lang_RLit | apply Lang_quote_set].
Qed.

Lemma Lang_content_attr value s :
  Lang true (content_attr_re value) s <-> content_attr value s.
Proof.
  unfold content_attr_re, content_attr. cbn [Lang].
  repeat (apply cat_iff; intros); first [apply Lang_RLit | apply Lang_quote_set].
Qed.

Lemma Lang_tag_end s : Lang true tag_end_re s <-> tag_end s.
Proof.
  unfold tag_end_re, tag_end.
  change (Lang true (RSeq (RStar true RSpace) (RSeq (ROpt true (RChar SLASH)) (RChar 62))))
    with (cat (Lang true (RStar true RSpace))
            (cat (Lang true (ROpt true (RChar SLASH))) (Lang true (RChar 62)))).
  apply cat_iff; [apply Lang_spaces|]. apply cat_iff; [apply Lang_opt_slash|apply Lang_gt].
Qed.

(** The words of the directive pattern are the directives written with
    the name attribute first. *)
Lemma Lang_sitemap_re value s :
  Lang true (sitemap_re value) s <-> directive true value s.
Proof.
  unfold sitemap_re, directive.
  change (Lang true (RSeq (RLit (lit "<meta"))
            (RSeq (RPlus RSpace) (RSeq name_attr_re
               (RSeq (RPlus RSpace) (RSeq (content_attr_re value) tag_end_re))))))
    with (cat (Lang true (RLit (lit "<meta")))
            (cat (Lang true (RPlus RSpace))
               (cat (Lang true name_attr_re)
                  (cat (Lang true (RPlus RSpace))
                     (cat (Lang true (content_attr_re value))
                        (Lang true tag_end_re)))))).
  apply cat_iff; [apply Lang_RLit|].
  apply cat_iff; [apply Lang_spaces1|].
  apply cat_iff; [apply Lang_name_attr|].
  apply cat_iff; [apply Lang_spaces1|].
  apply cat_iff; [apply Lang_content_attr|apply Lang_tag_end].
Qed.

Lemma contains_iff (P Q : jstr -> Prop) :
  (forall s, P s <-> Q s) -> forall html, contains P html <-> contains Q html.
Proof.
  intros H html. split; intros (pre & mid & post & -> & Hm);
    exists pre, mid, post; (split; [reflexivity|]); now apply H.
Qed.

Lemma flag_iff value html :
  test true (sitemap_re value) html = true
  <-> contains (directive true value) html.
Proof.
  rewrite test_iff. apply contains_iff. intros s. apply Lang_sitemap_re.
Qed.

(** C2, as the code has it.  The classifier finds a directive exactly
    where the text contains a meta declaration with the name attribute
    first and, after whitespace only, the content attribute: whatever the
    letter case, with either quote character, with or without whitespace
    and a self-closing slash before the closing bracket.  The page is
    Include when there is one with content [include], and Exclude when
    there is one with content [exclude] and none with [include]. *)
Theorem C2_directive_name_first html :
  (include (checkSitemapMeta html) = true
   <-> contains (directive true (lit "include")) html) /\
  (exclude (checkSitemapMeta html) = true
   <-> contains (directive true (lit "exclude")) html) /\
  (classify html = Include <-> contains (directive true (lit "include")) html) /\
  (classify html = Exclude
   <-> contains (directive true (lit "exclude")) html /\
       ~ contains (directive true (lit "include")) html).
Proof.
  pose proof (flag_iff (lit "include") html) as Hi.
  pose proof (flag_iff (lit "exclude") html) as He.
  change (test true (sitemap_re (lit "include")) html)
    with (include (checkSitemapMeta html)) in Hi.
  change (test true (sitemap_re (lit "exclude")) html)
    with (exclude (checkSitemapMeta html)) in He.
  split; [exact Hi|]. split; [exact He|].
  unfold classify. rewrite <- Hi, <- He.
  destruct (include (checkSitemapMeta html)), (exclude (checkSitemapMeta html));
    split; split; try tauto; try discriminate; intuition congruence.
Qed.

Ltac split_at a b := exists a, b; split; [reflexivity|split].
Ltac word := unfold ci; repeat constructor.

(** C2, as the claim has it, fails: a page whose directive is written with
    the content attribute before the name attribute is Unspecified. *)
Lemma C2_counterexample :
  contains (directive false (lit "include")) page_content_first /\
  checkSitemapMeta page_content_first = {| include := false; exclude := false |} /\
  classify page_content_first = Unspecified.
Proof.
  split; [|split; vm_compute; reflexivity].
  exists [], page_content_first, []. split; [reflexivity|].
  unfold directive.
  split_at (lit "<meta") (lit " content='include' name='sitemap'>"); [word|].
  split_at (lit " ") (lit "content='include' name='sitemap'>");
    [split; [discriminate|repeat constructor]|].
  split_at (lit "content='include'") (lit " name='sitemap'>").
  { unfold content_attr.
    split_at (lit "content=") (lit "'include'"); [word|].
    split_at (lit "'") (lit "include'"); [now right|].
    split_at (lit "include") (lit "'"); [word|now right]. }
  split_at (lit " ") (lit "name='sitemap'>");
    [split; [discriminate|repeat constructor]|].
  split_at (lit "name='sitemap'") (lit ">").
  { unfold name_attr.
    split_at (lit "name=") (lit "'sitemap'"); [word|].
    split_at (lit "'") (lit "sitemap'"); [now right|].
    split_at (lit "sitemap") (lit "'"); [word|now right]. }
  unfold tag_end.
  split_at (@nil cu) (lit ">"); [constructor|].
  split_at (@nil cu) (lit ">"); [now left|reflexivity].
Qed.

(* ================================================================== *)
(** ** The title extractor *)

Lemma app_split (A : Type) : forall (a a' b b' : list A),
  a ++ b = a' ++ b' -> (length a <= length a')%nat ->
  exists d, a' = a ++ d /\ b = d ++ b'.
Proof.
  induction a as [|x a IH]; intros a' b b' H Hl.
  - exists a'. now split.
  - destruct a' as [|x' a']; [cbn in Hl; lia|].
    injection H as <- H. apply IH in H as (d & -> & ->); [|cbn in Hl; lia].
    now exists d.
Qed.

Lemma app_same_length (A : Type) (a a' b b' : list A) :
  a ++ b = a' ++ b' -> length a = length a' -> a = a' /\ b = b'.
Proof.
  intros H Hl. apply app_split in H as (d & Hd & Hb); [|lia].
  assert (d = []) as ->.
  { apply (f_equal (@length A)) in Hd. rewrite length_app in Hd.
    destruct d; [reflexivity|cbn in Hd; lia]. }
  rewrite app_nil_r in Hd. now split.
Qed.

Lemma m_RLit ic w : forall s c k,
  m ic (RLit w) s c k
  = match lit_prefix ic w s with Some s' => k s' c | None => None end.
Proof.
  induction w as [|p w IH]; intros s c k; [reflexivity|].
  cbn [RLit m lit_prefix]. destruct s as [|x s]; [reflexivity|].
  cbn [one]. destruct (char_matches ic p x); [apply IH|reflexivity].
Qed.

Lemma lit_prefix_Some ic w : forall s rest,
  lit_prefix ic w s = Some rest <->
  exists x, s = x ++ rest /\ Forall2 (fun p y => char_matches ic p y = true) w x.
Proof.
  induction w as [|p w IH]; intros s rest; cbn [lit_prefix].
  - split.
    + intros [= ->]. exists []. split; [reflexivity|constructor].
    + intros (x & -> & H). inversion H. reflexivity.
  - destruct s as [|y s].
    + split; [discriminate|]. intros (x & Hs & H). inversion H; subst. discriminate Hs.
    + destruct (char_matches ic p y) eqn:E.
      * rewrite IH. split.
        -- intros (x & -> & H). exists (y :: x). split; [reflexivity|now constructor].
        -- intros (x & Hs & H). inversion H as [|p' y' w' x' Hy Hx]; subst.
           injection Hs as -> ->. now exists x'.
      * split; [discriminate|]. intros (x & Hs & H).
        inversion H as [|p' y' w' x' Hy Hx]; subst. injection Hs as -> ->. congruence.
Qed.

Lemma Forall2_length_eq (A B : Type) (R : A -> B -> Prop) l l' :
  Forall2 R l l' -> length l = length l'.
Proof. induction 1; cbn; congruence. Qed.

Section LazyDot.

Variable ic : bool.
Variable k : cont.

Lemma lazy_dot_step : forall n s c,
  (length s <= n)%nat ->
  RepeatMatcher (m ic RDot) false k n s c
  = match k s c with
    | Some x => Some x
    | None =>
        match s with
        | x :: s' =>
            if is_line_terminator x then None
            else RepeatMatcher (m ic RDot) false k (pred n) s' c
        | [] => None
        end
    end.
Proof.
  intros [|n] s c Hn.
  - destruct s; [|cbn in Hn; lia]. cbn. now destruct (k [] c).
  - cbn [RepeatMatcher]. cbv zeta. destruct (k s c); [reflexivity|].
    destruct s as [|x s]; [reflexivity|]. cbn [m one pred].
    destruct (is_line_terminator x); cbn [negb]; [reflexivity|].
    assert (E : (length s <? length (x :: s))%nat = true)
      by (apply Nat.ltb_lt; cbn; lia).
    rewrite E. reflexivity.
Qed.

(** A lazy [.*?] stops at the first place where what follows matches. *)
Lemma lazy_dot_Some : forall s n c x,
  (length s <= n)%nat ->
  RepeatMatcher (m ic RDot) false k n s c = Some x ->
  exists t rest,
    s = t ++ rest /\ no_line_terminator t /\ k rest c = Some x /\
    forall t1 t2, t = t1 ++ t2 -> t2 <> [] -> k (t2 ++ rest) c = None.
Proof.
  induction s as [|y s IH]; intros n c x Hn H; rewrite lazy_dot_step in H by exact Hn.
  - exists [], []. split; [reflexivity|]. split; [constructor|].
    destruct (k [] c) eqn:E; [|discriminate H]. split; [exact H|].
    intros t1 t2 Ht. now destruct t1, t2.
  - destruct (k (y :: s) c) as [x'|] eqn:E.
    + exists [], (y :: s). split; [reflexivity|]. split; [constructor|].
      split; [congruence|]. intros t1 t2 Ht. now destruct t1, t2.
    + destruct (is_line_terminator y) eqn:Ey; [discriminate H|].
      apply IH in H as (t & rest & -> & Ht & Hk & Hmin); [|cbn in Hn; lia].
      exists (y :: t), rest. split; [reflexivity|]. split; [now constructor|].
      split; [exact Hk|]. intros t1 t2 Heq Hne.
      destruct t1 as [|y1 t1].
      * cbn in Heq. subst t2. exact E.
      * injection Heq as _ Heq. now apply (Hmin t1 t2).
Qed.

Lemma lazy_dot_None : forall t rest n c,
  (length (t ++ rest) <= n)%nat ->
  no_line_terminator t ->
  RepeatMatcher (m ic RDot) false k n (t ++ rest) c = None ->
  k rest c = None.
Proof.
  induction t as [|y t IH]; intros rest n c Hn Ht H;
    rewrite lazy_dot_step in H by exact Hn.
  - cbn [app] in H. destruct (k rest c); [discriminate H|reflexivity].
  - cbn [app] in H. destruct (k (y :: t ++ rest) c); [discriminate H|].
    inversion Ht as [|y' t' Hy Ht']; subst. rewrite Hy in H.
    apply IH in H; [exact H|cbn in Hn; lia|exact Ht'].
Qed.

End LazyDot.

Lemma exec_Some ic r : forall s c,
  exec ic r s = Some c ->
  exists pre s',
    s = pre ++ s' /\ match_here ic r s' = Some c /\
    forall p1 p2, pre = p1 ++ p2 -> p2 <> [] -> match_here ic r (p2 ++ s') = None.
Proof.
  induction s as [|x s IH]; intros c H; cbn [exec] in H.
  - destruct (match_here ic r []) as [c0|] eqn:E; [|discriminate H].
    exists [], []. split; [reflexivity|]. split; [congruence|].
    intros p1 p2 Hp. now destruct p1, p2.
  - destruct (match_here ic r (x :: s)) as [c0|] eqn:E.
    + exists [], (x :: s). split; [reflexivity|]. split; [congruence|].
      intros p1 p2 Hp. now destruct p1, p2.
    + apply IH in H as (pre & s' & -> & Hm & Hmin).
      exists (x :: pre), s'. split; [reflexivity|]. split; [exact Hm|].
      intros p1 p2 Hp Hne. destruct p1 as [|y p1].
      * cbn in Hp. subst p2. exact E.
      * injection Hp as _ Hp. now apply (Hmin p1 p2).
Qed.

Lemma exec_None ic r : forall s,
  exec ic r s = None -> forall pre s', s = pre ++ s' -> match_here ic r s' = None.
Proof.
  induction s as [|x s IH]; intros H pre s' Hs; cbn [exec] in H.
  - destruct pre, s'; try discriminate Hs.
    destruct (match_here ic r []); [discriminate H|reflexivity].
  - destruct (match_here ic r (x :: s)) eqn:E; [discriminate H|].
    destruct pre as [|y pre].
    + cbn in Hs. now subst s'.
    + injection Hs as _ Hs. exact (IH H pre s' Hs).
Qed.

Lemma firstn_app_minus (A : Type) (t rest : list A) :
  firstn (length (t ++ rest) - length rest) (t ++ rest) = t.
Proof.
  rewrite length_app. replace (length t + length rest - length rest)%nat
    with (length t + 0)%nat by lia.
  rewrite firstn_app_2. cbn. apply app_nil_r.
Qed.

(** A match of the title pattern at the front of [s]: the delimiters, a
    content without line terminators captured as group 1, and no closing
    delimiter that starts inside the content. *)
Lemma match_here_title_Some s c :
  match_here true title_re s = Some c ->
  exists o t cl post,
    s = o ++ t ++ cl ++ post /\
    ci (lit "<title>") o /\ ci (lit "</title>") cl /\ no_line_terminator t /\
    capture 1 c = Some t /\
    forall t1 t2, t = t1 ++ t2 -> t2 <> [] ->
                  lit_prefix true (lit "</title>") (t2 ++ cl ++ post) = None.
Proof.
  unfold match_here, title_re. cbn [m]. rewrite m_RLit.
  destruct (lit_prefix true (lit "<title>") s) as [s1|] eqn:E1; [|discriminate].
  intros H.
  apply lazy_dot_Some with (ic := true) in H as (t & rest & -> & Ht & Hk & Hmin);
    [|apply Nat.le_refl].
  cbv beta in Hk. rewrite m_RLit in Hk.
  destruct (lit_prefix true (lit "</title>") rest) as [post|] eqn:E2; [|discriminate Hk].
  injection Hk as <-.
  apply lit_prefix_Some in E1 as (o & -> & Ho).
  apply lit_prefix_Some in E2 as (cl & -> & Hcl).
  exists o, t, cl, post. split; [reflexivity|]. split; [exact Ho|].
  split; [exact Hcl|]. split; [exact Ht|]. split.
  - cbn [capture Nat.eqb]. now rewrite firstn_app_minus.
  - intros t1 t2 Heq Hne. specialize (Hmin t1 t2 Heq Hne).
    cbv beta in Hmin. rewrite m_RLit in Hmin.
    destruct (lit_prefix true (lit "</title>") (t2 ++ cl ++ post));
      [discriminate Hmin|reflexivity].
Qed.

Lemma match_here_title_None s :
  match_here true title_re s = None ->
  forall o t cl post,
    s = o ++ t ++ cl ++ post ->
    ci (lit "<title>") o -> ci (lit "</title>") cl -> no_line_terminator t -> False.
Proof.
  unfold match_here, title_re. cbn [m]. rewrite m_RLit.
  intros H o t cl post -> Ho Hcl Ht.
  assert (E1 : lit_prefix true (lit "<title>") (o ++ t ++ cl ++ post)
               = Some (t ++ cl ++ post))
    by (apply lit_prefix_Some; now exists o).
  rewrite E1 in H.
  apply lazy_dot_None with (ic := true) in H; [|apply Nat.le_refl|exact Ht].
  cbv beta in H. rewrite m_RLit in H.
  assert (E2 : lit_prefix true (lit "</title>") (cl ++ post) = Some post)
    by (apply lit_prefix_Some; now exists cl).
  rewrite E2 in H. discriminate H.
Qed.

Lemma title_at_here html pre t post :
  title_at html pre t post ->
  exists s', html = pre ++ s' /\
    exists o cl, s' = o ++ t ++ cl ++ post /\
      ci (lit "<title>") o /\ ci (lit "</title>") cl /\ no_line_terminator t.
Proof.
  intros (o & c & -> & Ho & Hc & Ht).
  exists (o ++ t ++ c ++ post). split; [reflexivity|]. now exists o, c.
Qed.

(** What [exec] finds for the title pattern is the first title pair. *)
Lemma exec_title_Some html c :
  exec true title_re html = Some c ->
  exists pre t post, first_title html pre t post /\ capture 1 c = Some t.
Proof.
  intros H. apply exec_Some in H as (pre & s' & -> & Hm & Hearlier).
  apply match_here_title_Some in Hm as (o & t & cl & post & -> & Ho & Hcl & Ht & Hcap & Hmin).
  exists pre, t, post. split; [|exact Hcap]. split.
  - now exists o, cl.
  - intros pre' t' post' Hat.
    apply title_at_here in Hat as (s'' & Heq & o' & cl' & -> & Ho' & Hcl' & Ht').
    destruct (Nat.lt_trichotomy (length pre) (length pre')) as [Hlt|[Hlen|Hgt]];
      [now left| |].
    + right. split; [exact Hlen|].
      apply app_same_length in Heq as (_ & Heq); [|exact Hlen].
      assert (Hlo : length o = length o').
      { apply Forall2_length_eq in Ho, Ho'. congruence. }
      apply app_same_length in Heq as (_ & Heq); [|exact Hlo].
      destruct (Nat.le_gt_cases (length t) (length t')) as [Hle|Hlt]; [exact Hle|].
      exfalso. symmetry in Heq.
      apply app_split in Heq as (t2 & -> & Heq); [|lia].
      assert (Hne : t2 <> []).
      { intros ->. rewrite app_nil_r in Hlt. lia. }
      specialize (Hmin t' t2 eq_refl Hne). rewrite <- Heq in Hmin.
      assert (E : lit_prefix true (lit "</title>") (cl' ++ post') = Some post')
        by (apply lit_prefix_Some; now exists cl').
      congruence.
    + exfalso. symmetry in Heq.
      apply app_split in Heq as (p2 & -> & Heq); [|lia].
      assert (Hne : p2 <> []).
      { intros ->. rewrite app_nil_r in Hgt. lia. }
      specialize (Hearlier pre' p2 eq_refl Hne). rewrite <- Heq in Hearlier.
      exact (@match_here_title_None _ Hearlier o' t' cl' post' eq_refl Ho' Hcl' Ht').
Qed.

Lemma exec_title_None html :
  exec true title_re html = None -> forall pre t post, ~ title_at html pre t post.
Proof.
  intros H pre t post Hat.
  apply title_at_here in Hat as (s' & Heq & o & cl & -> & Ho & Hcl & Ht).
  pose proof (@exec_None _ _ _ H pre _ Heq) as Hm.
  exact (@match_here_title_None _ Hm o t cl post eq_refl Ho Hcl Ht).
Qed.

(** Two first title pairs of a text have the same content. *)
Lemma first_title_unique html pre t post pre' t' post' :
  first_title html pre t post -> first_title html pre' t' post' -> t = t'.
Proof.
  intros (Hat & Hmin) (Hat' & Hmin').
  pose proof (Hmin _ _ _ Hat') as H1. pose proof (Hmin' _ _ _ Hat) as H2.
  assert (Hp : length pre = length pre') by lia.
  assert (Hl : length t = length t') by lia.
  destruct Hat as (o & c & -> & Ho & _ & _).
  destruct Hat' as (o' & c' & Heq & Ho' & _ & _).
  apply app_same_length in Heq as (_ & Heq); [|exact Hp].
  assert (Hlo : length o = length o').
  { apply Forall2_length_eq in Ho, Ho'. congruence. }
  apply app_same_length in Heq as (_ & Heq); [|exact Hlo].
  now apply app_same_length in Heq as (Heq & _).
Qed.

(** C6.  The title extractor returns the trimmed content of the first
    title pair of the text: the leftmost opening delimiter that is
    followed, with no line terminator in between, by a closing delimiter,
    and the first such closing delimiter after it; the delimiters in any
    letter case.  It returns [null] exactly when the text has no title
    pair.  For a text whose first title pair is [<TITLE>  Home  </TITLE>]
    the result is [Home]. *)
Theorem C6_extractTitle_first_pair :
  (forall html,
     match extractTitle html with
     | Some x => exists pre t post, first_title html pre t post /\ x = trim t
     | None => forall pre t post, ~ title_at html pre t post
     end) /\
  (forall html pre t post,
     first_title html pre t post -> extractTitle html = Some (trim t)) /\
  (forall pre post,
     first_title (pre ++ lit "<TITLE>  Home  </TITLE>" ++ post)
       pre (lit "  Home  ") post ->
     extractTitle (pre ++ lit "<TITLE>  Home  </TITLE>" ++ post)
     = Some (lit "Home")) /\
  extractTitle (lit "<html><TITLE>  Home  </TITLE></html>") = Some (lit "Home").
Proof.
  assert (H1 : forall html,
             match extractTitle html with
             | Some x => exists pre t post, first_title html pre t post /\ x = trim t
             | None => forall pre t post, ~ title_at html pre t post
             end).
  { intros html. unfold extractTitle.
    destruct (exec true title_re html) as [c|] eqn:E.
    - apply exec_title_Some in E as (pre & t & post & Hf & Hc). rewrite Hc.
      now exists pre, t, post.
    - now apply exec_title_None. }
  assert (H2 : forall html pre t post,
             first_title html pre t post -> extractTitle html = Some (trim t)).
  { intros html pre t post Hf. specialize (H1 html).
    destruct (extractTitle html) as [x|].
    - destruct H1 as (pre' & t' & post' & Hf' & ->).
      now rewrite (first_title_unique Hf Hf').
    - destruct Hf as (Hat & _). now apply H1 in Hat. }
  split; [exact H1|]. split; [exact H2|]. split; [|vm_compute; reflexivity].
  intros pre post Hf. now rewrite (H2 _ _ _ _ Hf).
Qed.

(* ================================================================== *)
(** ** Paths *)

Lemma pages_page_at : forall d dirs n html,
  page_at d dirs n html ->
  forall cur rel,
    In {| pf_currentPath := descend cur dirs;
          pf_relativePath := descend_rel cur rel dirs;
          pf_name := n; pf_html := html |}
       (pages cur rel d).
Proof.
  induction 1 as [es n html Hin He|es dn sub dirs n html Hin Hat IH]; intros cur rel.
  - cbn [pages descend descend_rel]. apply in_flat_map.
    exists (EFile n (Some html)). split; [exact Hin|]. rewrite He. now left.
  - cbn [pages descend descend_rel]. apply in_flat_map.
    exists (EDir dn sub). split; [exact Hin|]. apply IH.
Qed.

Lemma intercalate_cons sep x l :
  l <> [] -> intercalate sep (x :: l) = x ++ sep ++ intercalate sep l.
Proof. destruct l; [congruence|reflexivity]. Qed.

Lemma intercalate_app sep : forall l1 l2,
  l1 <> [] -> l2 <> [] ->
  intercalate sep (l1 ++ l2) = intercalate sep l1 ++ sep ++ intercalate sep l2.
Proof.
  induction l1 as [|x l1 IH]; intros l2 H1 H2; [congruence|].
  destruct l1 as [|y l1].
  - cbn [app]. now rewrite intercalate_cons.
  - change ((x :: y :: l1) ++ l2) with (x :: (y :: l1) ++ l2).
    rewrite intercalate_cons by (cbn; discriminate).
    rewrite IH by (discriminate || assumption).
    rewrite (intercalate_cons sep x (l := y :: l1)) by discriminate.
    now rewrite <- !app_assoc.
Qed.

Lemma split_on_no_slash s : no_slash s = true -> split_on SLASH s = [s].
Proof.
  induction s as [|c s IH]; [reflexivity|]. cbn [no_slash forallb].
  rewrite andb_true_iff, negb_true_iff. intros [Hc Hs].
  cbn [split_on]. rewrite Hc. now rewrite (IH Hs).
Qed.

Lemma split_on_app s rest :
  no_slash s = true ->
  split_on SLASH (s ++ SLASH :: rest) = s :: split_on SLASH rest.
Proof.
  induction s as [|c s IH].
  - intros _. cbn [app split_on]. now rewrite N.eqb_refl.
  - cbn [no_slash forallb]. rewrite andb_true_iff, negb_true_iff. intros [Hc Hs].
    cbn [app split_on]. rewrite Hc. now rewrite (IH Hs).
Qed.

Lemma split_on_intercalate : forall segs,
  segs <> [] -> Forall (fun s => no_slash s = true) segs ->
  split_on SLASH (intercalate [SLASH] segs) = segs.
Proof.
  induction segs as [|x segs IH]; intros Hne HF; [congruence|].
  inversion HF as [|x' l' Hx HF']; subst.
  destruct segs as [|y segs].
  - now apply split_on_no_slash.
  - rewrite intercalate_cons by discriminate. cbn [app].
    rewrite split_on_app by exact Hx. now rewrite IH by (discriminate || assumption).
Qed.

Lemma valid_segment_ok s : valid_name s = true -> segment_ok s /\ kept s = true.
Proof.
  unfold valid_name, segment_ok, kept.
  rewrite !andb_true_iff, !negb_true_iff. intros [[[H1 H2] H3] H4].
  repeat split; try assumption; try (now rewrite H1, H3).
  intros ->. discriminate H1.
Qed.

Lemma normalize_segments_plain allow : forall segs acc,
  Forall (fun s => jstr_eqb s [DOT; DOT] = false) segs ->
  normalize_segments allow acc segs = rev acc ++ filter kept segs.
Proof.
  induction segs as [|seg segs IH]; intros acc HF; cbn [normalize_segments filter].
  - now rewrite app_nil_r.
  - inversion HF as [|x l Hx HF']; subst. unfold kept at 1.
    destruct (is_empty seg); cbn [orb negb andb]; [now apply IH|].
    destruct (jstr_eqb seg [DOT]); cbn [negb]; [now apply IH|].
    rewrite Hx. rewrite IH by exact HF'. cbn [rev]. now rewrite <- app_assoc.
Qed.

Lemma last_app_nonempty (A : Type) (a l : list A) d :
  l <> [] -> last (a ++ l) d = last l d.
Proof.
  intros Hl. induction a as [|x a IH]; [reflexivity|].
  cbn [app]. destruct (a ++ l) eqn:E.
  - destruct a, l; try discriminate E. congruence.
  - exact IH.
Qed.

Lemma last_no_slash l :
  l <> [] -> no_slash l = true -> (last l 0 =? SLASH) = false.
Proof.
  intros Hl Hs. destruct (exists_last Hl) as (a & x & ->).
  rewrite last_last. unfold no_slash in Hs. rewrite forallb_app in Hs.
  apply andb_true_iff in Hs as [_ Hs]. cbn in Hs.
  rewrite andb_true_r in Hs. now apply negb_true_iff in Hs.
Qed.

Lemma intercalate_snoc pre l :
  exists a, intercalate [SLASH] (pre ++ [l]) = a ++ l /\
            (pre <> [] -> exists a', a = a' ++ [SLASH]).
Proof.
  destruct pre as [|x pre].
  - exists []. split; [reflexivity|congruence].
  - exists (intercalate [SLASH] (x :: pre) ++ [SLASH]). split.
    + rewrite intercalate_app by discriminate. cbn [intercalate].
      now rewrite <- app_assoc.
    + intros _. now eexists.
Qed.

Lemma intercalate_nonempty : forall l,
  l <> [] -> Forall (fun s : jstr => s <> []) l -> intercalate [SLASH] l <> [].
Proof.
  intros [|x l] Hne HF; [congruence|]. inversion HF as [|x' l' Hx _]; subst.
  destruct l; [exact Hx|]. rewrite intercalate_cons by discriminate.
  destruct x; [congruence|discriminate].
Qed.

Lemma filter_kept_valid l :
  Forall (fun s => valid_name s = true) l -> filter kept l = l.
Proof.
  induction 1 as [|x l Hx _ IH]; [reflexivity|]. cbn [filter].
  rewrite (proj2 (valid_segment_ok _ Hx)). now rewrite IH.
Qed.

Lemma is_empty_false (s : jstr) : s <> [] -> is_empty s = false.
Proof. destruct s; [congruence|reflexivity]. Qed.

Lemma normalize_cons c0 rest :
  normalize (c0 :: rest)
  = (if is_empty (intercalate [SLASH]
                    (normalize_segments (negb (c0 =? SLASH)) []
                       (split_on SLASH (c0 :: rest))))
     then if c0 =? SLASH then [SLASH]
          else if last (c0 :: rest) 0 =? SLASH then [DOT; SLASH] else [DOT]
     else
       let q' :=
         if last (c0 :: rest) 0 =? SLASH
         then intercalate [SLASH]
                (normalize_segments (negb (c0 =? SLASH)) []
                   (split_on SLASH (c0 :: rest))) ++ [SLASH]
         else intercalate [SLASH]
                (normalize_segments (negb (c0 =? SLASH)) []
                   (split_on SLASH (c0 :: rest))) in
       if c0 =? SLASH then SLASH :: q' else q').
Proof. reflexivity. Qed.

(** Normalizing a relative path made of valid names and single dots, the
    last one a valid name, drops the dots. *)
Lemma normalize_relative pre l :
  Forall segment_ok pre -> valid_name l = true ->
  normalize (intercalate [SLASH] (pre ++ [l]))
  = intercalate [SLASH] (filter kept (pre ++ [l])).
Proof.
  intros Hpre Hl. destruct (valid_segment_ok _ Hl) as [(Hl1 & Hl2 & Hl3) Hk].
  assert (HF : Forall segment_ok (pre ++ [l])).
  { apply Forall_app. split; [exact Hpre|]. constructor; [|constructor].
    now repeat split. }
  assert (Hq : intercalate [SLASH] (filter kept (pre ++ [l])) <> []).
  { apply intercalate_nonempty.
    - rewrite filter_app. cbn [filter]. rewrite Hk. now destruct (filter kept pre).
    - apply Forall_forall. intros s Hs. apply filter_In in Hs as (_ & Hs).
      intros ->. discriminate Hs. }
  destruct (intercalate_snoc pre l) as (a & Ha & _).
  assert (Hlast : (last (intercalate [SLASH] (pre ++ [l])) 0 =? SLASH) = false).
  { rewrite Ha, last_app_nonempty by exact Hl1. now apply last_no_slash. }
  assert (Hsplit : split_on SLASH (intercalate [SLASH] (pre ++ [l])) = pre ++ [l]).
  { apply split_on_intercalate; [now destruct pre|].
    eapply Forall_impl; [|exact HF]. now intros s (_ & H & _). }
  assert (Hhead : exists c0 rest,
             intercalate [SLASH] (pre ++ [l]) = c0 :: rest /\ (c0 =? SLASH) = false).
  { assert (Hx : exists x segs, pre ++ [l] = x :: segs) by
      (destruct pre; cbn; eauto).
    destruct Hx as (x & segs & Hx). rewrite Hx in *.
    inversion HF as [|x' l' (Hx1 & Hx2 & _) _]; subst.
    destruct x as [|c0 x]; [congruence|].
    cbn [no_slash forallb] in Hx2. apply andb_true_iff in Hx2 as [Hc _].
    apply negb_true_iff in Hc.
    destruct segs; [now exists c0, x|].
    rewrite intercalate_cons by discriminate. cbn [app]. eauto. }
  destruct Hhead as (c0 & rest & Hp & Hc0).
  rewrite Hp, normalize_cons, <- Hp.
  rewrite Hc0, Hlast, Hsplit. cbn [negb]. cbv zeta.
  rewrite normalize_segments_plain
    by (eapply Forall_impl; [|exact HF]; now intros s (_ & _ & H)).
  cbn [rev app]. now rewrite (is_empty_false Hq).
Qed.

Lemma normalize_valid segs :
  segs <> [] -> Forall (fun s => valid_name s = true) segs ->
  normalize (intercalate [SLASH] segs) = intercalate [SLASH] segs.
Proof.
  intros Hne HF. destruct (exists_last Hne) as (pre & l & ->).
  apply Forall_app in HF as [Hpre Hl]. inversion Hl as [|l' x Hl' _]; subst.
  rewrite normalize_relative; [| |exact Hl'].
  - rewrite filter_kept_valid; [reflexivity|].
    apply Forall_app. split; [exact Hpre|now constructor].
  - eapply Forall_impl; [|exact Hpre]. intros s Hs. now apply valid_segment_ok.
Qed.

Lemma abs_path_snoc segs dn :
  Forall (fun s => valid_name s = true) segs -> valid_name dn = true ->
  exists X,
    split_on SLASH (intercalate [SLASH] segs ++ SLASH :: dn) = X /\
    filter kept X = segs ++ [dn] /\
    Forall (fun s => jstr_eqb s [DOT; DOT] = false) X.
Proof.
  intros Hs Hd. destruct (valid_segment_ok _ Hd) as [(Hd1 & Hd2 & Hd3) Hk].
  destruct segs as [|x segs].
  - exists [[]; dn]. split; [|split].
    + cbn [intercalate app split_on]. rewrite N.eqb_refl.
      now rewrite split_on_no_slash.
    + cbn [filter]. now rewrite Hk.
    + repeat constructor. exact Hd3.
  - exists ((x :: segs) ++ [dn]).
    assert (HF : Forall (fun s => valid_name s = true) ((x :: segs) ++ [dn]))
      by (apply Forall_app; split; [exact Hs|now constructor]).
    split; [|split].
    + replace (intercalate [SLASH] (x :: segs) ++ SLASH :: dn)
        with (intercalate [SLASH] ((x :: segs) ++ [dn]))
        by (rewrite intercalate_app by discriminate; reflexivity).
      apply split_on_intercalate; [discriminate|].
      eapply Forall_impl; [|exact HF]. intros s H.
      now destruct (valid_segment_ok _ H) as [(_ & H' & _) _].
    + now apply filter_kept_valid.
    + eapply Forall_impl; [|exact HF]. intros s H.
      now destruct (valid_segment_ok _ H) as [(_ & _ & H') _].
Qed.

(** Joining a valid name to an absolute path adds a component. *)
Lemma join_abs_path segs dn :
  Forall (fun s => valid_name s = true) segs -> valid_name dn = true ->
  join [abs_path segs; dn] = abs_path (segs ++ [dn]).
Proof.
  intros Hs Hd. destruct (valid_segment_ok _ Hd) as [(Hd1 & Hd2 & Hd3) Hk].
  unfold join. cbn [filter abs_path is_empty negb].
  rewrite (is_empty_false Hd1). cbn [negb intercalate app].
  unfold abs_path. cbn [app]. rewrite normalize_cons.
  cbn [split_on]. rewrite N.eqb_refl. cbn [negb].
  destruct (@abs_path_snoc segs dn Hs Hd) as (X & -> & HX & HX').
  rewrite normalize_segments_plain
    by (constructor; [reflexivity|exact HX']).
  cbn [rev app filter kept is_empty negb andb]. rewrite HX.
  assert (Hq : intercalate [SLASH] (segs ++ [dn]) <> []).
  { apply intercalate_nonempty; [now destruct segs|].
    apply Forall_app. split; [|now constructor].
    eapply Forall_impl; [|exact Hs]. intros s H.
    now destruct (valid_segment_ok _ H) as [(H' & _) _]. }
  rewrite (is_empty_false Hq). cbv zeta.
  assert (Hlast : (last (SLASH :: intercalate [SLASH] segs ++ SLASH :: dn) 0
                   =? SLASH) = false).
  { change (SLASH :: intercalate [SLASH] segs ++ SLASH :: dn)
      with ((SLASH :: intercalate [SLASH] segs) ++ [SLASH] ++ dn).
    rewrite app_assoc, last_app_nonempty by exact Hd1. now apply last_no_slash. }
  now rewrite Hlast.
Qed.

Lemma no_slash_rev l : no_slash (rev l) = no_slash l.
Proof.
  unfold no_slash. apply eq_true_iff_eq. rewrite !forallb_forall.
  split; intros H x Hx; apply H; [now apply in_rev in Hx|now apply in_rev].
Qed.

Lemma take_segment_app x r :
  no_slash x = true -> take_segment (x ++ SLASH :: r) = x.
Proof.
  induction x as [|c x IH]; cbn [no_slash forallb app take_segment].
  - now rewrite N.eqb_refl.
  - rewrite andb_true_iff, negb_true_iff. intros [Hc Hx]. rewrite Hc.
    now rewrite (IH Hx).
Qed.

Lemma basename_last_component a l :
  l <> [] -> no_slash l = true -> basename (a ++ SLASH :: l) = l.
Proof.
  intros Hl Hs. unfold basename.
  rewrite rev_app_distr. cbn [rev]. rewrite <- app_assoc. cbn [app].
  assert (Hr : no_slash (rev l) = true) by now rewrite no_slash_rev.
  assert (Hd : drop_slashes (rev l ++ SLASH :: rev a) = rev l ++ SLASH :: rev a).
  { destruct (rev l) as [|c r] eqn:E.
    - apply (f_equal (@rev cu)) in E. rewrite rev_involutive in E. now subst.
    - cbn [no_slash forallb] in Hr. apply andb_true_iff in Hr as [Hc _].
      apply negb_true_iff in Hc. cbn [app drop_slashes]. now rewrite Hc. }
  rewrite Hd, take_segment_app by exact Hr. apply rev_involutive.
Qed.

(** The base name of an absolute path is its last component. *)
Lemma basename_abs_path segs :
  Forall (fun s => valid_name s = true) segs ->
  basename (abs_path segs) = last segs [].
Proof.
  intros Hs. destruct segs as [|x segs]; [reflexivity|].
  assert (Hne : x :: segs <> []) by discriminate.
  destruct (exists_last Hne) as (pre & l & E). rewrite E in *.
  rewrite last_last. apply Forall_app in Hs as [_ Hl].
  inversion Hl as [|l' y Hl' _]; subst.
  destruct (valid_segment_ok _ Hl') as [(Hl1 & Hl2 & _) _].
  unfold abs_path. destruct pre as [|p pre].
  - cbn [app intercalate]. now apply (basename_last_component []).
  - rewrite intercalate_app by discriminate.
    exact (basename_last_component (SLASH :: intercalate [SLASH] (p :: pre)) Hl1 Hl2).
Qed.

Lemma filter_nonempty_valid l :
  Forall (fun s => valid_name s = true) l ->
  filter (fun a : jstr => negb (is_empty a)) l = l.
Proof.
  induction 1 as [|x l Hx _ IH]; [reflexivity|]. cbn [filter].
  destruct (valid_segment_ok _ Hx) as [(Hx1 & _) _].
  now rewrite (is_empty_false Hx1), IH.
Qed.

Lemma valid_names_nonempty l :
  Forall (fun s => valid_name s = true) l -> Forall (fun s : jstr => s <> []) l.
Proof.
  intros H. eapply Forall_impl; [|exact H]. intros s Hs.
  now destruct (valid_segment_ok _ Hs) as [(H' & _) _].
Qed.

(** Joining valid names to the relative path of the walk. *)
Lemma join_rel rel crumbs names :
  rel_ok rel crumbs ->
  Forall (fun s => valid_name s = true) crumbs ->
  Forall (fun s => valid_name s = true) names -> names <> [] ->
  join (rel :: names) = intercalate [SLASH] (crumbs ++ names).
Proof.
  intros Hrel Hc Hn Hne. unfold join. cbn [filter].
  rewrite (filter_nonempty_valid Hn).
  destruct Hrel as [(-> & [-> | ->])|(Hcne & ->)].
  - cbn [is_empty negb app]. destruct names as [|x names]; [congruence|].
    now apply normalize_valid.
  - cbn [is_empty negb app].
    destruct (exists_last Hne) as (pre & l & ->).
    apply Forall_app in Hn as [Hpre Hl]. inversion Hl as [|l' y Hl' _]; subst.
    change ([DOT] :: pre ++ [l]) with (([DOT] :: pre) ++ [l]).
    rewrite normalize_relative; [| |exact Hl'].
    + change (([DOT] :: pre) ++ [l]) with ([DOT] :: pre ++ [l]).
      cbn [filter]. change (kept [DOT]) with false. cbv iota.
      rewrite filter_kept_valid; [reflexivity|].
      apply Forall_app. split; [exact Hpre|now constructor].
    + constructor.
      * split; [discriminate|split; reflexivity].
      * eapply Forall_impl; [|exact Hpre]. intros s Hs. now apply valid_segment_ok.
  - assert (Hr : intercalate [SLASH] crumbs <> [])
      by (apply intercalate_nonempty; [exact Hcne|now apply valid_names_nonempty]).
    rewrite (is_empty_false Hr). cbn [negb].
    rewrite intercalate_cons by exact Hne.
    rewrite <- intercalate_app by assumption.
    apply normalize_valid; [now destruct crumbs|].
    apply Forall_app. now split.
Qed.

Lemma base_name_cases segs :
  Forall (fun s => valid_name s = true) segs ->
  Forall (fun s => valid_name s = true) (nonempty_only (last segs [])).
Proof.
  intros H. destruct segs as [|x segs]; [constructor|].
  assert (Hne : x :: segs <> []) by discriminate.
  destruct (exists_last Hne) as (pre & l & E). rewrite E in *. rewrite last_last.
  apply Forall_app in H as [_ Hl]. inversion Hl as [|l' y Hl' _]; subst.
  unfold nonempty_only.
  destruct (valid_segment_ok _ Hl') as [(Hl1 & _) _].
  rewrite (is_empty_false Hl1). now constructor.
Qed.

Lemma join_filtered x y z :
  join [x; y; z] = join (x :: nonempty_only y ++ [z]).
Proof.
  unfold join, nonempty_only. cbn [filter].
  destruct y as [|c y]; cbn [is_empty negb app filter]; reflexivity.
Qed.

(** The relative path the walk hands to a subdirectory. *)
Lemma rel_ok_step rel crumbs base :
  rel_ok rel crumbs ->
  Forall (fun s => valid_name s = true) crumbs ->
  Forall (fun s => valid_name s = true) (nonempty_only base) ->
  rel_ok (join [rel; base]) (crumbs ++ nonempty_only base).
Proof.
  intros Hrel Hc Hb. unfold nonempty_only in *.
  destruct base as [|c base]; cbn [is_empty] in *.
  - rewrite app_nil_r.
    destruct Hrel as [(-> & [-> | ->])|(Hcne & ->)].
    + left. split; [reflexivity|]. now right.
    + left. split; [reflexivity|]. now right.
    + right. split; [exact Hcne|].
      assert (Hr : intercalate [SLASH] crumbs <> [])
        by (apply intercalate_nonempty; [exact Hcne|now apply valid_names_nonempty]).
      unfold join. cbn [filter is_empty negb]. rewrite (is_empty_false Hr).
      cbn [negb intercalate]. now apply normalize_valid.
  - right. split; [now destruct crumbs|].
    apply join_rel; [exact Hrel|exact Hc|exact Hb|discriminate].
Qed.

(** The path of a page, from the names that lead to it. *)
Lemma descend_path : forall dirs segs rel crumbs n,
  Forall (fun s => valid_name s = true) segs ->
  Forall (fun s => valid_name s = true) dirs ->
  valid_name n = true ->
  rel_ok rel crumbs ->
  Forall (fun s => valid_name s = true) crumbs ->
  join [descend_rel (abs_path segs) rel dirs;
        basename (descend (abs_path segs) dirs); n]
  = intercalate [SLASH] (crumbs ++ nonempty_only (last segs []) ++ dirs ++ [n]).
Proof.
  induction dirs as [|dn dirs IH]; intros segs rel crumbs n Hs Hd Hn Hrel Hc.
  - cbn [descend descend_rel app]. rewrite basename_abs_path by exact Hs.
    rewrite join_filtered. apply join_rel; [exact Hrel|exact Hc| |].
    + apply Forall_app. split; [now apply base_name_cases|now constructor].
    + now destruct (nonempty_only (last segs [])).
  - inversion Hd as [|dn' dirs' Hdn Hd']; subst.
    cbn [descend descend_rel]. rewrite join_abs_path by assumption.
    rewrite basename_abs_path by exact Hs.
    rewrite (IH (segs ++ [dn]) _ (crumbs ++ nonempty_only (last segs [])) n).
    + rewrite last_last. unfold nonempty_only at 2.
      destruct (valid_segment_ok _ Hdn) as [(Hdn1 & _) _].
      rewrite (is_empty_false Hdn1). now rewrite <- !app_assoc.
    + apply Forall_app. split; [exact Hs|now constructor].
    + exact Hd'.
    + exact Hn.
    + apply rel_ok_step; [exact Hrel|exact Hc|now apply base_name_cases].
    + apply Forall_app. split; [exact Hc|now apply base_name_cases].
Qed.

(** C10, as the code has it.  The path of an included page starts at the
    base name of the scan root, not below it: it is the slash join of that
    base name (left out when it is empty, the scan root being [/]), the
    names of the directories that lead to the page and the file name, with
    every backslash in it turned into a slash. *)
Theorem C10_page_path segs d dirs n html out t :
  Forall (fun s => valid_name s = true) segs ->
  Forall (fun s => valid_name s = true) dirs ->
  valid_name n = true ->
  buildTree (abs_path segs) [] d = (out, Returned t) ->
  page_at d dirs n html ->
  classify html = Include ->
  (exists title,
     In (Page n (replace_backslashes (joined_nonempty_names (abs_path segs) dirs n))
           title true)
        (tree_leaves t)) /\
  (segs <> [] ->
   joined_nonempty_names (abs_path segs) dirs n = joined_names (abs_path segs) dirs n).
Proof.
  intros Hs Hd Hn Hb Hat Hc.
  assert (Hj : joined_nonempty_names (abs_path segs) dirs n
               = intercalate [SLASH] (nonempty_only (last segs []) ++ dirs ++ [n])).
  { unfold joined_nonempty_names. rewrite basename_abs_path by exact Hs.
    cbn [filter]. unfold nonempty_only.
    rewrite filter_nonempty_valid
      by (apply Forall_app; split; [exact Hd|now constructor]).
    now destruct (is_empty (last segs [])). }
  split.
  - pose proof (pages_page_at Hat (abs_path segs) []) as Hin.
    set (pf := {| pf_currentPath := descend (abs_path segs) dirs;
                  pf_relativePath := descend_rel (abs_path segs) [] dirs;
                  pf_name := n; pf_html := html |}) in Hin.
    exists (title_or (extractTitle html) n).
    rewrite (buildTree_leaves _ _ _ Hb).
    assert (Hp : page_path pf
                 = replace_backslashes (joined_nonempty_names (abs_path segs) dirs n)).
    { unfold page_path, pf. cbn [pf_relativePath pf_currentPath pf_name].
      rewrite (@descend_path dirs segs [] [] n Hs Hd Hn); [now rewrite Hj| |constructor].
      left. split; [reflexivity|now left]. }
    rewrite <- Hp. change (Page n (page_path pf) _ true) with (leaf_of pf).
    apply in_map. apply filter_In. split; [exact Hin|]. now apply included_true.
  - intros Hne. rewrite Hj. unfold joined_names.
    rewrite basename_abs_path by exact Hs.
    pose proof (base_name_cases Hs) as Hb'.
    unfold nonempty_only in *.
    destruct (exists_last Hne) as (pre & l & ->). rewrite last_last in *.
    destruct (is_empty l) eqn:E; [|reflexivity].
    exfalso. apply Forall_app in Hs as [_ Hl]. inversion Hl as [|l' y Hl' _]; subst.
    destruct (valid_segment_ok _ Hl') as [(Hl1 & _) _].
    now rewrite (is_empty_false Hl1) in E.
Qed.

Lemma C10_witness :
  (exists title,
     In (Page (lit "z.html")
           (replace_backslashes
              (joined_nonempty_names (abs_path [lit "home"; lit "proj"])
                 [lit "x"; lit "y"] (lit "z.html")))
           title true)
        (tree_leaves sample_tree)) /\
  ([lit "home"; lit "proj"] <> [] ->
   joined_nonempty_names (abs_path [lit "home"; lit "proj"])
     [lit "x"; lit "y"] (lit "z.html")
   = joined_names (abs_path [lit "home"; lit "proj"])
       [lit "x"; lit "y"] (lit "z.html")).
Proof.
  apply (@C10_page_path [lit "home"; lit "proj"] sample_project
           [lit "x"; lit "y"] (lit "z.html") page_blank_title
           sample_out sample_tree).
  - repeat constructor.
  - repeat constructor.
  - vm_compute. reflexivity.
  - vm_compute. reflexivity.
  - apply page_below with (sub := sample_x); [pick_member|].
    apply page_below with (sub := sample_y); [pick_member|].
    apply page_here; [pick_member|vm_compute; reflexivity].
  - vm_compute. reflexivity.
Defined.

(** C10, as the claim has it, fails for a name that holds a backslash:
    the included page [a\b.html] gets the path [proj/a/b.html], which is
    not the slash join of the base name of the scan root and its name. *)
Lemma C10_counterexample :
  page_at backslash_project [] (lit "a\b.html") page_include /\
  classify page_include = Include /\
  (exists out title,
     buildTree sample_cwd [] backslash_project
     = (out, Returned (Some (Folder (lit "proj")
          [Page (lit "a\b.html") (lit "proj/a/b.html") title true])))) /\
  lit "proj/a/b.html" <> joined_names sample_cwd [] (lit "a\b.html").
Proof.
  split; [|split; [|split]].
  - apply page_here; [pick_member|vm_compute; reflexivity].
  - vm_compute. reflexivity.
  - eexists _, _. vm_compute. reflexivity.
  - vm_compute. discriminate.
Qed.

(* ================================================================== *)
(** ** More on the walk: accumulators, composition, console output *)

Section WalkAlgebra.

Variable recur : jstr -> jstr -> dir -> built.
Variables cur rel : jstr.

(** The accumulators are only appended to. *)
Lemma walk_acc : forall es ch out,
  walk recur cur rel es ch out
  = match walk recur cur rel es [] [] with
    | (o, Returned c) => (out ++ o, Returned (ch ++ c))
    | (o, Thrown e) => (out ++ o, Thrown e)
    end.
Proof.
  assert (Hnil : forall (ch : list node) (out : list event),
            (out, Returned ch)
            = (out ++ [], Returned (ch ++ []) : outcome (list node)))
    by (intros; now rewrite !app_nil_r).
  assert (Hstep : forall es,
    (forall ch out,
       walk recur cur rel es ch out
       = match walk recur cur rel es [] [] with
         | (o, Returned c) => (out ++ o, Returned (ch ++ c))
         | (o, Thrown e) => (out ++ o, Thrown e)
         end) ->
    forall ch out c1 o1,
      walk recur cur rel es (ch ++ c1) (out ++ o1)
      = match walk recur cur rel es c1 o1 with
        | (o, Returned c) => (out ++ o, Returned (ch ++ c))
        | (o, Thrown e) => (out ++ o, Thrown e)
        end).
  { intros es IH ch out c1 o1. rewrite (IH (ch ++ c1)), (IH c1 o1).
    destruct (walk recur cur rel es [] []) as [o [c|e]];
      now rewrite <- !app_assoc. }
  induction es as [|e es IH]; intros ch out; [apply Hnil|].
  specialize (Hstep es IH).
  pose proof (fun c1 o1 => Hstep ch out c1 o1) as H1.
  cbn [walk]. destruct e as [n sub|n content|n]; cbv zeta; cbn [entry_name].
  - destruct (recur (join [cur; n]) (join [rel; basename cur]) sub)
      as [o [[child|]|err]]; cbn [app].
    + apply H1.
    + rewrite <- (app_nil_r ch) at 1. apply H1.
    + reflexivity.
  - destruct (endsWith n (lit ".html")).
    + destruct content as [html|]; [|now rewrite app_nil_r].
      destruct (include (checkSitemapMeta html)).
      * destruct (falsy (extractTitle html)); cbn [app]; [apply H1|].
        rewrite <- (app_nil_r out) at 1. apply H1.
      * destruct (exclude (checkSitemapMeta html)); cbn [app];
          rewrite <- (app_nil_r ch) at 1; apply H1.
    + apply IH.
  - apply IH.
Qed.

(** The loop on a listing in two parts: the first part, then the second
    with what the first has gathered; an exception in the first part ends
    the loop. *)
Lemma walk_app : forall es1 es2 ch out,
  walk recur cur rel (es1 ++ es2) ch out
  = match walk recur cur rel es1 ch out with
    | (o, Returned c) => walk recur cur rel es2 c o
    | (o, Thrown e) => (o, Thrown e)
    end.
Proof.
  induction es1 as [|e es1 IH]; intros es2 ch out; [reflexivity|].
  cbn [app walk]. destruct e as [n sub|n content|n]; cbv zeta; cbn [entry_name].
  - destruct (recur (join [cur; n]) (join [rel; basename cur]) sub)
      as [o [[child|]|err]]; [apply IH|apply IH|reflexivity].
  - destruct (endsWith n (lit ".html")); [|apply IH].
    destruct content as [html|]; [|reflexivity].
    destruct (include (checkSitemapMeta html)); [apply IH|].
    destruct (exclude (checkSitemapMeta html)); apply IH.
  - apply IH.
Qed.

End WalkAlgebra.

Lemma classify_cases html :
  classify html
  = if include (checkSitemapMeta html) then Include
    else if exclude (checkSitemapMeta html) then Exclude else Unspecified.
Proof. reflexivity. Qed.

Lemma walk_console cur rel es :
  (forall n sub, In (EDir n sub) es ->
     forall cur' rel' out t,
       buildTree cur' rel' sub = (out, Returned t) ->
       out = flat_map page_events (pages cur' rel' sub)) ->
  forall ch0 out0 out ch,
    walk buildTree cur rel es ch0 out0 = (out, Returned ch) ->
    out = out0 ++ flat_map page_events (pages cur rel (Readable es)).
Proof.
  induction es as [|e es IH]; intros Hsub ch0 out0 out ch H; cbn [walk] in H.
  - injection H as <- _. cbn. now rewrite app_nil_r.
  - assert (Hsub' : forall n sub, In (EDir n sub) es ->
              forall cur' rel' out t,
                buildTree cur' rel' sub = (out, Returned t) ->
                out = flat_map page_events (pages cur' rel' sub))
      by (intros n sub Hin; apply (Hsub n sub); now right).
    specialize (IH Hsub').
    cbn [pages flat_map] in *. rewrite flat_map_app.
    destruct e as [n sub|n content|n]; cbv zeta in H; cbn [entry_name] in H.
    + destruct (buildTree (join [cur; n]) (join [rel; basename cur]) sub)
        as [o [t'|err]] eqn:E; [|discriminate H].
      pose proof (Hsub n sub (or_introl eq_refl) _ _ _ _ E) as Ho.
      assert (H' : exists c', walk buildTree cur rel es c' (out0 ++ o)
                              = (out, Returned ch))
        by (destruct t'; eauto).
      destruct H' as (c' & H'). apply IH in H'. rewrite H', Ho.
      now rewrite <- app_assoc.
    + destruct (endsWith n (lit ".html")) eqn:En.
      * destruct content as [html|]; [|discriminate H].
        cbn [flat_map app]. unfold page_events.
        cbn [pf_html pf_currentPath pf_name]. rewrite classify_cases.
        destruct (include (checkSitemapMeta html)).
        -- destruct (falsy (extractTitle html)); apply IH in H; rewrite H;
             cbn [app]; now rewrite <- ?app_assoc.
        -- destruct (exclude (checkSitemapMeta html)); apply IH in H; rewrite H;
             cbn [app]; now rewrite <- ?app_assoc.
      * apply IH in H. rewrite H. now destruct content.
    + apply IH in H. now rewrite H.
Qed.

(** X1.  The console output of a walk that returns is made of the lines of
    its page files, in the order of the walk: one warning for each page
    without a directive, one note for each excluded page, one warning for
    each included page whose title is missing or empty, and nothing
    else. *)
Theorem X1_console_output_per_page : forall d cur rel out t,
  buildTree cur rel d = (out, Returned t) ->
  out = flat_map page_events (pages cur rel d).
Proof.
  induction d as [|es IH] using dir_induction; intros cur rel out t H.
  - discriminate H.
  - cbn [buildTree] in H.
    destruct (walk buildTree cur rel es [] []) as [o [ch|err]] eqn:E;
      [|discriminate H].
    apply walk_console in E; [|exact IH]. cbn [app] in E.
    destruct (0 <? length ch)%nat; injection H as <- _; exact E.
Qed.

Lemma X1_witness :
  sample_out = flat_map page_events (pages sample_cwd [] sample_project).
Proof.
  apply (@X1_console_output_per_page sample_project sample_cwd [] sample_out sample_tree).
  vm_compute. reflexivity.
Defined.

(** X2.  The loop handles a listing from left to right and stops at the
    first entry that throws: when the walk of the first entries of a
    listing throws, the call throws the same exception with the same
    console output whatever entries follow; when it returns, the call goes
    on with the later entries from the children and the output gathered so
    far. *)
Theorem X2_walk_stops_at_first_failure cur rel es1 es2 :
  buildTree cur rel (Readable (es1 ++ es2))
  = match walk_from_start cur rel es1 with
    | (o, Thrown e) => (o, Thrown e)
    | (o, Returned c) =>
        match walk buildTree cur rel es2 c o with
        | (out, Returned children) =>
            if (0 <? length children)%nat
            then (out, Returned (Some (Folder (basename cur) children)))
            else (out, Returned None)
        | (out, Thrown e) => (out, Thrown e)
        end
    end.
Proof.
  unfold walk_from_start. cbn [buildTree]. rewrite walk_app.
  now destruct (walk buildTree cur rel es1 [] []) as [o [c|e]].
Qed.

(** X3.  No directory node of a returned tree is an empty branch: its
    [children] array is not empty and a page node lies below it. *)
Theorem X3_no_empty_directory_node : forall d cur rel out t,
  buildTree cur rel d = (out, Returned t) ->
  forall name children,
    In (Folder name children) (tree_nodes t) ->
    children <> [] /\ flat_map leaves children <> [].
Proof.
  induction d as [|es IH] using dir_induction; intros cur rel out t H name ch Hin.
  - discriminate H.
  - pose proof H as H0.
    apply buildTree_returned in H as (parts & HF & ->).
    destruct (concat parts) as [|c0 l] eqn:E; [destruct Hin|].
    cbn [tree_nodes nodes] in Hin. destruct Hin as [Heq|Hin].
    + injection Heq as <- <-. split; [discriminate|].
      exact (buildTree_node_has_leaf _ _ _ H0).
    + apply in_flat_map in Hin as (x & Hx & Hin). rewrite <- E in Hx. clear E H0.
      induction HF as [|e p es parts He HF IHF]; [destruct Hx|].
      cbn [concat] in Hx. apply in_app_or in Hx as [Hx|Hx].
      * destruct e as [n sub|n content|n]; cbn [entry_nodes] in He.
        -- destruct (buildTree (join [cur; n]) (join [rel; basename cur]) sub)
             as [o [[child|]|err]] eqn:B; cbn [snd] in He.
           ++ injection He as <-. destruct Hx as [<-|[]].
              exact (IH n sub (or_introl eq_refl) _ _ _ _ B name ch Hin).
           ++ injection He as <-. destruct Hx.
           ++ discriminate He.
        -- destruct (endsWith n (lit ".html")); [|injection He as <-; destruct Hx].
           destruct content as [html|]; [|discriminate He].
           injection He as <-. destruct (included _); [|destruct Hx].
           destruct Hx as [<-|[]]. cbn in Hin. destruct Hin as [Hin|[]].
           discriminate Hin.
        -- injection He as <-. destruct Hx.
      * apply IHF; [|exact Hx]. intros n sub H'. apply (IH n sub). now right.
Qed.

Lemma X3_witness :
  sample_children <> [] /\ flat_map leaves sample_children <> [].
Proof.
  apply (@X3_no_empty_directory_node sample_project sample_cwd [] sample_out sample_tree)
    with (name := lit "proj").
  - vm_compute. reflexivity.
  - vm_compute. left. reflexivity.
Defined.

Lemma walk_passed_over recur cur rel e es ch out :
  passed_over e = true ->
  walk recur cur rel (e :: es) ch out = walk recur cur rel es ch out.
Proof.
  destruct e as [n sub|n content|n]; cbn [passed_over]; [discriminate| |reflexivity].
  intros H. apply negb_true_iff in H. cbn [walk]. cbv zeta. now rewrite H.
Qed.

(** X4.  Entries that are neither directories nor page files do not count:
    a listing with such an entry (a file of another kind, readable or not,
    a symbolic link, ...) gives the same console output and the same
    result as the listing without it. *)
Theorem X4_other_entries_are_passed_over cur rel es1 e es2 :
  passed_over e = true ->
  buildTree cur rel (Readable (es1 ++ e :: es2))
  = buildTree cur rel (Readable (es1 ++ es2)).
Proof.
  intros He. cbn [buildTree]. rewrite !walk_app.
  destruct (walk buildTree cur rel es1 [] []) as [o [c|err]]; [|reflexivity].
  now rewrite walk_passed_over.
Qed.

Lemma X4_witness :
  buildTree sample_cwd []
    (Readable ([EFile (lit "a.html") (Some page_include)]
               ++ EFile (lit "notes.txt") None :: []))
  = buildTree sample_cwd []
      (Readable ([EFile (lit "a.html") (Some page_include)] ++ [])).
Proof.
  apply (@X4_other_entries_are_passed_over sample_cwd []
           [EFile (lit "a.html") (Some page_include)]
           (EFile (lit "notes.txt") None) []).
  vm_compute. reflexivity.
Defined.

Lemma walk_outcome_any_output recur cur rel es ch out out' :
  snd (walk recur cur rel es ch out) = snd (walk recur cur rel es ch out').
Proof.
  rewrite (walk_acc recur cur rel es ch out), (walk_acc recur cur rel es ch out').
  now destruct (walk recur cur rel es [] []) as [o [c|e]].
Qed.

Lemma finish_snd (w w' : walked) name :
  snd w = snd w' ->
  snd (match w with
       | (out, Returned children) =>
           if (0 <? length children)%nat
           then (out, Returned (Some (Folder name children)))
           else (out, Returned None)
       | (out, Thrown e) => (out, Thrown e)
       end)
  = snd (match w' with
         | (out, Returned children) =>
             if (0 <? length children)%nat
             then (out, Returned (Some (Folder name children)))
             else (out, Returned None)
         | (out, Thrown e) => (out, Thrown e)
         end).
Proof.
  destruct w as [o [c|e]], w' as [o' [c'|e']]; cbn [snd]; intros H;
    try discriminate H; injection H as <-; [|reflexivity].
  now destruct (0 <? length c)%nat.
Qed.

(** X5.  A page classified Exclude or Unspecified changes the console
    output only: the call returns the same tree, or throws the same
    exception, as for the listing without that page. *)
Theorem X5_skipped_page_leaves_the_tree cur rel es1 n html es2 :
  classify html <> Include ->
  snd (buildTree cur rel (Readable (es1 ++ EFile n (Some html) :: es2)))
  = snd (buildTree cur rel (Readable (es1 ++ es2))).
Proof.
  intros Hc. cbn [buildTree]. apply finish_snd. rewrite !walk_app.
  destruct (walk buildTree cur rel es1 [] []) as [o [c|err]]; [|reflexivity].
  cbn [walk]. cbv zeta.
  destruct (endsWith n (lit ".html")); [|reflexivity].
  rewrite classify_cases in Hc.
  destruct (include (checkSitemapMeta html)); [congruence|].
  destruct (exclude (checkSitemapMeta html)); apply walk_outcome_any_output.
Qed.

Lemma X5_witness :
  snd (buildTree sample_cwd []
         (Readable ([EFile (lit "a.html") (Some page_include)]
                    ++ EFile (lit "b.html") (Some page_exclude) :: [])))
  = snd (buildTree sample_cwd []
           (Readable ([EFile (lit "a.html") (Some page_include)] ++ []))).
Proof.
  apply (@X5_skipped_page_leaves_the_tree sample_cwd []
           [EFile (lit "a.html") (Some page_include)]
           (lit "b.html") page_exclude []).
  vm_compute. discriminate.
Defined.

(* ================================================================== *)
(** ** The shape of an extracted title *)

Lemma trim_start_suffix s : exists p, s = p ++ trim_start s.
Proof.
  induction s as [|c s (p & IH)]; [now exists []|]. cbn [trim_start].
  destruct (is_space c); [|now exists []].
  exists (c :: p). cbn [app]. now rewrite <- IH.
Qed.

Lemma trim_start_head s c r : trim_start s = c :: r -> is_space c = false.
Proof.
  induction s as [|x s IH]; cbn [trim_start]; [discriminate|].
  destruct (is_space x) eqn:E; [exact IH|]. now intros [= <- _].
Qed.

Lemma trim_end_prefix s : exists q, s = trim_end s ++ q.
Proof.
  unfold trim_end. destruct (trim_start_suffix (rev s)) as (p & Hp).
  exists (rev p). rewrite <- rev_app_distr, <- Hp. now rewrite rev_involutive.
Qed.

Lemma trim_end_last s pre c : trim_end s = pre ++ [c] -> is_space c = false.
Proof.
  unfold trim_end. intros H. apply (f_equal (@rev cu)) in H.
  rewrite rev_involutive, rev_app_distr in H. cbn in H.
  exact (@trim_start_head _ _ _ H).
Qed.

(** [trim] keeps a piece of the text that neither starts nor ends with
    whitespace. *)
Lemma trim_shape s :
  (exists p q, s = p ++ trim s ++ q) /\
  (forall c r, trim s = c :: r -> is_space c = false) /\
  (forall pre c, trim s = pre ++ [c] -> is_space c = false).
Proof.
  unfold trim. destruct (trim_start_suffix s) as (p & Hp).
  destruct (trim_end_prefix (trim_start s)) as (q & Hq).
  split; [|split].
  - exists p, q. now rewrite <- Hq.
  - intros c r H. rewrite H in Hq. cbn [app] in Hq.
    exact (@trim_start_head _ _ _ Hq).
  - intros pre c H. exact (@trim_end_last _ _ _ H).
Qed.

(** X6.  An extracted title is a single line without surrounding
    whitespace: it holds no line terminator, and when it is not empty its
    first and its last character are not whitespace. *)
Theorem X6_extracted_title_shape html x :
  extractTitle html = Some x ->
  no_line_terminator x /\
  (forall c r, x = c :: r -> is_space c = false) /\
  (forall pre c, x = pre ++ [c] -> is_space c = false).
Proof.
  unfold extractTitle. destruct (exec true title_re html) as [c|] eqn:E;
    [|discriminate].
  apply exec_title_Some in E as (pre & t & post & ((o & cl & _ & _ & _ & Ht) & _) & Hc).
  rewrite Hc. intros [= <-].
  destruct (trim_shape t) as ((p & q & Hpq) & Hhead & Hlast).
  split; [|split; assumption].
  unfold no_line_terminator in *. rewrite Hpq in Ht.
  apply Forall_app in Ht as [_ Ht]. now apply Forall_app in Ht as [Ht _].
Qed.

Lemma X6_witness :
  no_line_terminator (lit "A") /\
  (forall c r, lit "A" = c :: r -> is_space c = false) /\
  (forall pre c, lit "A" = pre ++ [c] -> is_space c = false).
Proof.
  apply (@X6_extracted_title_shape page_include (lit "A")).
  vm_compute. reflexivity.
Defined.

(* ================================================================== *)
(** ** Running the exporter again *)

Lemma jstr_eqb_true a : forall b, jstr_eqb a b = true -> a = b.
Proof.
  induction a as [|x a IH]; intros [|y b]; cbn; try discriminate; [reflexivity|].
  intros H. apply andb_true_iff in H as [Hx Hab]. apply N.eqb_eq in Hx.
  now rewrite Hx, (IH b Hab).
Qed.

Lemma segments_abs_path l :
  Forall (fun s => valid_name s = true) l -> segments (abs_path l) = l.
Proof.
  intros Hl. unfold segments, abs_path. cbn [split_on]. rewrite N.eqb_refl.
  cbn [filter is_empty negb]. destruct l as [|x l]; [reflexivity|].
  rewrite split_on_intercalate; [now apply filter_nonempty_valid|discriminate|].
  eapply Forall_impl; [|exact Hl]. intros s Hs.
  now destruct (valid_segment_ok _ Hs) as [(_ & H & _) _].
Qed.

(** Joining valid names to an absolute path adds them as components. *)
Lemma join_abs_path_names segs names :
  Forall (fun s => valid_name s = true) segs ->
  Forall (fun s => valid_name s = true) names -> names <> [] ->
  join (abs_path segs :: names) = abs_path (segs ++ names).
Proof.
  intros Hs Hn Hnn.
  assert (Hall : Forall (fun s => valid_name s = true) (segs ++ names))
    by (apply Forall_app; now split).
  assert (Hne : segs ++ names <> []) by (destruct segs; [exact Hnn|discriminate]).
  unfold join. cbn [filter abs_path is_empty negb].
  rewrite (filter_nonempty_valid Hn).
  rewrite intercalate_cons by exact Hnn. unfold abs_path. cbn [app].
  rewrite normalize_cons. cbn [split_on]. rewrite N.eqb_refl. cbn [negb].
  assert (Hsplit : exists X,
             split_on SLASH (intercalate [SLASH] segs ++ SLASH :: intercalate [SLASH] names) = X
             /\ filter kept X = segs ++ names
             /\ Forall (fun s => jstr_eqb s [DOT; DOT] = false) X).
  { destruct segs as [|x segs].
    - exists ([] :: names). cbn [intercalate app split_on]. rewrite N.eqb_refl.
      split; [|split].
      + rewrite split_on_intercalate; [reflexivity|exact Hnn|].
        eapply Forall_impl; [|exact Hn]. intros s H.
        now destruct (valid_segment_ok _ H) as [(_ & H' & _) _].
      + cbn [filter kept is_empty negb andb]. now apply filter_kept_valid.
      + constructor; [reflexivity|]. eapply Forall_impl; [|exact Hn]. intros s H.
        now destruct (valid_segment_ok _ H) as [(_ & _ & H') _].
    - exists ((x :: segs) ++ names). split; [|split].
      + replace (intercalate [SLASH] (x :: segs) ++ SLASH :: intercalate [SLASH] names)
          with (intercalate [SLASH] ((x :: segs) ++ names))
          by (rewrite intercalate_app by (discriminate || assumption); reflexivity).
        apply split_on_intercalate; [discriminate|].
        eapply Forall_impl; [|exact Hall]. intros s H.
        now destruct (valid_segment_ok _ H) as [(_ & H' & _) _].
      + now apply filter_kept_valid.
      + eapply Forall_impl; [|exact Hall]. intros s H.
        now destruct (valid_segment_ok _ H) as [(_ & _ & H') _]. }
  destruct Hsplit as (X & -> & HX & HX').
  rewrite normalize_segments_plain by (constructor; [reflexivity|exact HX']).
  cbn [rev app filter kept is_empty negb andb]. rewrite HX.
  assert (Hq : intercalate [SLASH] (segs ++ names) <> [])
    by (apply intercalate_nonempty; [exact Hne|now apply valid_names_nonempty]).
  rewrite (is_empty_false Hq). cbv zeta.
  destruct (exists_last Hnn) as (pre & l & E). rewrite E in *.
  apply Forall_app in Hn as [_ Hl]. inversion Hl as [|l' y Hl' _]; subst.
  destruct (valid_segment_ok _ Hl') as [(Hl1 & Hl2 & _) _].
  destruct (intercalate_snoc pre l) as (a & Ha & _).
  assert (Hlast : (last (SLASH :: intercalate [SLASH] segs
                         ++ SLASH :: intercalate [SLASH] (pre ++ [l])) 0
                   =? SLASH) = false).
  { rewrite Ha.
    change (SLASH :: intercalate [SLASH] segs ++ SLASH :: a ++ l)
      with ((SLASH :: intercalate [SLASH] segs) ++ (SLASH :: a) ++ l).
    rewrite app_assoc, last_app_nonempty by exact Hl1. now apply last_no_slash. }
  now rewrite Hlast.
Qed.

Lemma outputFile_segments segs :
  Forall (fun s => valid_name s = true) segs ->
  segments (outputFile (abs_path segs))
  = segs ++ [lit "assets"; lit "data"; lit "tree.json"].
Proof.
  intros Hs. unfold outputFile.
  assert (Hn : Forall (fun s => valid_name s = true)
                 [lit "assets"; lit "data"; lit "tree.json"])
    by (repeat constructor).
  rewrite join_abs_path_names by (assumption || discriminate).
  apply segments_abs_path. apply Forall_app. now split.
Qed.

Lemma write_at_file n data es :
  write_at [n] data (Readable es)
  = match find_entry n es with
    | Some (EFile _ _) | None =>
        Some (Readable (put_entry n (EFile n (Some data)) es))
    | Some _ => None
    end.
Proof. reflexivity. Qed.

Lemma put_put_entry n e es :
  entry_name e = n -> put_entry n e (put_entry n e es) = put_entry n e es.
Proof.
  intros <-. induction es as [|e0 es IH]; cbn [put_entry].
  - now rewrite jstr_eqb_refl.
  - destruct (jstr_eqb (entry_name e0) (entry_name e)) eqn:E; cbn [put_entry].
    + now rewrite jstr_eqb_refl.
    + now rewrite E, IH.
Qed.

(** Writing the same text to the same file once more changes nothing. *)
Lemma write_at_again : forall segs data fs fs',
  write_at segs data fs = Some fs' -> write_at segs data fs' = Some fs'.
Proof.
  induction segs as [|seg rest IH]; intros data fs fs' H; [discriminate H|].
  destruct fs as [|es]; [destruct rest; discriminate H|].
  destruct rest as [|seg' rest'].
  - rewrite write_at_file in H.
    assert (fs' = Readable (put_entry seg (EFile seg (Some data)) es)) as ->
      by (destruct (find_entry seg es) as [[| |]|]; congruence).
    rewrite write_at_file, find_put_entry by reflexivity.
    now rewrite put_put_entry.
  - rewrite write_at_below in H.
    destruct (find_entry seg es) as [[n sub| |]|]; try discriminate H.
    destruct (write_at (seg' :: rest') data sub) as [sub'|] eqn:W; [|discriminate H].
    injection H as <-. apply IH in W.
    rewrite write_at_below, find_put_entry by reflexivity.
    now rewrite W, put_put_entry.
Qed.

(** A write below the directories [p] is a write in the directory at [p]. *)
Lemma write_at_app : forall p q data fs fs',
  q <> [] ->
  write_at (p ++ q) data fs = Some fs' ->
  exists sub', write_at q data (dir_at fs p) = Some sub' /\ dir_at fs' p = sub'.
Proof.
  induction p as [|seg p IH]; intros q data fs fs' Hq H.
  - exists fs'. now split.
  - destruct (p ++ q) as [|seg' rest'] eqn:E;
      [destruct p, q; try discriminate E; congruence|].
    cbn [app] in H. rewrite E in H.
    destruct fs as [|es]; [discriminate H|].
    rewrite write_at_below in H.
    destruct (find_entry seg es) as [[n sub| |]|] eqn:F; try discriminate H.
    destruct (write_at (seg' :: rest') data sub) as [sub1|] eqn:W; [|discriminate H].
    injection H as <-. rewrite <- E in W.
    apply IH in W as (sub' & Hw & Hd); [|exact Hq].
    exists sub'. cbn [dir_at]. rewrite F, find_put_entry by reflexivity.
    now split.
Qed.

Lemma walk_cons_eq recur cur rel e es es' :
  (forall ch out, walk recur cur rel es ch out = walk recur cur rel es' ch out) ->
  forall ch out,
    walk recur cur rel (e :: es) ch out = walk recur cur rel (e :: es') ch out.
Proof.
  intros H ch out. change (e :: es) with ([e] ++ es). change (e :: es') with ([e] ++ es').
  rewrite !walk_app. destruct (walk recur cur rel [e] ch out) as [o [c|x]];
    [apply H|reflexivity].
Qed.

Lemma walk_put_file recur cur rel n content : 
  endsWith n (lit ".html") = false ->
  forall es,
    match find_entry n es with
    | Some (EFile _ _) | None => True
    | Some _ => False
    end ->
    forall ch out,
      walk recur cur rel (put_entry n (EFile n content) es) ch out
      = walk recur cur rel es ch out.
Proof.
  intros Hn. induction es as [|e0 es IH]; intros Hf ch out.
  - cbn [put_entry walk]. cbv zeta. now rewrite Hn.
  - cbn [put_entry find_entry] in *.
    destruct (jstr_eqb (entry_name e0) n) eqn:E.
    + apply jstr_eqb_true in E. destruct e0 as [| n0 c0 |]; try destruct Hf.
      cbn [entry_name] in E. subst n0. cbn [walk]. cbv zeta. now rewrite Hn.
    + apply walk_cons_eq. intros ch' out'. now apply IH.
Qed.

Lemma walk_put_dir recur cur rel seg n0 sub sub1 :
  (forall cur' rel', recur cur' rel' sub1 = recur cur' rel' sub) ->
  forall es,
    find_entry seg es = Some (EDir n0 sub) ->
    forall ch out,
      walk recur cur rel (put_entry seg (EDir seg sub1) es) ch out
      = walk recur cur rel es ch out.
Proof.
  intros Hsub. induction es as [|e0 es IH]; intros Hf ch out; [discriminate Hf|].
  cbn [put_entry find_entry] in *.
  destruct (jstr_eqb (entry_name e0) seg) eqn:E.
  - apply jstr_eqb_true in E. injection Hf as ->. cbn [entry_name] in E. subst n0.
    cbn [walk]. cbv zeta. cbn [entry_name]. now rewrite Hsub.
  - apply walk_cons_eq. intros ch' out'. now apply IH.
Qed.

Lemma last_cons_cons (A : Type) (x y : A) l d : last (x :: y :: l) d = last (y :: l) d.
Proof. reflexivity. Qed.

(** Writing a file that is not a page file does not change what the walk
    of any directory above it prints and returns. *)
Lemma buildTree_after_write : forall q data d d',
  write_at q data d = Some d' ->
  endsWith (last q []) (lit ".html") = false ->
  forall cur rel, buildTree cur rel d' = buildTree cur rel d.
Proof.
  induction q as [|seg rest IH]; intros data d d' H Hn cur rel; [discriminate H|].
  destruct d as [|es]; [destruct rest; discriminate H|].
  destruct rest as [|seg' rest'].
  - rewrite write_at_file in H. cbn [last] in Hn.
    assert (Hf : match find_entry seg es with
                 | Some (EFile _ _) | None => True
                 | Some _ => False
                 end)
      by (destruct (find_entry seg es) as [[| |]|]; try exact I; discriminate H).
    assert (d' = Readable (put_entry seg (EFile seg (Some data)) es)) as ->
      by (destruct (find_entry seg es) as [[| |]|]; congruence).
    cbn [buildTree]. now rewrite walk_put_file.
  - rewrite write_at_below in H. rewrite last_cons_cons in Hn.
    destruct (find_entry seg es) as [[n sub| |]|] eqn:F; try discriminate H.
    destruct (write_at (seg' :: rest') data sub) as [sub1|] eqn:W; [|discriminate H].
    injection H as <-. cbn [buildTree].
    rewrite (@walk_put_dir buildTree cur rel seg n sub sub1); [reflexivity| |exact F].
    intros cur' rel'. exact (@IH _ _ _ W Hn cur' rel').
Qed.

(** X7.  Running the exporter a second time, on the file system the first
    run has left, prints the same lines and leaves the file system, and so
    the output file, as the first run left it. *)
Theorem X7_second_run_changes_nothing segs fs :
  Forall (fun s => valid_name s = true) segs ->
  run (abs_path segs) (snd (run (abs_path segs) fs)) = run (abs_path segs) fs.
Proof.
  intros Hs. unfold run at 2 3. cbv zeta.
  destruct (buildTree (abs_path segs) [] (dir_at fs (segments (abs_path segs))))
    as [out [t|e]] eqn:B; [|cbn [snd]; unfold run; now rewrite B].
  destruct (writeFileSync fs (outputFile (abs_path segs)) (JSON_stringify t))
    as [fs'|] eqn:W; [|cbn [snd]; unfold run; now rewrite B, W].
  cbn [snd]. unfold run. cbv zeta.
  unfold writeFileSync in *. rewrite segments_abs_path in * by exact Hs.
  rewrite outputFile_segments in * by exact Hs.
  pose proof W as W0.
  apply write_at_app in W as (sub' & Hw & Hd); [|discriminate].
  rewrite Hd.
  rewrite (@buildTree_after_write _ _ _ _ Hw) by (vm_compute; reflexivity).
  rewrite B. now rewrite (@write_at_again _ _ _ _ W0).
Qed.

Lemma X7_witness :
  run (abs_path [lit "home"; lit "proj"])
    (snd (run (abs_path [lit "home"; lit "proj"]) (in_home sample_project)))
  = run (abs_path [lit "home"; lit "proj"]) (in_home sample_project).
Proof.
  apply (@X7_second_run_changes_nothing [lit "home"; lit "proj"] (in_home sample_project)).
  repeat constructor.
Defined.

(* ================================================================== *)
(** ** Names of the directory nodes; the output directory *)

Lemma descend_abs_path : forall dirs segs,
  Forall (fun s => valid_name s = true) segs ->
  Forall (fun s => valid_name s = true) dirs ->
  descend (abs_path segs) dirs = abs_path (segs ++ dirs).
Proof.
  induction dirs as [|dn dirs IH]; intros segs Hs Hd; cbn [descend].
  - now rewrite app_nil_r.
  - inversion Hd as [|dn' dirs' Hdn Hd']; subst.
    rewrite join_abs_path by assumption. rewrite IH; [|
      apply Forall_app; split; [exact Hs|now constructor] | exact Hd'].
    now rewrite <- app_assoc.
Qed.

Lemma calls_dir_below : forall d dirs d',
  dir_below d dirs d' ->
  forall cur rel,
    In {| call_currentPath := descend cur dirs;
          call_relativePath := descend_rel cur rel dirs;
          call_dir := d' |}
       (calls cur rel d).
Proof.
  induction 1 as [d|es dn sub dirs d' Hin Hb IH]; intros cur rel.
  - destruct d; cbn [calls descend descend_rel]; now left.
  - cbn [calls descend descend_rel]. right. apply in_flat_map.
    exists (EDir dn sub). split; [exact Hin|]. apply IH.
Qed.

(** X8.  A directory node carries the name of its directory: the node the
    walk returns for the directory reached through [dirs] is named by the
    last of these names, and the root node by the last component of the
    scan root (the empty name for [/]); that node is a node of the
    returned tree. *)
Theorem X8_directory_node_name segs d dirs d' out t :
  Forall (fun s => valid_name s = true) segs ->
  Forall (fun s => valid_name s = true) dirs ->
  buildTree (abs_path segs) [] d = (out, Returned t) ->
  dir_below d dirs d' ->
  exists out' t',
    buildTree (abs_path (segs ++ dirs)) (descend_rel (abs_path segs) [] dirs) d'
    = (out', Returned t') /\
    forall n, t' = Some n ->
      In n (tree_nodes t) /\
      exists children, n = Folder (last (segs ++ dirs) []) children.
Proof.
  intros Hs Hd Hb Hbelow.
  pose proof (calls_dir_below Hbelow (abs_path segs) []) as Hc.
  destruct (calls_returned _ _ _ Hb _ Hc) as (out' & t' & Hr & Hn).
  unfold call_result in Hr. cbn [call_currentPath call_relativePath call_dir] in Hr.
  rewrite descend_abs_path in Hr by assumption.
  exists out', t'. split; [exact Hr|]. intros n ->.
  split; [now apply Hn|].
  assert (Hall : Forall (fun s => valid_name s = true) (segs ++ dirs))
    by (apply Forall_app; now split).
  destruct d' as [|es]; [discriminate Hr|].
  apply buildTree_returned in Hr as (parts & _ & Ht).
  rewrite basename_abs_path in Ht by exact Hall.
  destruct (concat parts) as [|c l]; [discriminate Ht|].
  injection Ht as ->. now eexists.
Qed.

Lemma X8_witness :
  exists out' t',
    buildTree (abs_path ([lit "home"; lit "proj"] ++ [lit "x"; lit "y"]))
      (descend_rel (abs_path [lit "home"; lit "proj"]) [] [lit "x"; lit "y"]) sample_y
    = (out', Returned t') /\
    forall n, t' = Some n ->
      In n (tree_nodes sample_tree) /\
      exists children,
        n = Folder (last ([lit "home"; lit "proj"] ++ [lit "x"; lit "y"]) []) children.
Proof.
  apply (@X8_directory_node_name [lit "home"; lit "proj"] sample_project
           [lit "x"; lit "y"] sample_y sample_out sample_tree).
  - repeat constructor.
  - repeat constructor.
  - vm_compute. reflexivity.
  - apply dir_deeper with (sub := sample_x); [pick_member|].
    apply dir_deeper with (sub := sample_y); [pick_member|].
    apply dir_itself.
Defined.

Lemma write_at_parent p f data fs fs' :
  write_at (p ++ [f]) data fs = Some fs' -> exists es, dir_at fs p = Readable es.
Proof.
  intros H. apply write_at_app in H as (sub' & Hw & _); [|discriminate].
  destruct (dir_at fs p) as [|es]; [discriminate Hw|now exists es].
Qed.

(** X9.  The run creates no directory: when [assets/data] below the scan
    root is not there (or cannot be listed), whatever the project holds,
    nothing is written and the file system is left as it was. *)
Theorem X9_no_output_directory_no_write segs fs :
  Forall (fun s => valid_name s = true) segs ->
  dir_at fs (segs ++ [lit "assets"; lit "data"]) = Unreadable ->
  snd (run (abs_path segs) fs) = fs /\
  exists out e, fst (run (abs_path segs) fs) = LogScanning :: out ++ [ErrorExportFailed e].
Proof.
  intros Hs Hd. unfold run. cbv zeta.
  destruct (buildTree (abs_path segs) [] (dir_at fs (segments (abs_path segs))))
    as [out [t|e]]; [|split; [reflexivity|now exists out, e]].
  destruct (writeFileSync fs (outputFile (abs_path segs)) (JSON_stringify t))
    as [fs'|] eqn:W; [|split; [reflexivity|now eexists _, _]].
  exfalso. unfold writeFileSync in W. rewrite outputFile_segments in W by exact Hs.
  change (segs ++ [lit "assets"; lit "data"; lit "tree.json"])
    with (segs ++ [lit "assets"; lit "data"] ++ [lit "tree.json"]) in W.
  rewrite app_assoc in W. apply write_at_parent in W as (es & He). congruence.
Qed.

Lemma X9_witness :
  snd (run (abs_path [lit "home"; lit "proj"]) (in_home project_without_output_dir))
  = in_home project_without_output_dir /\
  exists out e,
    fst (run (abs_path [lit "home"; lit "proj"]) (in_home project_without_output_dir))
    = LogScanning :: out ++ [ErrorExportFailed e].
Proof.
  apply (@X9_no_output_directory_no_write [lit "home"; lit "proj"]
           (in_home project_without_output_dir)).
  - repeat constructor.
  - vm_compute. reflexivity.
Defined.

(* ================================================================== *)
(** ** The index exporter *)

Lemma index_children_inv recur cur rel : forall es ch0 ch,
  index_children recur cur rel es ch0 = Returned ch ->
  exists added,
    ch = ch0 ++ added /\
    Forall2 (fun e c =>
               match e with
               | EDir n sub =>
                   recur (join [cur; n]) (join [rel; basename cur]) sub = Returned c
               | EFile n _ => c = ItemFile n
               | EOther _ => False
               end)
            (filter (fun e => match e with EOther _ => false | _ => true end) es)
            added.
Proof.
  induction es as [|e es IH]; intros ch0 ch H; cbn [index_children] in H.
  - injection H as <-. exists []. split; [now rewrite app_nil_r|constructor].
  - destruct e as [n sub|n content|n]; cbv zeta in H; cbn [filter].
    + destruct (recur (join [cur; n]) (join [rel; basename cur]) sub) as [c|err] eqn:E;
        [|discriminate H].
      apply IH in H as (added & -> & HF). exists (c :: added).
      split; [now rewrite <- app_assoc|]. now constructor.
    + apply IH in H as (added & -> & HF). exists (ItemFile n :: added).
      split; [now rewrite <- app_assoc|]. now constructor.
    + now apply IH.
Qed.

Lemma index_children_thrown recur cur rel : forall es ch0 err,
  index_children recur cur rel es ch0 = Thrown err ->
  exists n sub,
    In (EDir n sub) es /\
    recur (join [cur; n]) (join [rel; basename cur]) sub = Thrown err.
Proof.
  induction es as [|e es IH]; intros ch0 err H; cbn [index_children] in H;
    [discriminate H|].
  destruct e as [n sub|n content|n]; cbv zeta in H.
  - destruct (recur (join [cur; n]) (join [rel; basename cur]) sub) as [c|err'] eqn:E.
    + apply IH in H as (n' & sub' & Hin & Hr). exists n', sub'. split; [now right|exact Hr].
    + injection H as <-. exists n, sub. split; [now left|exact E].
  - apply IH in H as (n' & sub' & Hin & Hr). exists n', sub'. split; [now right|exact Hr].
  - apply IH in H as (n' & sub' & Hin & Hr). exists n', sub'. split; [now right|exact Hr].
Qed.

Lemma buildIndexTree_returned cur rel es t :
  buildIndexTree cur rel (Readable es) = Returned t ->
  exists children,
    index_children buildIndexTree cur rel es [] = Returned children /\
    t = ItemDir (basename cur)
          (if existsb is_index_file es
           then Some (replace_backslashes (join [rel; basename cur; lit "index.html"]))
           else None)
          None children.
Proof.
  cbn [buildIndexTree]. cbv zeta.
  destruct (index_children buildIndexTree cur rel es []) as [ch|err]; [|discriminate].
  intros [= <-]. now exists ch.
Qed.

(** X10.  The index exporter leaves nothing out: the file names in the
    tree it returns are the names of all regular files below the scan
    root, of whatever kind and in the order of the walk, and the tree has
    one object for the scan root and one for each directory below it. *)
Theorem X10_index_tree_lists_everything : forall d cur rel t,
  buildIndexTree cur rel d = Returned t ->
  item_files t = listed_files d /\ item_dirs t = S (listed_dirs d).
Proof.
  induction d as [|es IH] using dir_induction; intros cur rel t H.
  - discriminate H.
  - apply buildIndexTree_returned in H as (ch & Hc & ->).
    apply index_children_inv in Hc as (added & -> & HF). cbn [app].
    cbn [item_files item_dirs listed_files listed_dirs].
    enough (G : flat_map item_files added
                = flat_map (fun e => match e with
                                     | EDir _ sub => listed_files sub
                                     | EFile n _ => [n]
                                     | EOther _ => []
                                     end) es /\
                list_sum (map item_dirs added)
                = list_sum (map (fun e => match e with
                                          | EDir _ sub => S (listed_dirs sub)
                                          | _ => 0%nat
                                          end) es))
      by (destruct G as [G1 G2]; now rewrite G1, G2).
    revert added HF.
    induction es as [|e es IHes]; intros added HF; cbn [filter] in HF.
    + inversion HF. now split.
    + assert (IH' : forall n sub, In (EDir n sub) es ->
                forall cur rel t,
                  buildIndexTree cur rel sub = Returned t ->
                  item_files t = listed_files sub /\ item_dirs t = S (listed_dirs sub))
        by (intros n sub Hin; apply (IH n sub); now right).
      destruct e as [n sub|n content|n].
      * inversion HF as [|e' c es' added' Hc HF']; subst.
        destruct (IH n sub (or_introl eq_refl) _ _ _ Hc) as [H1 H2].
        destruct (IHes IH' _ HF') as [G1 G2].
        unfold list_sum in *. cbn [flat_map map fold_right].
        now rewrite H1, H2, G1, G2.
      * inversion HF as [|e' c es' added' Hc HF']; subst.
        destruct (IHes IH' _ HF') as [G1 G2].
        unfold list_sum in *. cbn [flat_map map fold_right item_files item_dirs app].
        now rewrite G1, G2.
      * destruct (IHes IH' _ HF) as [G1 G2].
        unfold list_sum in *. cbn [flat_map map fold_right app].
        now rewrite G1, G2.
Qed.

Lemma X10_witness :
  item_files (ItemDir (lit "proj") None None
                [ItemFile (lit "a.html")])
  = listed_files project_without_output_dir /\
  item_dirs (ItemDir (lit "proj") None None [ItemFile (lit "a.html")])
  = S (listed_dirs project_without_output_dir).
Proof.
  apply (@X10_index_tree_lists_everything project_without_output_dir sample_cwd []).
  vm_compute. reflexivity.
Defined.

(** X11.  The index exporter opens no file: its walk returns whenever
    every directory below the scan root can be listed, whatever the files
    are, and otherwise throws the failure of a [readdirSync]. *)
Theorem X11_index_walk_fails_on_directories_only : forall d cur rel,
  match buildIndexTree cur rel d with
  | Returned _ => unlistable_inside d = false
  | Thrown e => unlistable_inside d = true /\ exists p, e = ReaddirFailed p
  end.
Proof.
  induction d as [|es IH] using dir_induction; intros cur rel.
  - cbn. split; [reflexivity|now eexists].
  - destruct (buildIndexTree cur rel (Readable es)) as [t|err] eqn:E.
    + apply buildIndexTree_returned in E as (ch & Hc & _).
      apply index_children_inv in Hc as (added & _ & HF).
      cbn [unlistable_inside].
      destruct (existsb _ es) eqn:Ex; [|reflexivity]. exfalso.
      apply existsb_exists in Ex as (e & Hin & He).
      destruct e as [n sub|n content|n]; try discriminate He.
      assert (Hf : In (EDir n sub)
                     (filter (fun e => match e with EOther _ => false | _ => true end) es))
        by (apply filter_In; now split).
      clear -HF Hf He IH Hin.
      induction HF as [|e c l added He' HF IHF]; [destruct Hf|].
      destruct Hf as [->|Hf]; [|now apply IHF].
      specialize (IH n sub Hin (join [cur; n]) (join [rel; basename cur])).
      rewrite He' in IH. congruence.
    + cbn [buildIndexTree] in E. cbv zeta in E.
      destruct (index_children buildIndexTree cur rel es []) as [ch|err'] eqn:C;
        [discriminate E|].
      injection E as <-.
      apply index_children_thrown in C as (n & sub & Hin & Hr).
      specialize (IH n sub Hin (join [cur; n]) (join [rel; basename cur])).
      rewrite Hr in IH. destruct IH as (Hu & Hp). split; [|exact Hp].
      cbn [unlistable_inside]. apply existsb_exists. exists (EDir n sub). now split.
Qed.

Lemma index_children_keeps recur cur rel : forall es ch0 ch,
  index_children recur cur rel es ch0 = Returned ch ->
  forall n sub, In (EDir n sub) es ->
    exists c,
      recur (join [cur; n]) (join [rel; basename cur]) sub = Returned c /\ In c ch.
Proof.
  intros es ch0 ch H n sub Hin.
  apply index_children_inv in H as (added & -> & HF).
  assert (Hf : In (EDir n sub)
                 (filter (fun e => match e with EOther _ => false | _ => true end) es))
    by (apply filter_In; now split).
  clear Hin. induction HF as [|e c l added He HF IHF]; [destruct Hf|].
  destruct Hf as [->|Hf].
  - exists c. split; [exact He|]. apply in_or_app. right. now left.
  - destruct (IHF Hf) as (c' & Hc' & Hin'). exists c'. split; [exact Hc'|].
    apply in_app_or in Hin' as [Hin'|Hin']; apply in_or_app; [now left|].
    right. now right.
Qed.

(** The call on a directory below, and its object in the tree. *)
Lemma index_below : forall d dirs d',
  dir_below d dirs d' ->
  forall cur rel t,
    buildIndexTree cur rel d = Returned t ->
    exists t',
      buildIndexTree (descend cur dirs) (descend_rel cur rel dirs) d' = Returned t' /\
      In t' (items t).
Proof.
  induction 1 as [d|es dn sub dirs d' Hin Hb IH]; intros cur rel t H.
  - exists t. split; [exact H|]. destruct t; cbn; now left.
  - apply buildIndexTree_returned in H as (ch & Hc & ->).
    destruct (index_children_keeps _ _ _ _ _ Hc dn sub Hin) as (c & Hr & Hcin).
    destruct (IH _ _ _ Hr) as (t' & Ht' & Hin').
    exists t'. split; [exact Ht'|]. cbn [items]. right.
    apply in_flat_map. now exists c.
Qed.

Lemma joined_nonempty_names_abs segs dirs n :
  Forall (fun s => valid_name s = true) segs ->
  Forall (fun s => valid_name s = true) dirs ->
  valid_name n = true ->
  joined_nonempty_names (abs_path segs) dirs n
  = intercalate [SLASH] (nonempty_only (last segs []) ++ dirs ++ [n]).
Proof.
  intros Hs Hd Hn. unfold joined_nonempty_names.
  rewrite basename_abs_path by exact Hs. cbn [filter]. unfold nonempty_only.
  rewrite filter_nonempty_valid
    by (apply Forall_app; split; [exact Hd|now constructor]).
  now destruct (is_empty (last segs [])).
Qed.

(** X12.  The object of a directory in the index tree carries the name of
    the directory and, exactly when the directory holds a regular file
    whose name is [index.html] in any letter case, an [indexPath]: the
    slash join of the base name of the scan root, the directory names and
    [index.html] in lower case, backslashes turned into slashes. *)
Theorem X12_index_path segs d dirs es' t :
  Forall (fun s => valid_name s = true) segs ->
  Forall (fun s => valid_name s = true) dirs ->
  dir_below d dirs (Readable es') ->
  buildIndexTree (abs_path segs) [] d = Returned t ->
  exists children,
    In (ItemDir (last (segs ++ dirs) [])
          (if existsb is_index_file es'
           then Some (replace_backslashes
                        (joined_nonempty_names (abs_path segs) dirs (lit "index.html")))
           else None)
          None children)
       (items t).
Proof.
  intros Hs Hd Hb H.
  destruct (index_below Hb _ _ H) as (t' & Ht' & Hin).
  apply buildIndexTree_returned in Ht' as (ch & _ & ->).
  exists ch.
  assert (Hn : valid_name (lit "index.html") = true) by reflexivity.
  rewrite (@descend_path dirs segs [] [] (lit "index.html") Hs Hd Hn) in Hin;
    [| left; split; [reflexivity|now left] | constructor].
  rewrite descend_abs_path in Hin by assumption.
  rewrite basename_abs_path in Hin
    by (apply Forall_app; now split).
  now rewrite joined_nonempty_names_abs by assumption.
Qed.

Lemma X12_witness :
  exists children,
    In (ItemDir (last ([lit "home"; lit "proj"] ++ [lit "docs"]) [])
          (if existsb is_index_file [EFile (lit "index.html") None; EOther (lit "link")]
           then Some (replace_backslashes
                        (joined_nonempty_names (abs_path [lit "home"; lit "proj"])
                           [lit "docs"] (lit "index.html")))
           else None)
          None children)
       (items (ItemDir (lit "proj") (Some (lit "proj/index.html")) None
                 [ItemFile (lit "INDEX.HTML");
                  ItemDir (lit "docs") (Some (lit "proj/docs/index.html")) None
                    [ItemFile (lit "index.html")]])).
Proof.
  apply (@X12_index_path [lit "home"; lit "proj"] locked_project [lit "docs"]
           [EFile (lit "index.html") None; EOther (lit "link")]).
  - repeat constructor.
  - repeat constructor.
  - apply dir_deeper
      with (sub := Readable [EFile (lit "index.html") None; EOther (lit "link")]);
      [pick_member|apply dir_itself].
  - vm_compute. reflexivity.
Defined.

Lemma dir_at_app : forall p1 p2 fs, dir_at fs (p1 ++ p2) = dir_at (dir_at fs p1) p2.
Proof.
  induction p1 as [|seg p1 IH]; intros p2 fs; [reflexivity|].
  cbn [app dir_at]. destruct fs as [|es]; [now destruct p2|].
  destruct (find_entry seg es) as [[n sub| |]|];
    [apply IH|now destruct p2|now destruct p2|now destruct p2].
Qed.

(** Creating directories in a new, empty directory. *)
Lemma mkdir_p_fresh : forall rest,
  exists s, mkdir_p rest (Readable []) = Some s /\ dir_at s rest = Readable [].
Proof.
  induction rest as [|seg rest (s & Hs & Hd)]; [now exists (Readable [])|].
  cbn [mkdir_p find_entry]. rewrite Hs. eexists. split; [reflexivity|].
  cbn [put_entry dir_at find_entry entry_name]. now rewrite jstr_eqb_refl.
Qed.

(** Creating a path whose first component is missing. *)
Lemma mkdir_p_missing p2 es :
  p2 <> [] -> find_entry (hd [] p2) es = None ->
  exists s, mkdir_p p2 (Readable es) = Some s /\ dir_at s p2 = Readable [].
Proof.
  destruct p2 as [|seg rest]; [congruence|]. intros _ Hf. cbn [hd] in Hf.
  destruct (mkdir_p_fresh rest) as (s & Hs & Hd).
  cbn [mkdir_p]. rewrite Hf, Hs. eexists. split; [reflexivity|].
  cbn [dir_at]. now rewrite find_put_entry.
Qed.

(** Creating directories below a directory that is there. *)
Lemma mkdir_p_below : forall p1 p2 fs es s,
  dir_at fs p1 = Readable es ->
  mkdir_p p2 (Readable es) = Some s ->
  exists fs1, mkdir_p (p1 ++ p2) fs = Some fs1 /\ dir_at fs1 p1 = s.
Proof.
  induction p1 as [|seg p1 IH]; intros p2 fs es s Hd Hm.
  - cbn [dir_at] in Hd. subst fs. now exists s.
  - cbn [dir_at] in Hd. destruct fs as [|es0]; [discriminate Hd|].
    destruct (find_entry seg es0) as [[n sub| |]|] eqn:F; try discriminate Hd.
    destruct (IH p2 sub es s Hd Hm) as (sub1 & Hs1 & Hd1).
    cbn [app mkdir_p]. rewrite F, Hs1. eexists. split; [reflexivity|].
    cbn [dir_at]. now rewrite find_put_entry.
Qed.

(** Writing a new file into a directory that is there. *)
Lemma write_at_new_file : forall p f data fs es,
  dir_at fs p = Readable es -> find_entry f es = None ->
  exists fs2, write_at (p ++ [f]) data fs = Some fs2.
Proof.
  induction p as [|seg p IH]; intros f data fs es Hd Hf.
  - cbn [dir_at] in Hd. subst fs. cbn [app]. rewrite write_at_file, Hf. now eexists.
  - cbn [dir_at] in Hd. destruct fs as [|es0]; [discriminate Hd|].
    destruct (find_entry seg es0) as [[n sub| |]|] eqn:F; try discriminate Hd.
    destruct (IH f data sub es Hd Hf) as (sub2 & Hw).
    cbn [app]. destruct (p ++ [f]) as [|seg' rest'] eqn:E; [now destruct p|].
    rewrite write_at_below, F, Hw. now eexists.
Qed.

Lemma index_output_segments segs :
  Forall (fun s => valid_name s = true) segs ->
  segments (outputDir (abs_path segs)) = segs ++ [lit "assets"; lit "data"] /\
  segments (indexOutputFile (abs_path segs))
  = (segs ++ [lit "assets"; lit "data"]) ++ [lit "tree.json"].
Proof.
  intros Hs. unfold indexOutputFile, outputDir.
  assert (Hn : Forall (fun s => valid_name s = true) [lit "assets"; lit "data"])
    by (repeat constructor).
  assert (Hall : Forall (fun s => valid_name s = true)
                   (segs ++ [lit "assets"; lit "data"]))
    by (apply Forall_app; now split).
  rewrite join_abs_path_names by (assumption || discriminate).
  split; [now apply segments_abs_path|].
  rewrite join_abs_path by (assumption || reflexivity).
  apply segments_abs_path. apply Forall_app. split; [exact Hall|now repeat constructor].
Qed.

(** X13.  The index exporter makes its output directory: when the walk
    returns and, at some point of the path to [assets/data] below the scan
    root, the next directory is missing, the run creates the missing
    directories and writes [tree.json] with the JSON text of the tree. *)
Theorem X13_index_run_creates_output_directory segs fs t p1 p2 es :
  Forall (fun s => valid_name s = true) segs ->
  buildIndexTree (abs_path segs) [] (dir_at fs segs) = Returned t ->
  segs ++ [lit "assets"; lit "data"] = p1 ++ p2 ->
  dir_at fs p1 = Readable es ->
  p2 <> [] -> find_entry (hd [] p2) es = None ->
  fst (run_index (abs_path segs) fs)
  = [IndexScanning; IndexExported (indexOutputFile (abs_path segs))] /\
  file_at (snd (run_index (abs_path segs) fs))
    (segments (indexOutputFile (abs_path segs)))
  = Some (stringify_json [] (item_json t)).
Proof.
  intros Hs Hb Hsplit Hd Hp2 Hf.
  destruct (index_output_segments Hs) as [Hdir Hfile].
  destruct (@mkdir_p_missing p2 es Hp2 Hf) as (s & Hm & Hds).
  destruct (@mkdir_p_below p1 p2 fs es s Hd Hm) as (fs1 & Hm1 & Hd1).
  assert (Hnew : dir_at fs1 (p1 ++ p2) = Readable [])
    by (rewrite dir_at_app, Hd1; exact Hds).
  destruct (@write_at_new_file (p1 ++ p2) (lit "tree.json")
              (stringify_json [] (item_json t)) fs1 [] Hnew eq_refl) as (fs2 & Hw).
  unfold run_index. cbv zeta. rewrite segments_abs_path by exact Hs. rewrite Hb.
  unfold mkdirSync_recursive, writeFileSync. rewrite Hdir, Hfile, Hsplit, Hm1, Hw.
  cbn [fst snd]. split; [reflexivity|]. exact (@write_then_read _ _ _ _ Hw).
Qed.

Lemma X13_witness :
  fst (run_index (abs_path [lit "home"; lit "proj"]) (in_home project_without_output_dir))
  = [IndexScanning; IndexExported (indexOutputFile (abs_path [lit "home"; lit "proj"]))] /\
  file_at (snd (run_index (abs_path [lit "home"; lit "proj"])
                  (in_home project_without_output_dir)))
    (segments (indexOutputFile (abs_path [lit "home"; lit "proj"])))
  = Some (stringify_json []
            (item_json (ItemDir (lit "proj") None None [ItemFile (lit "a.html")]))).
Proof.
  apply (@X13_index_run_creates_output_directory
           [lit "home"; lit "proj"] (in_home project_without_output_dir)
           (ItemDir (lit "proj") None None [ItemFile (lit "a.html")])
           [lit "home"; lit "proj"] [lit "assets"; lit "data"]
           [EFile (lit "a.html") (Some page_include)]).
  - repeat constructor.
  - vm_compute. reflexivity.
  - reflexivity.
  - vm_compute. reflexivity.
  - discriminate.
  - vm_compute. reflexivity.
Defined.

(* ================================================================== *)
(** ** The index exporter with page titles *)

Lemma title_children_inv cur rel : forall es ch0 out0 out ch,
  title_children buildTitleTree cur rel es ch0 out0 = (out, Returned ch) ->
  exists added,
    ch = ch0 ++ added /\
    Forall2 (fun e c =>
               match e with
               | EDir n sub =>
                   exists o,
                     buildTitleTree (join [cur; n]) (join [rel; basename cur]) sub
                     = (o, Returned c)
               | EFile n _ => c = ItemFile n
               | EOther _ => False
               end)
            (filter (fun e => match e with EOther _ => false | _ => true end) es)
            added.
Proof.
  induction es as [|e es IH]; intros ch0 out0 out ch H; cbn [title_children] in H.
  - injection H as _ <-. exists []. split; [now rewrite app_nil_r|constructor].
  - destruct e as [n sub|n content|n]; cbv zeta in H; cbn [filter entry_name] in *.
    + destruct (buildTitleTree (join [cur; n]) (join [rel; basename cur]) sub)
        as [o [c|err]] eqn:E; [|discriminate H].
      apply IH in H as (added & -> & HF). exists (c :: added).
      split; [now rewrite <- app_assoc|]. constructor; [now exists o|exact HF].
    + apply IH in H as (added & -> & HF). exists (ItemFile n :: added).
      split; [now rewrite <- app_assoc|]. now constructor.
    + now apply IH in H.
Qed.

Lemma buildTitleTree_returned cur rel es out t :
  buildTitleTree cur rel (Readable es) = (out, Returned t) ->
  exists o indexPath title children,
    index_properties cur rel es = (o, indexPath, title) /\
    title_children buildTitleTree cur rel es [] o = (out, Returned children) /\
    t = ItemDir (basename cur) indexPath title children.
Proof.
  cbn [buildTitleTree]. cbv zeta.
  destruct (index_properties cur rel es) as [[o ip] ti].
  destruct (title_children buildTitleTree cur rel es [] o) as [o' [ch|err]] eqn:E;
    [|discriminate].
  intros [= <- <-]. now exists o, ip, ti, ch.
Qed.

Lemma extractTitleFromIndex_shape p content o x :
  extractTitleFromIndex p content = (o, Some x) ->
  no_line_terminator x /\
  (forall c r, x = c :: r -> is_space c = false) /\
  (forall pre c, x = pre ++ [c] -> is_space c = false).
Proof.
  unfold extractTitleFromIndex. destruct content as [html|]; [|discriminate].
  destruct (exec true title_re html) as [c|] eqn:E; [|discriminate].
  apply exec_title_Some in E as (pre & t & post & ((o' & cl & _ & _ & _ & Ht) & _) & Hc).
  rewrite Hc. destruct t as [|c0 t]; [discriminate|]. intros [= _ <-].
  destruct (trim_shape (c0 :: t)) as ((p' & q & Hpq) & Hhead & Hlast).
  split; [|split; assumption].
  unfold no_line_terminator in *. rewrite Hpq in Ht.
  apply Forall_app in Ht as [_ Ht]. now apply Forall_app in Ht as [Ht _].
Qed.

Lemma index_properties_title cur rel es o indexPath x :
  index_properties cur rel es = (o, indexPath, Some x) ->
  x <> [] /\ indexPath <> None /\
  no_line_terminator x /\
  (forall c r, x = c :: r -> is_space c = false) /\
  (forall pre c, x = pre ++ [c] -> is_space c = false).
Proof.
  unfold index_properties. cbv zeta.
  destruct (existsb is_exact_index_file es); [|discriminate].
  destruct (extractTitleFromIndex (join [cur; lit "index.html"]) (index_content es))
    as [o' [[|c0 x']|]] eqn:E; try discriminate.
  intros [= _ <- <-]. split; [discriminate|]. split; [discriminate|].
  exact (extractTitleFromIndex_shape _ _ E).
Qed.

Lemma Forall2_member (A B : Type) (R : A -> B -> Prop) (f : A -> bool) es added c :
  Forall2 R (filter f es) added -> In c added ->
  exists e, In e es /\ R e c.
Proof.
  intros HF. remember (filter f es) as l eqn:El.
  assert (Hl : forall e, In e l -> In e es)
    by (intros e He; rewrite El in He; now apply filter_In in He).
  clear El. induction HF as [|e c' l added He HF IHF]; intros Hc; [destruct Hc|].
  destruct Hc as [->|Hc].
  - exists e. split; [apply Hl; now left|exact He].
  - apply IHF; [|exact Hc]. intros e0 H0. apply Hl. now right.
Qed.

Lemma title_shape_everywhere : forall d cur rel out t,
  buildTitleTree cur rel d = (out, Returned t) ->
  forall name indexPath title children,
    In (ItemDir name indexPath (Some title) children) (items t) ->
    title <> [] /\ indexPath <> None /\
    no_line_terminator title /\
    (forall c r, title = c :: r -> is_space c = false) /\
    (forall pre c, title = pre ++ [c] -> is_space c = false).
Proof.
  induction d as [|es IH] using dir_induction;
    intros cur rel out t H name ip title ch Hin.
  - discriminate H.
  - apply buildTitleTree_returned in H as (o & ip0 & ti0 & ch0 & Hp & Hc & ->).
    cbn [items] in Hin. destruct Hin as [Heq|Hin].
    + injection Heq as <- <- -> <-. exact (@index_properties_title _ _ _ _ _ _ Hp).
    + apply title_children_inv in Hc as (added & -> & HF). cbn [app] in Hin.
      apply in_flat_map in Hin as (c & Hc & Hin).
      destruct (@Forall2_member _ _ _ _ _ _ _ HF Hc) as (e & He & HR).
      destruct e as [n sub|n content|n]; [| |destruct HR].
      * destruct HR as (o' & HR). exact (IH n sub He _ _ _ _ HR _ _ _ _ Hin).
      * subst c. destruct Hin as [Hin|[]]. discriminate Hin.
Qed.

Lemma find_entry_found n : forall es e,
  find_entry n es = Some e -> In e es /\ jstr_eqb (entry_name e) n = true.
Proof.
  induction es as [|e0 es IH]; intros e H; [discriminate H|].
  cbn [find_entry] in H. destruct (jstr_eqb (entry_name e0) n) eqn:E.
  - injection H as <-. split; [now left|exact E].
  - destruct (IH _ H) as [Hin He]. split; [now right|exact He].
Qed.

(** An [index.html] that is read is a regular file of that name. *)
Lemma index_content_is_file es html :
  index_content es = Some html -> existsb is_exact_index_file es = true.
Proof.
  unfold index_content.
  destruct (find_entry (lit "index.html") es) as [[n sub|n content|n]|] eqn:F;
    try discriminate.
  intros _. apply find_entry_found in F as [Hin He].
  apply existsb_exists. exists (EFile n content). split; [exact Hin|exact He].
Qed.

(** What [extractTitleFromIndex] returns, in terms of the title pairs of
    the text. *)
Lemma extractTitleFromIndex_exact p content o r :
  extractTitleFromIndex p content = (o, r) ->
  match content with
  | None => r = None
  | Some html =>
      ((forall pre t post, ~ title_at html pre t post) -> r = None) /\
      (forall pre t post,
         first_title html pre t post ->
         r = match t with [] => None | _ :: _ => Some (trim t) end)
  end.
Proof.
  unfold extractTitleFromIndex. destruct content as [html|]; [|now intros [= _ <-]].
  destruct (exec true title_re html) as [c|] eqn:E.
  - apply exec_title_Some in E as (pre0 & t0 & post0 & Hft & Hc). rewrite Hc.
    intros Hr. split.
    + intros Hno. destruct Hft as [Hat _]. destruct (Hno _ _ _ Hat).
    + intros pre t post Hft'.
      rewrite (first_title_unique Hft' Hft).
      destruct t0 as [|c0 t0]; now injection Hr as _ <-.
  - intros [= _ <-]. split; [reflexivity|].
    intros pre t post [Hat _]. destruct (exec_title_None E Hat).
Qed.

(** The [title] property of a directory, in terms of its [index.html]. *)
Lemma index_properties_title_exact cur rel es o indexPath title :
  index_properties cur rel es = (o, indexPath, title) ->
  (index_content es = None -> title = None) /\
  (forall html,
     index_content es = Some html ->
     (forall pre t post, ~ title_at html pre t post) -> title = None) /\
  (forall html pre t post,
     index_content es = Some html -> first_title html pre t post ->
     (trim t = [] -> title = None) /\
     (trim t <> [] -> title = Some (trim t))).
Proof.
  unfold index_properties. cbv zeta.
  destruct (existsb is_exact_index_file es) eqn:Ex.
  - destruct (extractTitleFromIndex (join [cur; lit "index.html"]) (index_content es))
      as [o' r] eqn:E.
    apply extractTitleFromIndex_exact in E.
    intros Hp.
    assert (Ht : title = match r with Some (_ :: _) => r | _ => None end)
      by (destruct r as [[|y ys]|]; now injection Hp as _ _ <-).
    clear Hp. subst title.
    destruct (index_content es) as [html|].
    + destruct E as [Hno Hfirst]. split; [discriminate|]. split.
      * intros html' [= <-] H. now rewrite (Hno H).
      * intros html' pre t post [= <-] Hft. rewrite (Hfirst _ _ _ Hft).
        destruct t as [|c0 t]; [split; [reflexivity|intros H; now destruct H]|].
        destruct (trim (c0 :: t)) as [|y ys];
          split; try reflexivity; try discriminate; intros H; now destruct H.
    + subst r. split; [reflexivity|]. split; discriminate.
  - intros [= _ _ <-]. split; [reflexivity|]. split; [reflexivity|].
    intros html pre t post IC. apply index_content_is_file in IC. congruence.
Qed.

Lemma title_children_keeps cur rel : forall es ch0 out0 out ch,
  title_children buildTitleTree cur rel es ch0 out0 = (out, Returned ch) ->
  forall n sub, In (EDir n sub) es ->
    exists o c,
      buildTitleTree (join [cur; n]) (join [rel; basename cur]) sub = (o, Returned c) /\
      In c ch.
Proof.
  intros es ch0 out0 out ch H n sub Hin.
  apply title_children_inv in H as (added & -> & HF).
  assert (Hf : In (EDir n sub)
                 (filter (fun e => match e with EOther _ => false | _ => true end) es))
    by (apply filter_In; now split).
  clear Hin. induction HF as [|e c l added He HF IHF]; [destruct Hf|].
  destruct Hf as [->|Hf].
  - destruct He as (o & He). exists o, c. split; [exact He|].
    apply in_or_app. right. now left.
  - destruct (IHF Hf) as (o' & c' & Hc' & Hin'). exists o', c'. split; [exact Hc'|].
    apply in_app_or in Hin' as [Hin'|Hin']; apply in_or_app; [now left|].
    right. now right.
Qed.

(** The call on a directory below, and its object in the tree. *)
Lemma title_below : forall d dirs d',
  dir_below d dirs d' ->
  forall cur rel out t,
    buildTitleTree cur rel d = (out, Returned t) ->
    exists o t',
      buildTitleTree (descend cur dirs) (descend_rel cur rel dirs) d' = (o, Returned t') /\
      In t' (items t).
Proof.
  induction 1 as [d|es dn sub dirs d' Hin Hb IH]; intros cur rel out t H.
  - exists out, t. split; [exact H|]. destruct t; cbn; now left.
  - apply buildTitleTree_returned in H as (o0 & ip & ti & ch & _ & Hc & ->).
    destruct (title_children_keeps _ _ _ _ _ Hc dn sub Hin) as (o1 & c & Hr & Hcin).
    destruct (IH _ _ _ _ Hr) as (o & t' & Ht' & Hin').
    exists o, t'. split; [exact Ht'|]. cbn [items]. right.
    apply in_flat_map. now exists c.
Qed.

(** X14.  In the tree of the exporter with titles, a [title] is only found
    on an object that has an [indexPath], is never empty, holds no line
    terminator and neither starts nor ends with whitespace.  The object of
    every directory below the scan root has no [title] when its
    [index.html] is missing or cannot be read, and when the text read has
    no title pair; when the text has one, the object has no [title] where
    the content of the first pair is blank, and the trimmed content of the
    first pair as [title] where it is not. *)
Theorem X14_titles_of_the_title_tree d cur rel out t :
  buildTitleTree cur rel d = (out, Returned t) ->
  (forall name indexPath title children,
     In (ItemDir name indexPath (Some title) children) (items t) ->
     title <> [] /\ indexPath <> None /\
     no_line_terminator title /\
     (forall c r, title = c :: r -> is_space c = false) /\
     (forall pre c, title = pre ++ [c] -> is_space c = false)) /\
  (forall dirs es',
     dir_below d dirs (Readable es') ->
     exists o indexPath title children,
       buildTitleTree (descend cur dirs) (descend_rel cur rel dirs) (Readable es')
       = (o, Returned (ItemDir (basename (descend cur dirs)) indexPath title children)) /\
       In (ItemDir (basename (descend cur dirs)) indexPath title children) (items t) /\
       (index_content es' = None -> title = None) /\
       (forall html,
          index_content es' = Some html ->
          (forall pre x post, ~ title_at html pre x post) -> title = None) /\
       (forall html pre x post,
          index_content es' = Some html -> first_title html pre x post ->
          (trim x = [] -> title = None) /\
          (trim x <> [] -> title = Some (trim x)))).
Proof.
  intros H. split; [exact (title_shape_everywhere _ _ _ H)|].
  intros dirs es' Hb.
  destruct (title_below Hb _ _ H) as (o & t' & Ht' & Hin).
  pose proof Ht' as Hcall.
  apply buildTitleTree_returned in Ht' as (o0 & ip & ti & ch & Hp & _ & ->).
  exists o, ip, ti, ch. split; [exact Hcall|]. split; [exact Hin|].
  exact (index_properties_title_exact _ _ _ Hp).
Qed.

Lemma X14_witness :
  (forall name indexPath title children,
     In (ItemDir name indexPath (Some title) children) (items titled_tree) ->
     title <> [] /\ indexPath <> None /\
     no_line_terminator title /\
     (forall c r, title = c :: r -> is_space c = false) /\
     (forall pre c, title = pre ++ [c] -> is_space c = false)) /\
  (forall dirs es',
     dir_below titled_project dirs (Readable es') ->
     exists o indexPath title children,
       buildTitleTree (descend sample_cwd dirs) (descend_rel sample_cwd [] dirs)
         (Readable es')
       = (o, Returned (ItemDir (basename (descend sample_cwd dirs))
                         indexPath title children)) /\
       In (ItemDir (basename (descend sample_cwd dirs)) indexPath title children)
          (items titled_tree) /\
       (index_content es' = None -> title = None) /\
       (forall html,
          index_content es' = Some html ->
          (forall pre x post, ~ title_at html pre x post) -> title = None) /\
       (forall html pre x post,
          index_content es' = Some html -> first_title html pre x post ->
          (trim x = [] -> title = None) /\
          (trim x <> [] -> title = Some (trim x)))).
Proof.
  apply (@X14_titles_of_the_title_tree titled_project sample_cwd []
           (fst (buildTitleTree sample_cwd [] titled_project)) titled_tree).
  vm_compute. reflexivity.
Defined.

Lemma title_children_thrown cur rel : forall es ch0 out0 out err,
  title_children buildTitleTree cur rel es ch0 out0 = (out, Thrown err) ->
  exists n sub o,
    In (EDir n sub) es /\
    buildTitleTree (join [cur; n]) (join [rel; basename cur]) sub = (o, Thrown err).
Proof.
  induction es as [|e es IH]; intros ch0 out0 out err H; cbn [title_children] in H;
    [discriminate H|].
  destruct e as [n sub|n content|n]; cbv zeta in H; cbn [entry_name] in H.
  - destruct (buildTitleTree (join [cur; n]) (join [rel; basename cur]) sub)
      as [o [c|err']] eqn:E.
    + apply IH in H as (n' & sub' & o' & Hin & Hr).
      exists n', sub', o'. split; [now right|exact Hr].
    + injection H as _ <-. exists n, sub, o. split; [now left|exact E].
  - apply IH in H as (n' & sub' & o' & Hin & Hr).
    exists n', sub', o'. split; [now right|exact Hr].
  - apply IH in H as (n' & sub' & o' & Hin & Hr).
    exists n', sub', o'. split; [now right|exact Hr].
Qed.

(** X15.  An index page that cannot be read does not stop the exporter
    with titles: its walk returns whenever every directory below the scan
    root can be listed, and otherwise throws the failure of a
    [readdirSync]. *)
Theorem X15_title_walk_fails_on_directories_only : forall d cur rel,
  match snd (buildTitleTree cur rel d) with
  | Returned _ => unlistable_inside d = false
  | Thrown e => unlistable_inside d = true /\ exists p, e = ReaddirFailed p
  end.
Proof.
  induction d as [|es IH] using dir_induction; intros cur rel.
  - cbn. split; [reflexivity|now eexists].
  - destruct (buildTitleTree cur rel (Readable es)) as [out [t|err]] eqn:E; cbn [snd].
    + apply buildTitleTree_returned in E as (o & ip & ti & ch & _ & Hc & _).
      apply title_children_inv in Hc as (added & _ & HF).
      cbn [unlistable_inside].
      destruct (existsb _ es) eqn:Ex; [|reflexivity]. exfalso.
      apply existsb_exists in Ex as (e & Hin & He).
      destruct e as [n sub|n content|n]; try discriminate He.
      assert (Hf : In (EDir n sub)
                     (filter (fun e => match e with EOther _ => false | _ => true end) es))
        by (apply filter_In; now split).
      clear -HF Hf He IH Hin.
      induction HF as [|e c l added He' HF IHF]; [destruct Hf|].
      destruct Hf as [->|Hf]; [|now apply IHF].
      destruct He' as (o & He').
      specialize (IH n sub Hin (join [cur; n]) (join [rel; basename cur])).
      rewrite He' in IH. cbn [snd] in IH. congruence.
    + cbn [buildTitleTree] in E. cbv zeta in E.
      destruct (index_properties cur rel es) as [[o ip] ti].
      destruct (title_children buildTitleTree cur rel es [] o) as [o' [ch|err']] eqn:C;
        [discriminate E|].
      injection E as _ <-.
      apply title_children_thrown in C as (n & sub & o2 & Hin & Hr).
      specialize (IH n sub Hin (join [cur; n]) (join [rel; basename cur])).
      rewrite Hr in IH. cbn [snd] in IH. destruct IH as (Hu & Hp). split; [|exact Hp].
      cbn [unlistable_inside]. apply existsb_exists. exists (EDir n sub). now split.
Qed.

Lemma children_same_skeleton cur rel : forall es,
  (forall n sub, In (EDir n sub) es ->
     forall cur' rel',
       same_skeleton (buildIndexTree cur' rel' sub) (snd (buildTitleTree cur' rel' sub))) ->
  forall ch0 ch0' out0,
    map skeleton ch0 = map skeleton ch0' ->
    match index_children buildIndexTree cur rel es ch0,
          snd (title_children buildTitleTree cur rel es ch0' out0) with
    | Returned a, Returned b => map skeleton a = map skeleton b
    | Thrown e, Thrown e' => e = e'
    | _, _ => False
    end.
Proof.
  induction es as [|e es IH]; intros Hsub ch0 ch0' out0 Hch;
    cbn [index_children title_children].
  - exact Hch.
  - assert (Hsub' : forall n sub, In (EDir n sub) es ->
              forall cur' rel',
                same_skeleton (buildIndexTree cur' rel' sub)
                  (snd (buildTitleTree cur' rel' sub)))
      by (intros n sub Hin; apply (Hsub n sub); now right).
    destruct e as [n sub|n content|n]; cbv zeta; cbn [entry_name].
    + pose proof (Hsub n sub (or_introl eq_refl)
                    (join [cur; n]) (join [rel; basename cur])) as Hs.
      destruct (buildIndexTree (join [cur; n]) (join [rel; basename cur]) sub)
        as [a|ea];
        destruct (buildTitleTree (join [cur; n]) (join [rel; basename cur]) sub)
        as [o [b|eb]]; cbn [snd same_skeleton] in Hs.
      * apply IH; [exact Hsub'|]. rewrite !map_app. cbn [map]. now rewrite Hch, Hs.
      * destruct Hs.
      * destruct Hs.
      * exact Hs.
    + apply IH; [exact Hsub'|]. rewrite !map_app. now rewrite Hch.
    + now apply IH.
Qed.

(** X16.  The two index exporters walk alike: on the same directory they
    throw the same exception, or return trees that differ in their
    [indexPath] and [title] properties only. *)
Theorem X16_index_exporters_same_skeleton : forall d cur rel,
  same_skeleton (buildIndexTree cur rel d) (snd (buildTitleTree cur rel d)).
Proof.
  induction d as [|es IH] using dir_induction; intros cur rel.
  - reflexivity.
  - cbn [buildIndexTree buildTitleTree]. cbv zeta.
    destruct (index_properties cur rel es) as [[o ip] ti].
    pose proof (children_same_skeleton cur rel es IH [] [] o eq_refl) as H.
    destruct (index_children buildIndexTree cur rel es []) as [a|ea];
      destruct (title_children buildTitleTree cur rel es [] o) as [o' [b|eb]];
      cbn [snd same_skeleton] in *.
    + cbn [skeleton]. now rewrite H.
    + destruct H.
    + destruct H.
    + exact H.
Qed.

(** X17.  The exporter with titles creates no directory either: when
    [assets/data] below the scan root is not there, nothing is written
    and the file system is left as it was. *)
Theorem X17_title_run_needs_output_directory segs fs :
  Forall (fun s => valid_name s = true) segs ->
  dir_at fs (segs ++ [lit "assets"; lit "data"]) = Unreadable ->
  snd (run_title (abs_path segs) fs) = fs /\
  exists out e,
    fst (run_title (abs_path segs) fs) = IndexScanning :: out ++ [IndexFailed e].
Proof.
  intros Hs Hd. unfold run_title. cbv zeta.
  destruct (buildTitleTree (abs_path segs) [] (dir_at fs (segments (abs_path segs))))
    as [out [t|e]]; [|split; [reflexivity|now eexists _, _]].
  destruct (writeFileSync fs (outputFile (abs_path segs))
              (stringify_json [] (item_json t)))
    as [fs'|] eqn:W; [|split; [reflexivity|now eexists _, _]].
  exfalso. unfold writeFileSync in W. rewrite outputFile_segments in W by exact Hs.
  change (segs ++ [lit "assets"; lit "data"; lit "tree.json"])
    with (segs ++ [lit "assets"; lit "data"] ++ [lit "tree.json"]) in W.
  rewrite app_assoc in W. apply write_at_parent in W as (es & He). congruence.
Qed.

Lemma X17_witness :
  snd (run_title (abs_path [lit "home"; lit "proj"]) (in_home titled_project))
  = in_home titled_project /\
  exists out e,
    fst (run_title (abs_path [lit "home"; lit "proj"]) (in_home titled_project))
    = IndexScanning :: out ++ [IndexFailed e].
Proof.
  apply (@X17_title_run_needs_output_directory [lit "home"; lit "proj"]
           (in_home titled_project)).
  - repeat constructor.
  - vm_compute. reflexivity.
Defined.

(* ================================================================== *)
(** ** The text exporter *)

Lemma count_lines_app a b : count_lines (a ++ b) = (count_lines a + count_lines b)%nat.
Proof. apply count_occ_app. Qed.

Lemma text_entries_lines dirp : forall es,
  (forall n sub, In (EDir n sub) es ->
     forall dirp' prefix output out',
       walk_text dirp' prefix sub output = Returned out' ->
       count_lines prefix = 0%nat -> names_on_one_line sub = true ->
       exists text, out' = output ++ text /\ count_lines text = total_entries sub) ->
  forall prefix output out',
    text_entries walk_text dirp prefix es output = Returned out' ->
    count_lines prefix = 0%nat ->
    names_on_one_line (Readable es) = true ->
    exists text,
      out' = output ++ text /\ count_lines text = total_entries (Readable es).
Proof.
  induction es as [|e es IH]; intros Hsub prefix output out' H Hp Hn;
    cbn [text_entries] in H.
  - injection H as <-. exists []. split; [now rewrite app_nil_r|reflexivity].
  - assert (Hsub' : forall n sub, In (EDir n sub) es ->
              forall dirp' prefix output out',
                walk_text dirp' prefix sub output = Returned out' ->
                count_lines prefix = 0%nat -> names_on_one_line sub = true ->
                exists text, out' = output ++ text
                             /\ count_lines text = total_entries sub)
      by (intros n sub Hin; apply (Hsub n sub); now right).
    cbn [names_on_one_line forallb] in Hn.
    apply andb_true_iff in Hn as [Hn Hrest]. apply andb_true_iff in Hn as [Hname Hdeep].
    apply Nat.eqb_eq in Hname.
    assert (Hline : forall connector,
              count_lines connector = 0%nat ->
              count_lines (prefix ++ connector ++ entry_name e ++ [NL]) = 1%nat).
    { intros c Hc. rewrite !count_lines_app, Hp, Hc, Hname. reflexivity. }
    assert (Hconn : count_lines (if is_nil es then ELBOW else TEE) = 0%nat)
      by (destruct (is_nil es); reflexivity).
    specialize (Hline _ Hconn). cbv zeta in H.
    cbn [total_entries map] in *. unfold list_sum in *. cbn [fold_right].
    fold (list_sum (map (fun e0 => match e0 with
                                   | EDir _ sub => S (total_entries sub)
                                   | _ => 1%nat
                                   end) es)).
    destruct e as [n sub|n content|n]; cbn [entry_name] in *.
    + destruct (walk_text _ _ sub _) as [o1|err] eqn:W; [|discriminate H].
      apply (Hsub n sub (or_introl eq_refl)) in W as (t1 & -> & Ht1);
        [| rewrite count_lines_app, Hp; now destruct (is_nil es) | exact Hdeep].
      apply IH in H as (t2 & -> & Ht2); [|exact Hsub'|exact Hp|exact Hrest].
      eexists. split; [rewrite <- !app_assoc; reflexivity|].
      rewrite !count_lines_app in *. unfold list_sum in *. lia.
    + apply IH in H as (t2 & -> & Ht2); [|exact Hsub'|exact Hp|exact Hrest].
      eexists. split; [rewrite <- !app_assoc; reflexivity|].
      rewrite !count_lines_app in *. unfold list_sum in *. lia.
    + apply IH in H as (t2 & -> & Ht2); [|exact Hsub'|exact Hp|exact Hrest].
      eexists. split; [rewrite <- !app_assoc; reflexivity|].
      rewrite !count_lines_app in *. unfold list_sum in *. lia.
Qed.

(** X18.  The text exporter only adds to its text, one line for each
    entry: after a walk that returns, the text is the text before it
    followed by as many lines as there are entries of every kind at every
    depth below the directory (no name holding a line feed). *)
Theorem X18_text_walk_one_line_per_entry : forall d dirPath prefix output out',
  walk_text dirPath prefix d output = Returned out' ->
  count_lines prefix = 0%nat ->
  names_on_one_line d = true ->
  exists text, out' = output ++ text /\ count_lines text = total_entries d.
Proof.
  induction d as [|es IH] using dir_induction; intros dirp prefix output out' H Hp Hn.
  - discriminate H.
  - cbn [walk_text] in H. exact (text_entries_lines dirp es IH _ _ H Hp Hn).
Qed.

Lemma X18_witness :
  exists text,
    match walk_text sample_cwd [] sample_project (lit "proj") with
    | Returned o => o
    | Thrown _ => []
    end = lit "proj" ++ text /\
    count_lines text = total_entries sample_project.
Proof.
  apply (@X18_text_walk_one_line_per_entry sample_project sample_cwd [] (lit "proj")).
  - vm_compute. reflexivity.
  - reflexivity.
  - vm_compute. reflexivity.
Defined.

Lemma text_entries_thrown recur dirp prefix : forall es output err,
  text_entries recur dirp prefix es output = Thrown err ->
  exists n sub p o,
    In (EDir n sub) es /\ recur (join [dirp; n]) p sub o = Thrown err.
Proof.
  induction es as [|e es IH]; intros output err H; cbn [text_entries] in H;
    [discriminate H|].
  cbv zeta in H. destruct e as [n sub|n content|n].
  - destruct (recur _ _ sub _) as [o1|err'] eqn:W.
    + apply IH in H as (n' & sub' & p & o & Hin & Hr).
      exists n', sub', p, o. split; [now right|exact Hr].
    + injection H as <-. exists n, sub. eexists _, _. split; [now left|exact W].
  - apply IH in H as (n' & sub' & p & o & Hin & Hr).
    exists n', sub', p, o. split; [now right|exact Hr].
  - apply IH in H as (n' & sub' & p & o & Hin & Hr).
    exists n', sub', p, o. split; [now right|exact Hr].
Qed.

Lemma text_entries_returned recur dirp prefix : forall es output out',
  text_entries recur dirp prefix es output = Returned out' ->
  forall n sub, In (EDir n sub) es ->
    exists p o o', recur (join [dirp; n]) p sub o = Returned o'.
Proof.
  induction es as [|e es IH]; intros output out' H n sub Hin; [destruct Hin|].
  cbn [text_entries] in H. cbv zeta in H. destruct Hin as [->|Hin].
  - destruct (recur _ _ sub _) as [o1|err'] eqn:W; [|discriminate H].
    eexists _, _, _. exact W.
  - destruct e as [n0 sub0|n0 content|n0].
    + destruct (recur _ _ sub0 _) as [o1|err']; [|discriminate H].
      exact (IH _ _ H n sub Hin).
    + exact (IH _ _ H n sub Hin).
    + exact (IH _ _ H n sub Hin).
Qed.

Lemma walk_text_outcome : forall d dirp prefix output,
  match walk_text dirp prefix d output with
  | Returned _ => unlistable_inside d = false
  | Thrown e => unlistable_inside d = true /\ exists p, e = ReaddirFailed p
  end.
Proof.
  induction d as [|es IH] using dir_induction; intros dirp prefix output.
  - cbn. split; [reflexivity|now eexists].
  - cbn [walk_text unlistable_inside].
    destruct (text_entries walk_text dirp prefix es output) as [o|err] eqn:E.
    + destruct (existsb _ es) eqn:Ex; [|reflexivity]. exfalso.
      apply existsb_exists in Ex as (e & Hin & He).
      destruct e as [n sub|n content|n]; try discriminate He.
      destruct (text_entries_returned _ _ _ _ _ E n sub Hin) as (p & o1 & o2 & Hr).
      specialize (IH n sub Hin (join [dirp; n]) p o1). rewrite Hr in IH. congruence.
    + apply text_entries_thrown in E as (n & sub & p & o & Hin & Hr).
      specialize (IH n sub Hin (join [dirp; n]) p o). rewrite Hr in IH.
      destruct IH as (Hu & Hp). split; [|exact Hp].
      apply existsb_exists. exists (EDir n sub). now split.
Qed.

(** X19.  The text exporter writes all or nothing: when some directory
    below the working directory cannot be listed, the exception of that
    [readdirSync] ends the script, no [tree.txt] is written and the file
    system is left as it was. *)
Theorem X19_text_run_fails_before_writing cwd fs :
  unlistable_inside (dir_at fs (segments cwd)) = true ->
  exists p, run_text cwd fs = (Thrown (ReaddirFailed p), fs).
Proof.
  intros Hu.
  pose proof (walk_text_outcome (dir_at fs (segments cwd)) cwd [] (basename cwd ++ [NL]))
    as H.
  unfold run_text. cbv zeta.
  destruct (walk_text cwd [] (dir_at fs (segments cwd)) (basename cwd ++ [NL]))
    as [text|e]; [congruence|].
  destruct H as (_ & p & ->). now exists p.
Qed.

Lemma X19_witness :
  exists p,
    run_text sample_cwd (in_home (Readable [EDir (lit "private") Unreadable]))
    = (Thrown (ReaddirFailed p), in_home (Readable [EDir (lit "private") Unreadable])).
Proof.
  apply (@X19_text_run_fails_before_writing sample_cwd
           (in_home (Readable [EDir (lit "private") Unreadable]))).
  vm_compute. reflexivity.
Defined.
(* ================================================================== *)
(** ** The tie-break of the two directives *)





(* ================================================================== *)
(** ** The run of a project without included pages *)




